(** * peek: token-driven completion and the Pygments lexers behind it

    A shallow embedding of [peek/completer.py] and [peek/lexers.py], with
    the condition of the enter key of [peek/key_bindings.py] and the extra
    options of [peek/config.py].

    Conventions.
    - A Python [str] is a [string]; the lexers scan it as a [list ascii]
      (characters are the code points below 256).
    - A Python [dict] iterated by the code is an association list in insertion
      order with unique keys; a Python [set] is a [gset].
    - A function that may fall off its end returns [PyNone] there. *)

From Stdlib Require Import Ascii String List Bool Arith ZArith Lia.
From stdpp Require Import base option list strings gmap.
Import ListNotations.
Local Open Scope string_scope.
Local Open Scope nat_scope.
Local Open Scope list_scope.

(** * Part I: the program *)

(** ** Python string primitives used by the sources *)

Module PyStr.

(** [s.startswith(p)] *)
Definition startswith (p s : string) : bool := String.prefix p s.

(** [s[::-1]] *)
Fixpoint rev_string (s : string) : string :=
  match s with
  | EmptyString => EmptyString
  | String c s' => rev_string s' +:+ String c EmptyString
  end.

(** [s.endswith(p)] *)
Definition endswith (p s : string) : bool :=
  String.prefix (rev_string p) (rev_string s).

(** [sep.join(l)] *)
Fixpoint join (sep : string) (l : list string) : string :=
  match l with
  | [] => EmptyString
  | [x] => x
  | x :: rest => x +:+ sep +:+ join sep rest
  end.

(** [s.split(c)] for a one-character separator: never the empty list. *)
Fixpoint split (c : ascii) (s : string) : list string :=
  match s with
  | EmptyString => [EmptyString]
  | String a s' =>
      if Ascii.eqb a c then EmptyString :: split c s'
      else match split c s' with
           | [] => [String a EmptyString]
           | w :: ws => String a w :: ws
           end
  end.

(** [bool(s)]: a string is truthy when it is not empty. *)
Definition truthy (s : string) : bool :=
  match s with EmptyString => false | _ => true end.

(** [s[n:]] and [s[:n]] for [0 <= n]. *)
Fixpoint drop (n : nat) (s : string) : string :=
  match n, s with
  | O, _ => s
  | S n', String _ s' => drop n' s'
  | S _, EmptyString => EmptyString
  end.

Fixpoint take (n : nat) (s : string) : string :=
  match n, s with
  | S n', String c s' => String c (take n' s')
  | _, _ => EmptyString
  end.

(** [s.find(c) != -1] for a one-character needle. *)
Fixpoint contains_char (c : ascii) (s : string) : bool :=
  match s with
  | EmptyString => false
  | String a s' => Ascii.eqb a c || contains_char c s'
  end.

(** [s.upper()] on the ASCII letters. *)
Definition upper_char (c : ascii) : ascii :=
  let n := nat_of_ascii c in
  if (97 <=? n) && (n <=? 122) then ascii_of_nat (n - 32) else c.

Fixpoint upper (s : string) : string :=
  match s with
  | EmptyString => EmptyString
  | String c s' => String (upper_char c) (upper s')
  end.

End PyStr.

(** ** [can_match] (completer.py, lines 163-170) *)

(** The loop over [zip(ts, ps)]: it stops with the shorter list. *)
Fixpoint can_match (ts ps : list string) : bool :=
  match ts, ps with
  | t :: ts', p :: ps' =>
      if negb (String.eqb t p) then
        if PyStr.startswith "_" t then false
        else if negb (PyStr.startswith "{" p && PyStr.endswith "}" p) then false
        else can_match ts' ps'
      else can_match ts' ps'
  | _, _ => true
  end.

(** ** Tokens *)

(** The token kinds: the Pygments kinds that [lexers.py] emits, and the kinds
    that [completer.py] imports.  Kinds are compared by identity ([is]) or by
    tuple membership ([in (Error, KeyName, Name)]), never by the subtype test,
    so a flat enumeration with decidable equality is what the code sees. *)
Inductive TokenKind :=
  (* pygments.token *)
  | Text | Whitespace | Error | Comment_Single | Keyword | Literal
  | Name | Name_Builtin
  | String_Symbol | String_Double | String_Single | String_Escape
  | Number_Float | Number_Oct | Number_Bin | Number_Hex
  | Number_Integer_Long | Number_Integer
  (* lexers.py, lines 7-14 *)
  | Percent | CurlyLeft | CurlyRight | BracketLeft | BracketRight
  | Comma | Colon | Heading
  (* imported by completer.py, lines 11-12 *)
  | PathPart | ParamName | Ampersand | QuestionMark | Slash
  | HttpMethod | FuncName | BlankLine | KeyName | Assign
  (* named by the specification only *)
  | ParamValue | Equals.

#[global] Instance TokenKind_eq_dec : EqDecision TokenKind.
Proof. solve_decision. Defined.

Definition kind_is (a b : TokenKind) : bool := bool_decide (a = b).

(** One token: [t.index], [t.ttype], [t.value]. *)
Record Token := mkToken { index : nat; ttype : TokenKind; value : string }.

(** ** The specification repository and the function registry *)

(** [{'path': ..., 'methods': [...]}] *)
Record ApiPath := mkApiPath { path : string; methods : list string }.

(** One endpoint: [api_spec['url']['paths']] and the keys of
    [api_spec.get('params')], [None] when the key is absent. *)
Record ApiSpec := mkApiSpec { url_paths : list ApiPath; params : option (list string) }.

(** [endpoint name -> spec], in insertion order. *)
Definition Specs := list (string * ApiSpec).

(** A registered function: [getattr(func, 'option_names', None)]. *)
Record Func := mkFunc { option_names : option (list string) }.

(** [d.get(k)] on an insertion-ordered dictionary. *)
Fixpoint dict_get {V} (d : list (string * V)) (k : string) : option V :=
  match d with
  | [] => None
  | (k', v) :: rest => if String.eqb k' k then Some v else dict_get rest k
  end.

(** ** What a completion call returns *)

(** [Completion(text, start_position=...)] *)
Record Completion := mkCompletion { text : string; start_position : Z }.

(** The iterables the code returns.  The closing call of each branch is a
    completer of the host library applied to the document; the words or
    candidates it is built from are the repository's part. *)
Inductive Completions :=
  | Nothing                                             (* [] *)
  | WordCompleter (ignore_case : bool) (words : list string)
  | Chain (a b : Completions)                           (* itertools.chain *)
  | FuzzyConstant (candidates : list Completion).       (* FuzzyCompleter(ConstantCompleter(candidates)) *)

(** The result of a call: an iterable, [None], or an exception. *)
Inductive PyResult :=
  | Return (c : Completions)
  | PyNone
  | Raises (exn : string).

(** The candidate texts an iterable draws from, before the host filters them
    against the word under the cursor. *)
Fixpoint offered (c : Completions) : list string :=
  match c with
  | Nothing => []
  | WordCompleter _ ws => ws
  | Chain a b => offered a ++ offered b
  | FuzzyConstant cs => map text cs
  end.

(** ** [PeekCompleter] (completer.py, lines 25-160) *)

(** [self]: the two lexers and the loaded specs. *)
Record PeekCompleter := mkPeekCompleter {
  lexer : string -> list Token;            (* self.lexer.get_tokens_unprocessed *)
  url_path_lexer : string -> list Token;   (* self.url_path_lexer.get_tokens_unprocessed *)
  specs : Specs;                           (* self.specs *)
}.

Definition _HTTP_METHOD_COMPLETER : Completions :=
  WordCompleter true ["GET"; "POST"; "PUT"; "DELETE"].

Definition _ES_API_CALL_OPTION_COMPLETER : Completions :=
  WordCompleter false (map (fun w => w +:+ "=") ["conn"; "runas"]).

(** [[p for p in api_path['path'].split('/') if p]] *)
Definition path_segments (p : string) : list string :=
  filter (fun s => Is_true (PyStr.truthy s)) (PyStr.split "/" p).

(** [l[-1]] *)
Definition last_token (l : list Token) : option Token := last l.

(** [ts.pop()]: the list without its last element ([None]: IndexError). *)
Definition list_pop {A} (l : list A) : option (list A) :=
  match l with [] => None | _ => Some (removelast l) end.

(** The body of the inner loop of [_complete_path_part] for one template. *)
Definition path_part_step (method : string) (ts : list string)
    (candidates : list Completion) (api_path : ApiPath) : list Completion :=
  if negb (bool_decide (method ∈ methods api_path)) then candidates
  else
    let ps := path_segments (path api_path) in
    if length ps <=? length ts then candidates
    else if negb (can_match ts ps) then candidates
    else
      let candidate := PyStr.join "/" (drop (length ts) ps) in
      candidates ++ [mkCompletion candidate 0].

(** Lines 95-116. *)
Definition _complete_path_part (self : PeekCompleter) (method : string)
    (path_tokens : list Token) : PyResult :=
  match last_token path_tokens with
  | None => Raises "IndexError"
  | Some cursor_token =>
      let ts := map value (filter (fun t => ttype t ≠ Slash) path_tokens) in
      match (if kind_is (ttype cursor_token) PathPart then list_pop ts else Some ts) with
      | None => Raises "IndexError"
      | Some ts =>
          let candidates :=
            fold_left (fun candidates '(api_name, api_spec) =>
                         fold_left (path_part_step method ts) (url_paths api_spec) candidates)
                      (specs self) [] in
          Return (FuzzyConstant candidates)
      end
  end.

(** [bool(api_spec.get('params', None))] *)
Definition has_params (api_spec : ApiSpec) : bool :=
  match params api_spec with
  | None | Some [] => false
  | Some (_ :: _) => true
  end.

(** The body of the inner loop of [_complete_query_param_name]. *)
Definition query_param_step (method : string) (ts : list string) (api_spec : ApiSpec)
    (candidates : gset string) (api_path : ApiPath) : gset string :=
  if negb (bool_decide (method ∈ methods api_path)) then candidates
  else if negb (has_params api_spec) then candidates
  else
    let ps := path_segments (path api_path) in
    if negb (length ts =? length ps) then candidates
    else if negb (can_match ts ps) then candidates
    else candidates ∪ list_to_set (default [] (params api_spec)).

(** Lines 118-136. *)
Definition _complete_query_param_name (self : PeekCompleter) (method : string)
    (path_tokens : list Token) : PyResult :=
  let ts := map value (filter (fun t => ttype t = PathPart) path_tokens) in
  let candidates :=
    fold_left (fun candidates '(api_name, api_spec) =>
                 fold_left (query_param_step method ts api_spec) (url_paths api_spec) candidates)
              (specs self) (∅ : gset string) in
  Return (FuzzyConstant (map (fun c => mkCompletion c 0) (elements candidates))).

(** The loop of [_complete_options] over [tokens[::-1]]; falling out of it is
    falling off the end of the function. *)
Fixpoint scan_options (NAMES : list (string * Func)) (reversed : list Token) : PyResult :=
  match reversed with
  | [] => PyNone
  | t :: rest =>
      if kind_is (ttype t) HttpMethod then Return _ES_API_CALL_OPTION_COMPLETER
      else if kind_is (ttype t) FuncName then
        match dict_get NAMES (value t) with
        | None => Return Nothing
        | Some func =>
            match option_names func with
            | None | Some [] => Return Nothing
            | Some names => Return (WordCompleter false (map (fun n => n +:+ "=") names))
            end
        end
      else if kind_is (ttype t) BlankLine then Return Nothing
      else scan_options NAMES rest
  end.

(** Lines 138-156. *)
Definition _complete_options (NAMES : list (string * Func)) (tokens : list Token) : PyResult :=
  match last_token tokens with
  | Some t => if kind_is (ttype t) Assign then Return Nothing
              else scan_options NAMES (rev tokens)
  | None => scan_options NAMES (rev tokens)
  end.

(** [s[:z]] for a Python integer [z]: a negative bound counts from the end. *)
Definition slice_to (z : Z) (s : string) : string :=
  if (0 <=? z)%Z then PyStr.take (Z.to_nat z) s
  else PyStr.take (String.length s - Z.to_nat (- z)) s.

(** Lines 76-93. *)
Definition _complete_path (self : PeekCompleter) (tokens : list Token)
    (document_cursor_position : nat) : PyResult :=
  match rev tokens with
  | path_token :: method_token :: _ =>
      let method := PyStr.upper (value method_token) in
      let cursor_position := (Z.of_nat document_cursor_position - Z.of_nat (index path_token))%Z in
      let path := slice_to cursor_position (value path_token) in
      let path_tokens := url_path_lexer self path in
      match last_token path_tokens with
      | None => Return Nothing
      | Some cursor_token =>
          if kind_is (ttype cursor_token) PathPart || kind_is (ttype cursor_token) Slash
          then _complete_path_part self method path_tokens
          else if kind_is (ttype cursor_token) ParamName
                  || kind_is (ttype cursor_token) QuestionMark
                  || kind_is (ttype cursor_token) Ampersand
          then _complete_query_param_name self method path_tokens
          else Return Nothing
      end
  | _ => Raises "IndexError"
  end.

(** The [for ... break] of lines 46-49: the first token, with its position,
    for which [t.index < cursor_position <= t.index + len(t.value)]. *)
Fixpoint find_token (i : nat) (tokens : list Token) (cursor_position : nat)
    : option (nat * Token) :=
  match tokens with
  | [] => None
  | t :: rest =>
      if (index t <? cursor_position)
         && (cursor_position <=? index t + String.length (value t))
      then Some (i, t)
      else find_token (S i) rest cursor_position
  end.

(** Lines 32-74.  [process_tokens] (peek.parser) and [NAMES] (peek.names) are
    imported from modules outside these sources and are parameters here. *)
Definition get_completions
    (process_tokens : list Token -> list Token) (NAMES : list (string * Func))
    (self : PeekCompleter) (document_text : string) (cursor_position : nat) : PyResult :=
  let text := PyStr.take cursor_position document_text in
  let tokens := process_tokens (lexer self text) in
  if length tokens =? 0 then Return Nothing
  else
    match find_token 0 tokens cursor_position with
    | None =>
        match last_token tokens with
        | None => Raises "IndexError"
        | Some tl =>
            if PyStr.contains_char "010"
                 (PyStr.drop (index tl + String.length (value tl)) text)
            then Return Nothing
            else _complete_options NAMES tokens
        end
    | Some (i, t) =>
        if kind_is (ttype t) HttpMethod || kind_is (ttype t) FuncName
        then Return (Chain _HTTP_METHOD_COMPLETER (WordCompleter false (map fst NAMES)))
        else if (0 <? i) && match tokens !! (i - 1) with
                            | Some prev => kind_is (ttype prev) HttpMethod
                            | None => false
                            end
        then _complete_path self tokens cursor_position
        else if kind_is (ttype t) Error || kind_is (ttype t) KeyName || kind_is (ttype t) Name
        then _complete_options NAMES (removelast tokens)
        else Return Nothing
    end.

(** ** [load_rest_api_spec] (completer.py, lines 182-196) *)

Module SpecLoader.

(** What a directory holds: for each name of [os.listdir], what [json.load]
    returns for the file, or [None] when opening or parsing it raises. *)
Abbreviation Listing := (list (string * option Specs)).

(** The file system seen by the loader: the listing of a path, [None] when
    [os.path.exists] is false. *)
Definition FileSystem := string -> option Listing.

(** [d[k] = v] on an insertion-ordered dictionary. *)
Fixpoint dict_set {V} (d : list (string * V)) (k : string) (v : V) : list (string * V) :=
  match d with
  | [] => [(k, v)]
  | (k', v') :: rest =>
      if String.eqb k' k then (k', v) :: rest else (k', v') :: dict_set rest k v
  end.

(** [d.update(other)] *)
Definition dict_update {V} (d other : list (string * V)) : list (string * V) :=
  fold_left (fun d '(k, v) => dict_set d k v) other d.

Inductive Loaded :=
  | Loaded_ok (specs : Specs)
  | Load_raises (exn : string).

(** The loop of lines 191-195. *)
Fixpoint load_files (spec_files : Listing) (specs : Specs) : Loaded :=
  match spec_files with
  | [] => Loaded_ok specs
  | (spec_file, content) :: rest =>
      if String.eqb spec_file "_common.json" then load_files rest specs
      else match content with
           | None => Load_raises "OSError or JSONDecodeError"
           | Some mapping => load_files rest (dict_update specs mapping)
           end
  end.

Definition spec_dir_of (package_root : string) : string :=
  package_root +:+ "/rest-api-spec/api".

(** The warnings logged, and the result. *)
Definition load_rest_api_spec (package_root : string) (fs : FileSystem)
    : list string * Loaded :=
  let spec_dir := spec_dir_of package_root in
  match fs spec_dir with
  | None => (["spec directory does not exist: " +:+ spec_dir], Loaded_ok [])
  | Some listing =>
      let spec_files := filter (fun f => Is_true (PyStr.endswith ".json" (fst f))) listing in
      ([], load_files spec_files [])
  end.

(** The files whose mappings are merged, and all their entries in order. *)
Definition merged_files (listing : Listing) : Listing :=
  filter (fun f => Is_true (PyStr.endswith ".json" (fst f) && negb (String.eqb (fst f) "_common.json")))
         listing.

Definition all_entries (files : Listing) : Specs :=
  flat_map (fun f => default [] (snd f)) files.

End SpecLoader.

(** ** Regular expressions, as Python's [re] matches them

    The patterns of [lexers.py] are written in this small syntax and matched
    by backtracking: alternatives in order, greedy repetition.  Both lexers
    set [flags = re.IGNORECASE], which replaces the default [re.MULTILINE]:
    a literal matches either case, and [^] matches at offset 0 only. *)

Module Re.

Inductive regex :=
  | Eps
  | Chr (c : ascii)                 (* a literal character *)
  | Cls (p : ascii -> bool)         (* a character class *)
  | Seq (a b : regex)
  | Alt (a b : regex)
  | Star (a : regex)                (* greedy *)
  | Group (n : nat) (a : regex)     (* the n-th capturing group *)
  | Bol                             (* ^ *)
  | WordBoundary.                   (* \b *)

Definition Plus (a : regex) : regex := Seq a (Star a).
Definition Opt (a : regex) : regex := Alt a Eps.

(** A literal word. *)
Fixpoint Lit (s : string) : regex :=
  match s with
  | EmptyString => Eps
  | String c s' => Seq (Chr c) (Lit s')
  end.

(** [words(ws, suffix=...)] of pygments.lexer: one of the words, then the
    suffix.  Pygments compiles the words to an optimised alternation in a
    group; no word here is a prefix of another, so their order is immaterial. *)
Fixpoint one_of (ws : list string) : regex :=
  match ws with
  | [] => Cls (fun _ => false)
  | [w] => Lit w
  | w :: rest => Alt (Lit w) (one_of rest)
  end.

Definition words (ws : list string) (suffix : regex) : regex :=
  Seq (Group 1 (one_of ws)) suffix.

(** Character classes on the code points below 256. *)
Definition code (c : ascii) : nat := nat_of_ascii c.

Definition between (lo hi : nat) (c : ascii) : bool :=
  (lo <=? code c) && (code c <=? hi).

Definition is_newline (c : ascii) : bool := code c =? 10.

(** [\s] *)
Definition is_space (c : ascii) : bool :=
  between 9 13 c || between 28 32 c || (code c =? 133) || (code c =? 160).

(** [\S] *)
Definition not_space (c : ascii) : bool := negb (is_space c).

(** [\d] *)
Definition is_digit (c : ascii) : bool := between 48 57 c.

(** [\w] *)
Definition is_word (c : ascii) : bool :=
  is_digit c || between 65 90 c || between 97 122 c || (code c =? 95)
  || (code c =? 170) || (code c =? 178) || (code c =? 179) || (code c =? 181)
  || (code c =? 185) || (code c =? 186) || between 188 190 c
  || between 192 214 c || between 216 246 c || between 248 255 c.

(** [.] without [re.DOTALL], and with it. *)
Definition dot (c : ascii) : bool := negb (is_newline c).
Definition dot_all (c : ascii) : bool := true.

Definition one_of_chars (s : string) (c : ascii) : bool :=
  existsb (Ascii.eqb c) (list_ascii_of_string s).

Definition lower (c : ascii) : ascii :=
  if between 65 90 c then ascii_of_nat (code c + 32) else c.

(** Equality of a pattern literal with an input character under IGNORECASE. *)
Definition eq_ci (c x : ascii) : bool := Ascii.eqb (lower c) (lower x).

(** Where the matcher stands: the character before, the offset, what is left. *)
Record cursor := mkCursor { prev : option ascii; pos : nat; rest : list ascii }.

Definition start_of (text : list ascii) : cursor := mkCursor None 0 text.

Definition after (x : ascii) (cur : cursor) (r : list ascii) : cursor :=
  mkCursor (Some x) (S (pos cur)) r.

(** The spans of the groups that took part, the latest first. *)
Definition groups := list (nat * (nat * nat)).

Definition is_word_at (o : option ascii) : bool :=
  match o with Some c => is_word c | None => false end.

Section Matcher.
Context {R : Type}.

Definition cont := cursor -> groups -> option R.

(** Greedy repetition: one more round of the body first, and only rounds that
    consume; [n] bounds the rounds by what is left of the input. *)
Fixpoint star_loop (body : cursor -> groups -> cont -> option R) (n : nat)
    (cur : cursor) (g : groups) (k : cont) : option R :=
  match n with
  | O => k cur g
  | S n' =>
      match body cur g (fun cur' g' =>
                          if pos cur <? pos cur' then star_loop body n' cur' g' k else None) with
      | Some x => Some x
      | None => k cur g
      end
  end.

Fixpoint run (r : regex) (cur : cursor) (g : groups) (k : cont) : option R :=
  match r with
  | Eps => k cur g
  | Chr c =>
      match rest cur with
      | x :: r' => if eq_ci c x then k (after x cur r') g else None
      | [] => None
      end
  | Cls p =>
      match rest cur with
      | x :: r' => if p x then k (after x cur r') g else None
      | [] => None
      end
  | Seq a b => run a cur g (fun cur' g' => run b cur' g' k)
  | Alt a b =>
      match run a cur g k with
      | Some x => Some x
      | None => run b cur g k
      end
  | Star a => star_loop (run a) (length (rest cur)) cur g k
  | Group n a => run a cur g (fun cur' g' => k cur' ((n, (pos cur, pos cur')) :: g'))
  | Bol => if pos cur =? 0 then k cur g else None
  | WordBoundary =>
      if xorb (is_word_at (prev cur)) (is_word_at (head (rest cur))) then k cur g else None
  end.

End Matcher.

(** [re.compile(r, flags).match(text, pos)]: where the match ends, and its
    groups. *)
Definition rexmatch (r : regex) (cur : cursor) : option (cursor * groups) :=
  run r cur [] (fun cur' g => Some (cur', g)).

(** [m.group(n)] as a span, [None] when the group took no part. *)
Fixpoint group_span (g : groups) (n : nat) : option (nat * nat) :=
  match g with
  | [] => None
  | (n', sp) :: g' => if n' =? n then Some sp else group_span g' n
  end.

(** Can the pattern match without consuming?  [false] is a guarantee. *)
Fixpoint nullable (r : regex) : bool :=
  match r with
  | Eps | Star _ | Bol | WordBoundary => true
  | Chr _ | Cls _ => false
  | Seq a b => nullable a && nullable b
  | Alt a b => nullable a || nullable b
  | Group _ a => nullable a
  end.

Fixpoint has_group (r : regex) : bool :=
  match r with
  | Eps | Bol | WordBoundary | Chr _ | Cls _ => false
  | Seq a b | Alt a b => has_group a || has_group b
  | Star a => has_group a
  | Group _ _ => true
  end.

End Re.

(** ** The engine of [pygments.lexer.RegexLexer]

    [get_tokens_unprocessed] as the lexers inherit it: at each offset the
    rules of the state on top of the stack are tried in order; the first that
    matches yields its tokens, moves to the end of its match and changes the
    stack; when none matches, a newline resets the stack to [root], any other
    character is one Error token, and the end of the text ends the scan.  A
    pop never removes the last state of the stack. *)

Module Pygments.
Import Re.

(** The kind of the token for a newline that no rule matches: [Text] (the
    later releases of the library yield [Whitespace]; nothing below depends
    on which of the two it is). *)
Definition newline_kind : TokenKind := Text.

Definition slice (cur : cursor) (a b : nat) : list ascii :=
  take (b - a) (drop (a - pos cur) (rest cur)).

Definition emit (start : nat) (k : TokenKind) (w : list ascii) : Token :=
  mkToken start k (string_of_list_ascii w).

Definition shift (by_ : nat) (t : Token) : Token :=
  mkToken (by_ + index t) (ttype t) (value t).

(** The action of one group of [bygroups(...)]. *)
Inductive GroupAction :=
  | GToken (k : TokenKind)
  | GUsing (lx : list ascii -> option (list Token)).   (* using(OtherLexer) *)

Inductive Action :=
  | AToken (k : TokenKind)
  | AByGroups (gs : list GroupAction).

(** [None] stands for a nested lexer that did not finish. *)
Definition run_group (cur : cursor) (g : groups) (i : nat) (ga : GroupAction)
    : option (list Token) :=
  match group_span g (S i) with
  | None => Some []
  | Some (a, b) =>
      let data := slice cur a b in
      match ga with
      | GToken k => match data with [] => Some [] | _ => Some [emit a k data] end
      | GUsing lx => map (shift a) <$> lx data
      end
  end.

Fixpoint run_groups (cur : cursor) (g : groups) (i : nat) (gs : list GroupAction)
    : option (list Token) :=
  match gs with
  | [] => Some []
  | ga :: gs' =>
      match run_group cur g i ga, run_groups cur g (S i) gs' with
      | Some a, Some b => Some (a ++ b)
      | _, _ => None
      end
  end.

Definition run_action (act : Action) (cur cur' : cursor) (g : groups)
    : option (list Token) :=
  match act with
  | AToken k => Some [emit (pos cur) k (slice cur (pos cur) (pos cur'))]
  | AByGroups gs => run_groups cur g 0 gs
  end.

Section Engine.
Context {St : Type} (tokendefs : St -> list (regex * Action * list (option St))) (root : St).

(** One rule: its pattern, its action, and its new state as a list of
    operations: [None] is ['#pop'], [Some s] pushes the state [s]. *)
Definition Rule : Type := regex * Action * list (option St).

(** The stack, its top first. *)
Definition top (stack : list St) : St := hd root stack.

Definition apply_op (stack : list St) (op : option St) : list St :=
  match op with
  | None => if 1 <? length stack then tl stack else stack
  | Some s => s :: stack
  end.

Definition new_stack (stack : list St) (ops : list (option St)) : list St :=
  fold_left apply_op ops stack.

Fixpoint first_match (rules : list Rule) (cur : cursor)
    : option (Rule * cursor * groups) :=
  match rules with
  | [] => None
  | r :: rules' =>
      match rexmatch (fst (fst r)) cur with
      | Some (cur', g) => Some (r, cur', g)
      | None => first_match rules' cur
      end
  end.

Inductive Outcome :=
  | Halt
  | Next (toks : list Token) (cur : cursor) (stack : list St)
  | Stuck.

(** One round of the [while 1] loop. *)
Definition step (cur : cursor) (stack : list St) : Outcome :=
  match first_match (tokendefs (top stack)) cur with
  | Some ((_, act, ops), cur', g) =>
      match run_action act cur cur' g with
      | Some toks => Next toks cur' (new_stack stack ops)
      | None => Stuck
      end
  | None =>
      match rest cur with
      | [] => Halt
      | c :: r =>
          if is_newline c then Next [emit (pos cur) newline_kind [c]] (after c cur r) [root]
          else Next [emit (pos cur) Error [c]] (after c cur r) stack
      end
  end.

Fixpoint loop (fuel : nat) (cur : cursor) (stack : list St) : option (list Token) :=
  match fuel with
  | O => None
  | S fuel' =>
      match step cur stack with
      | Halt => Some []
      | Stuck => None
      | Next toks cur' stack' => (toks ++.) <$> loop fuel' cur' stack'
      end
  end.

(** Where the scan stands after [n] rounds, if it runs that long. *)
Fixpoint state_after (n : nat) (cur : cursor) (stack : list St)
    : option (cursor * list St) :=
  match n with
  | O => Some (cur, stack)
  | S n' =>
      match step cur stack with
      | Next _ cur' stack' => state_after n' cur' stack'
      | _ => None
      end
  end.

(** The scan of a whole text from the stack [('root',)]; the rounds are
    bounded by twice the length of the text, which the lexers below never
    exhaust. *)
Definition get_tokens_unprocessed (text : list ascii) : option (list Token) :=
  loop (2 * length text + 2) (start_of text) [root].

End Engine.

End Pygments.

(** ** [PayloadLexer] (lexers.py, lines 55-108) *)

Module PayloadLexer.
Import Re Pygments.

Inductive State :=
  | root | dict_key | dict_value | array_values
  | dqs_key | sqs_key | dqs_ | sqs_.

Definition dquote : ascii := "034".
Definition squote : ascii := "'".
Definition backslash : ascii := "\".
Definition newline : ascii := "010".

Definition rule (r : regex) (k : TokenKind) : Rule (St := State) := (r, AToken k, []).
Definition rule_to (r : regex) (k : TokenKind) (ops : list (option State))
  : Rule (St := State) := (r, AToken k, ops).
Definition pop : option State := None.
Definition push (s : State) : option State := Some s.

(** The two classes of [innerstring_rules]: any character but a backslash, a
    quote of either kind, a percent sign or a newline; and a quote of either
    kind or a backslash. *)
Definition inner_char (c : ascii) : bool :=
  negb (Ascii.eqb c backslash || Ascii.eqb c squote || Ascii.eqb c dquote
        || Ascii.eqb c "%" || is_newline c).
Definition quote_or_backslash (c : ascii) : bool :=
  Ascii.eqb c squote || Ascii.eqb c dquote || Ascii.eqb c backslash.

Definition innerstring_rules (ttype : TokenKind) : list Rule :=
  [ rule (Plus (Cls inner_char)) ttype;
    rule (Cls quote_or_backslash) ttype ].

(** Two backslashes, or a backslash before the quote [q], or a backslash
    before a newline. *)
Definition escapes (q : ascii) : regex :=
  Alt (Seq (Chr backslash) (Chr backslash))
      (Alt (Seq (Chr backslash) (Chr q)) (Seq (Chr backslash) (Chr newline))).

Definition dqs (ttype : TokenKind) : list Rule :=
  [ rule_to (Chr dquote) ttype [pop];
    rule (escapes dquote) String_Escape ] ++ innerstring_rules ttype.

Definition sqs (ttype : TokenKind) : list Rule :=
  [ rule_to (Chr squote) ttype [pop];
    rule (escapes squote) String_Escape ] ++ innerstring_rules ttype.

Definition comment : regex := Seq (Lit "//") (Star (Cls dot)).
Definition d : regex := Cls is_digit.
Definition exponent : regex :=
  Seq (Cls (one_of_chars "eE")) (Seq (Opt (Cls (one_of_chars "+-"))) (Plus (Cls (between 48 57)))).

Definition numbers : list Rule :=
  [ (* (\d+\.\d*|\d*\.\d+)([eE][+-]?[0-9]+)?j? *)
    rule (Seq (Group 1 (Alt (Seq (Plus d) (Seq (Chr ".") (Star d)))
                            (Seq (Star d) (Seq (Chr ".") (Plus d)))))
              (Seq (Opt (Group 2 exponent)) (Opt (Chr "j")))) Number_Float;
    (* \d+[eE][+-]?[0-9]+j? *)
    rule (Seq (Plus d) (Seq exponent (Opt (Chr "j")))) Number_Float;
    (* 0[0-7]+j? *)
    rule (Seq (Chr "0") (Seq (Plus (Cls (between 48 55))) (Opt (Chr "j")))) Number_Oct;
    (* 0[bB][01]+ *)
    rule (Seq (Chr "0") (Seq (Cls (one_of_chars "bB")) (Plus (Cls (one_of_chars "01"))))) Number_Bin;
    (* 0[xX][a-fA-F0-9]+ *)
    rule (Seq (Chr "0") (Seq (Cls (one_of_chars "xX"))
            (Plus (Cls (fun c => between 97 102 c || between 65 70 c || between 48 57 c)))))
         Number_Hex;
    (* \d+L *)
    rule (Seq (Plus d) (Chr "L")) Number_Integer_Long;
    (* \d+j? *)
    rule (Seq (Plus d) (Opt (Chr "j"))) Number_Integer ].

Definition value_rules : list Rule :=
  [ rule comment Comment_Single;
    rule_to (Chr "{") CurlyLeft [push dict_key];
    rule_to (Chr "[") BracketLeft [push array_values];
    rule_to (Chr dquote) String_Double [push dqs_];
    rule_to (Chr squote) String_Single [push sqs_];
    rule (words ["true"; "false"; "null"] WordBoundary) Name_Builtin ]
  ++ numbers ++
  [ rule (Plus (Cls is_space)) Whitespace ].

(** The table [tokens]; ['sqs'] is [dqs(String.Single)], as line 98 has it. *)
Definition tokens (s : State) : list Rule :=
  match s with
  | root =>
      [ rule comment Comment_Single;
        rule_to (Chr "{") CurlyLeft [push dict_key];
        rule (Plus (Cls is_space)) Whitespace ]
  | dict_key =>
      [ rule comment Comment_Single;
        rule_to (Chr "}") CurlyRight [pop];
        rule_to (Chr dquote) String_Symbol [push dqs_key];
        rule_to (Chr squote) String_Symbol [push sqs_key];
        rule_to (Chr ":") Colon [pop; push dict_value];
        rule (Plus (Cls is_space)) Whitespace ]
  | dict_value =>
      [ rule_to (Chr ",") Comma [pop; push dict_key];
        rule_to (Chr "}") CurlyRight [pop] ] ++ value_rules
  | array_values =>
      [ rule (Chr ",") Comma;
        rule_to (Chr "]") BracketRight [pop] ] ++ value_rules
  | dqs_key => dqs String_Symbol
  | sqs_key => sqs String_Symbol
  | dqs_ => dqs String_Double
  | sqs_ => dqs String_Single
  end.

Definition get_tokens_unprocessed : list ascii -> option (list Token) :=
  Pygments.get_tokens_unprocessed tokens root.

End PayloadLexer.

(** ** [PeekLexer] (lexers.py, lines 111-141) *)

Module PeekLexer.
Import Re Pygments.

Inductive State := root | path | payload | command | args.

Definition rule (r : regex) (k : TokenKind) : Rule (St := State) := (r, AToken k, []).
Definition rule_to (r : regex) (k : TokenKind) (ops : list (option State))
  : Rule (St := State) := (r, AToken k, ops).
Definition pop : option State := None.
Definition push (s : State) : option State := Some s.

Definition comment : regex := Seq (Lit "//") (Star (Cls dot)).

Definition tokens (s : State) : list Rule :=
  match s with
  | root =>
      [ rule comment Comment_Single;
        rule (Plus (Cls is_space)) Whitespace;
        rule_to (words ["GET"; "POST"; "PUT"; "DELETE"] WordBoundary) Keyword [pop; push path];
        (* start of text, group 1: any run of whitespace, group 2: the percent sign *)
        (Seq Bol (Seq (Group 1 (Star (Cls is_space))) (Group 2 (Chr "%"))),
         AByGroups [GToken Whitespace; GToken Percent], [pop; push command]) ]
  | path =>
      [ rule (Plus (Cls is_space)) Whitespace;
        rule_to (Plus (Cls not_space)) Literal [pop; push payload] ]
  | payload =>
      [ (* group 1: all that is left of the text, newlines included *)
        (Group 1 (Star (Cls dot_all)),
         AByGroups [GUsing PayloadLexer.get_tokens_unprocessed], [pop]) ]
  | command =>
      [ rule_to (Plus (Cls not_space)) Name_Builtin [pop; push args];
        rule (Plus (Cls is_space)) Whitespace ]
  | args =>
      [ rule comment Comment_Single;
        rule (Plus (Cls not_space)) Literal;
        rule (Plus (Cls is_space)) Whitespace ]
  end.

Definition get_tokens_unprocessed : list ascii -> option (list Token) :=
  Pygments.get_tokens_unprocessed tokens root.

(** The scan of a Python string. *)
Definition tokenize (text : string) : list Token :=
  default [] (get_tokens_unprocessed (list_ascii_of_string text)).

End PeekLexer.

(** ** The parts that these sources import and do not define *)

Module UrlPathLexer.

(** Modelled from the spec: the regions of the URL sub-lexer, which
    [peek.lexers] of these sources does not define: the path, and after a
    question mark the names and the values of the parameters. *)
Inductive Region := InPath | InName | InValue.

Definition run_kind (r : Region) : TokenKind :=
  match r with InPath => PathPart | InName => ParamName | InValue => ParamValue end.

(** The token of the run collected so far, when it is not empty. *)
Definition flush (r : Region) (start : nat) (run : string) : list Token :=
  match run with
  | EmptyString => []
  | _ => [mkToken start (run_kind r) run]
  end.

(** Modelled from the spec: the scan of the URL sub-lexer, one character at
    a time; [run] is the segment, name or value collected since [start]. *)
Fixpoint scan (r : Region) (start : nat) (run : string) (pos : nat) (s : string)
    : list Token :=
  match s with
  | EmptyString => flush r start run
  | String c s' =>
      let sep (k : TokenKind) (r' : Region) :=
        flush r start run ++ mkToken pos k (String c EmptyString) :: scan r' (S pos) EmptyString (S pos) s' in
      let more := scan r start (run +:+ String c EmptyString) (S pos) s' in
      match r with
      | InPath =>
          if Ascii.eqb c "/" then sep Slash InPath
          else if Ascii.eqb c "?" then sep QuestionMark InName
          else more
      | InName =>
          if Ascii.eqb c "&" then sep Ampersand InName
          else if Ascii.eqb c "=" then sep Equals InValue
          else more
      | InValue =>
          if Ascii.eqb c "&" then sep Ampersand InName
          else more
      end
  end.

(** Modelled from the spec: the class [UrlPathLexer] of [peek.lexers], which
    [completer.py] imports and these sources do not define.  It scans the
    path text alone: it splits on the slash into PathPart and Slash tokens,
    and after a question mark or an ampersand it splits [name=value] pairs
    into ParamName, Equals and ParamValue. *)
Definition get_tokens_unprocessed (s : string) : list Token :=
  scan InPath 0 EmptyString 0 s.

End UrlPathLexer.

(** Modelled from the spec: [process_tokens] of [peek.parser], which
    [completer.py] imports and these sources do not define.  It merges
    adjacent Error tokens into one token that spans the merged range and
    keeps the start offset of the first. *)
Fixpoint process_tokens (tokens : list Token) : list Token :=
  match tokens with
  | [] => []
  | t :: rest =>
      match process_tokens rest with
      | u :: rest' =>
          if kind_is (ttype t) Error && kind_is (ttype u) Error
          then mkToken (index t) Error (value t +:+ value u) :: rest'
          else t :: u :: rest'
      | [] => [t]
      end
  end.

(** ** [PeekCompleter.__init__] (completer.py, lines 27-30) *)

(** What a constructor call gives: the object, or the exception it raises. *)
Inductive Constructed :=
  | Constructed_ok (self : PeekCompleter)
  | Construct_raises (exn : string).

(** The two lexers are built and the specs are loaded; an exception of the
    loader leaves the constructor.  With the warnings logged. *)
Definition PeekCompleter_init (package_root : string) (fs : SpecLoader.FileSystem)
    : list string * Constructed :=
  match SpecLoader.load_rest_api_spec package_root fs with
  | (log, SpecLoader.Loaded_ok sp) =>
      (log, Constructed_ok
              (mkPeekCompleter PeekLexer.tokenize UrlPathLexer.get_tokens_unprocessed sp))
  | (log, SpecLoader.Load_raises exn) => (log, Construct_raises exn)
  end.

(** ** [buffer_should_be_handled] (key_bindings.py, lines 50-67) *)

Module KeyBindings.

Definition SPECIAL_LEADING_CHAR : string := "%".

(** [s.lstrip()] and [s.strip()] without argument: the characters removed
    are those that [str.isspace] accepts, the class of the whitespace pattern
    of the lexers. *)
Fixpoint lstrip (s : string) : string :=
  match s with
  | EmptyString => EmptyString
  | String c s' => if Re.is_space c then lstrip s' else s
  end.

Definition rstrip (s : string) : string :=
  PyStr.rev_string (lstrip (PyStr.rev_string s)).

Definition strip (s : string) : string := rstrip (lstrip s).

(** [s.rfind(sub)]: the highest offset at which [sub] starts in [s];
    [None] stands for -1. *)
Fixpoint rfind (sub s : string) : option nat :=
  match s with
  | EmptyString => if String.prefix sub EmptyString then Some 0 else None
  | String _ s' =>
      match rfind sub s' with
      | Some i => Some (S i)
      | None => if String.prefix sub s then Some 0 else None
      end
  end.

(** The condition [cond] on the text of the buffer; [linesep] is
    [os.linesep]. *)
Definition buffer_should_be_handled (linesep : string) (text : string) : bool :=
  if String.eqb (strip text) EmptyString then true
  else if PyStr.startswith SPECIAL_LEADING_CHAR (lstrip text) then true
  else
    match rfind linesep text with
    | Some last_linesep_position =>
        String.eqb (strip (PyStr.drop last_linesep_position text)) EmptyString
    | None => false
    end.

End KeyBindings.

(** ** [load_config] (config.py, lines 28-57): the extra options *)

Module Config.

(** A value of the dictionary [extra_config]: the string of an option, or a
    nested dictionary. *)
#[warnings="-register-all"]
Inductive Value :=
  | Str (s : string)
  | Dict (d : list (string * Value)).

(** [config_option.split('=', 1)] unpacked into [key, value]: [None] stands
    for the ValueError of a list of one element, when there is no equals
    sign. *)
Fixpoint split_once (c : ascii) (s : string) : option (string * string) :=
  match s with
  | EmptyString => None
  | String a s' =>
      if Ascii.eqb a c then Some (EmptyString, s')
      else match split_once c s' with
           | Some (k, v) => Some (String a k, v)
           | None => None
           end
  end.

(** Lines 40-53 for one option, from the dictionary [parent] on: the
    dictionary as the walk leaves it, and whether the walk met a value that
    is no dictionary and logged the conflict.  A missing child is created
    empty and entered; the last component is assigned the value. *)
Fixpoint set_option (key_components : list string) (value : string)
    (parent : list (string * Value)) : list (string * Value) * bool :=
  match key_components with
  | [] => (parent, false)
  | [last_component] => (SpecLoader.dict_set parent last_component (Str value), false)
  | key_component :: rest =>
      match dict_get parent key_component with
      | None =>
          let '(child, warned) := set_option rest value [] in
          (SpecLoader.dict_set parent key_component (Dict child), warned)
      | Some (Dict child) =>
          let '(child', warned) := set_option rest value child in
          (SpecLoader.dict_set parent key_component (Dict child'), warned)
      | Some (Str _) => (parent, true)
      end
  end.

(** The loop of lines 36-53: the keys whose conflict was logged, and the
    dictionary [extra_config], or [None] for the ValueError. *)
Fixpoint extra_config_loop (extra_config_options : list string)
    (extra_config : list (string * Value)) (log : list string)
    : list string * option (list (string * Value)) :=
  match extra_config_options with
  | [] => (log, Some extra_config)
  | config_option :: rest =>
      match split_once "=" config_option with
      | None => (log, None)
      | Some (key, value) =>
          let '(extra_config', warned) :=
            set_option (PyStr.split "." key) value extra_config in
          extra_config_loop rest extra_config' (if warned then log ++ [key] else log)
      end
  end.

Definition extra_config (extra_config_options : list string)
    : list string * option (list (string * Value)) :=
  extra_config_loop extra_config_options [] [].

End Config.

(** * Part II: the notions of the specification *)

(** ** Path matching and candidates *)

(** What the specification asks of one paired position. *)
Definition position_ok (t p : string) : Prop :=
  t = p \/
  (PyStr.startswith "_" t = false /\
   PyStr.startswith "{" p = true /\ PyStr.endswith "}" p = true).

(** The typed segments [ts] that [_complete_path_part] matches with. *)
Definition typed_segments (path_tokens : list Token) (cursor_token : Token) : list string :=
  let ts := map value (filter (fun t => ttype t ≠ Slash) path_tokens) in
  if decide (ttype cursor_token = PathPart) then removelast ts else ts.

(** The candidates one template contributes, in the specification's words. *)
Definition template_candidates (method : string) (T : list string) (ap : ApiPath)
    : list Completion :=
  let P := path_segments (path ap) in
  if decide (method ∈ methods ap /\ length T < length P /\ can_match T P = true)
  then [mkCompletion (PyStr.join "/" (drop (length T) P)) 0]
  else [].

(** A template offers its endpoint's parameter names, in the specification's
    words. *)
Definition offers_params (method : string) (T : list string) (api_spec : ApiSpec)
    (ap : ApiPath) : Prop :=
  method ∈ methods ap /\ has_params api_spec = true /\
  length T = length (path_segments (path ap)) /\
  can_match T (path_segments (path ap)) = true.

(** ** Tokens that tile a text *)

(** [tiles start w toks]: the tokens, in order, are not empty, start one
    where the other ends, the first at [start], and spell [w]. *)
Inductive tiles : nat -> list ascii -> list Token -> Prop :=
  | tiles_nil start : tiles start [] []
  | tiles_cons start w w' t toks :
      index t = start ->
      value t = string_of_list_ascii w ->
      w <> [] ->
      tiles (start + length w) w' toks ->
      tiles start (w ++ w') (t :: toks).

(** The offset just past a token. *)
Definition token_end (t : Token) : nat := index t + String.length (value t).

(** The token's span holds the offset [p]. *)
Definition covers (t : Token) (p : nat) : Prop := index t <= p < token_end t.

(** The four properties of a token list that tiles [w] from offset 0. *)
Definition partitions (w : list ascii) (toks : list Token) : Prop :=
  (* strictly ordered by start offset, one ending before the next starts *)
  (forall i j ti tj, i < j -> toks !! i = Some ti -> toks !! j = Some tj ->
     index ti < index tj /\ token_end ti <= index tj) /\
  (* every token is a non-empty span inside the text *)
  (forall i t, toks !! i = Some t -> index t < token_end t <= length w) /\
  (* every offset of the text lies in the span of exactly one token *)
  (forall p, p < length w ->
     exists i t, toks !! i = Some t /\ covers t p /\
       forall j u, toks !! j = Some u -> covers u p -> j = i) /\
  (* the token texts, in order, spell the text *)
  w = flat_map (fun t => list_ascii_of_string (value t)) toks.

(** ** The token under the cursor and the nearest head *)

(** The test of line 47. *)
Definition located (t : Token) (cursor_position : nat) : Prop :=
  index t < cursor_position <= token_end t.

(** The span of a token with both of its ends holds the offset [p]. *)
Definition in_span (t : Token) (p : nat) : Prop := index t <= p <= token_end t.

(** A token of the first [n] characters of a text: a span that is not
    empty and ends at the offset [n] or before it.  The tokens lexed from the
    text before the cursor are such tokens for the cursor. *)
Definition within (n : nat) (t : Token) : Prop := index t < token_end t <= n.

(** The kinds the backward scan stops at. *)
Definition is_head (t : Token) : bool :=
  kind_is (ttype t) HttpMethod || kind_is (ttype t) FuncName || kind_is (ttype t) BlankLine.

(** What the nearest head token offers, in the specification's words. *)
Definition head_options (NAMES : list (string * Func)) (t : Token) : PyResult :=
  match ttype t with
  | HttpMethod => Return (WordCompleter false ["conn="; "runas="])
  | FuncName =>
      match dict_get NAMES (value t) with
      | Some func =>
          match option_names func with
          | Some (n :: ns) => Return (WordCompleter false (map (fun n => n +:+ "=") (n :: ns)))
          | _ => Return Nothing
          end
      | None => Return Nothing
      end
  | _ => Return Nothing
  end.

(** ** The documented examples *)

(** The specs of the documented example: one endpoint, one template. *)
Definition search_specs (ps : option (list string)) : Specs :=
  [("search", mkApiSpec [mkApiPath "/{index}/_search" ["GET"; "POST"]] ps)].

(** The completer built on [PeekLexer] as [lexers.py] defines it. *)
Definition source_completer (sp : Specs) : PeekCompleter :=
  mkPeekCompleter PeekLexer.tokenize UrlPathLexer.get_tokens_unprocessed sp.

(** A completer whose lexer yields a given token stream: the kinds that
    [completer.py] dispatches on (HttpMethod, FuncName, KeyName, Assign,
    BlankLine) are not emitted by the lexer of these sources. *)
Definition completer_on (tokens : list Token) (sp : Specs) : PeekCompleter :=
  mkPeekCompleter (fun _ => tokens) UrlPathLexer.get_tokens_unprocessed sp.

(** The registry of the documented example. *)
Definition example_names : list (string * Func) :=
  [("myfunc", mkFunc (Some ["a"; "b"]))].

Definition dq : string := String PayloadLexer.dquote EmptyString.

(** ** Notions for the further properties of Part IV *)

(** What is left of the text does not start with a character of the class
    [p]. *)
Definition stops (p : ascii -> bool) (r : list ascii) : Prop :=
  match r with [] => True | x :: _ => p x = false end.

(** [m] spells the word [w], in any letter case. *)
Definition spells (w : string) (m : list ascii) : Prop :=
  Forall2 (fun a b => Re.eq_ci a b = true) (list_ascii_of_string w) m.

(** The states of the payload lexer that are inside a string. *)
Definition in_string (s : PayloadLexer.State) : bool :=
  match s with
  | PayloadLexer.dqs_key | PayloadLexer.sqs_key | PayloadLexer.dqs_ | PayloadLexer.sqs_ => true
  | _ => false
  end.

(** A text of whitespace only. *)
Definition blank (s : string) : Prop :=
  Forall (fun c => Re.is_space c = true) (list_ascii_of_string s).

(** Reading a dotted key back from the nested dictionary of the options. *)
Fixpoint get_path (key_components : list string) (d : list (string * Config.Value))
    : option Config.Value :=
  match key_components with
  | [] => None
  | [last_component] => dict_get d last_component
  | key_component :: rest =>
      match dict_get d key_component with
      | Some (Config.Dict child) => get_path rest child
      | _ => None
      end
  end.

(** * Part III: the claims *)

(** ** [can_match] *)

Lemma can_match_cons t p ts ps :
  can_match (t :: ts) (p :: ps) = true <-> position_ok t p /\ can_match ts ps = true.
Proof.
  unfold position_ok. simpl.
  destruct (String.eqb_spec t p) as [->|Hne]; simpl.
  - split; [intros H; split; [now left | exact H] | intros [_ H]; exact H].
  - destruct (PyStr.startswith "_" t) eqn:Hu.
    + split; [discriminate | intros [[Heq | [Hf _]] _]; congruence].
    + destruct (PyStr.startswith "{" p) eqn:Hb, (PyStr.endswith "}" p) eqn:He; simpl;
        split; try discriminate;
        try (intros [[Heq | (_ & H1 & H2)] H]; congruence).
      intros H. split; [right; auto | exact H].
Qed.

Lemma can_match_take ts ps :
  can_match ts ps =
  can_match (take (min (length ts) (length ps)) ts) (take (min (length ts) (length ps)) ps).
Proof.
  revert ps. induction ts as [|t ts IH]; intros [|p ps]; simpl; try reflexivity.
  rewrite <- IH. reflexivity.
Qed.

(** C1. [can_match T P] looks only at the paired positions below
    [min (len T) (len P)], and it is true exactly when at every paired position
    [i] either [T[i] = P[i]], or [T[i]] does not start with an underscore and
    [P[i]] starts with an opening and ends with a closing brace.  The three
    documented calls evaluate as stated. *)
Theorem can_match_spec :
  (forall T P : list string,
      can_match T P = true <->
      (forall i t p, T !! i = Some t -> P !! i = Some p -> position_ok t p)) /\
  (forall T P : list string,
      can_match T P =
      can_match (take (min (length T) (length P)) T) (take (min (length T) (length P)) P)) /\
  can_match ["users"; "123"] ["users"; "{id}"] = true /\
  can_match ["_search"] ["{index}"] = false /\
  can_match ["a"] ["b"] = false.
Proof.
  split; [| split; [exact can_match_take | repeat split; reflexivity]].
  induction T as [|t T IH]; intros P.
  - split; [intros _ i t p H; discriminate | reflexivity].
  - destruct P as [|p P].
    + split; [intros _ i t' p' _ H; discriminate | reflexivity].
    + rewrite can_match_cons, IH. split.
      * intros [H0 Hrest] [|i] t' p' Ht Hp; simpl in *.
        -- injection Ht as <-. injection Hp as <-. exact H0.
        -- eapply Hrest; eassumption.
      * intros H. split.
        -- apply (H 0); reflexivity.
        -- intros i t' p' Ht Hp. apply (H (S i)); assumption.
Qed.

(** ** Path-part completion *)

Lemma path_part_step_spec method ts candidates ap :
  path_part_step method ts candidates ap = candidates ++ template_candidates method ts ap.
Proof.
  unfold path_part_step, template_candidates.
  destruct (bool_decide_reflect (method ∈ methods ap)) as [Hm|Hm]; simpl.
  - destruct (Nat.leb_spec (length (path_segments (path ap))) (length ts)) as [Hl|Hl].
    + rewrite decide_False by (intros (_ & ? & _); lia). now rewrite app_nil_r.
    + destruct (can_match ts (path_segments (path ap))) eqn:Hc; simpl.
      * rewrite decide_True by auto. reflexivity.
      * rewrite decide_False by (intros (_ & _ & ?); congruence). now rewrite app_nil_r.
  - rewrite decide_False by (intros (? & _); contradiction). now rewrite app_nil_r.
Qed.

Lemma path_part_inner method ts paths candidates :
  fold_left (path_part_step method ts) paths candidates =
  candidates ++ flat_map (template_candidates method ts) paths.
Proof.
  revert candidates. induction paths as [|ap paths IH]; intros candidates; simpl.
  - now rewrite app_nil_r.
  - rewrite IH, path_part_step_spec, <- app_assoc. reflexivity.
Qed.

Lemma path_part_outer method ts (sp : Specs) candidates :
  fold_left (fun candidates '(api_name, api_spec) =>
               fold_left (path_part_step method ts) (url_paths api_spec) candidates)
            sp candidates =
  candidates ++
  flat_map (fun e => flat_map (template_candidates method ts) (url_paths (snd e))) sp.
Proof.
  revert candidates. induction sp as [|[n a] sp IH]; intros candidates; simpl.
  - now rewrite app_nil_r.
  - rewrite IH, path_part_inner, <- app_assoc. reflexivity.
Qed.

Lemma last_snoc {A} (l : list A) (x : A) : last (l ++ [x]) = Some x.
Proof. induction l as [|y [|z l] IH]; simpl in *; auto. Qed.

Lemma typed_segments_pop pre cursor_token :
  ttype cursor_token = PathPart ->
  list_pop (map value (filter (fun t => ttype t ≠ Slash) (pre ++ [cursor_token]))) =
  Some (typed_segments (pre ++ [cursor_token]) cursor_token).
Proof.
  intros Hk. unfold typed_segments. rewrite decide_True by assumption.
  rewrite filter_app, map_app. simpl. rewrite filter_cons_True by (rewrite Hk; discriminate).
  simpl. unfold list_pop.
  destruct (map value (filter (fun t => ttype t ≠ Slash) pre) ++ [value cursor_token]) eqn:E.
  - destruct (map value (filter (fun t => ttype t ≠ Slash) pre)); discriminate.
  - reflexivity.
Qed.

(** The list of candidates, in order, that the nested loops collect. *)
Lemma _complete_path_part_eq self method pre cursor_token :
  _complete_path_part self method (pre ++ [cursor_token]) =
  Return (FuzzyConstant
    (flat_map (fun e => flat_map (template_candidates method
                                    (typed_segments (pre ++ [cursor_token]) cursor_token))
                                 (url_paths (snd e)))
              (specs self))).
Proof.
  unfold _complete_path_part, last_token. rewrite last_snoc.
  unfold kind_is. destruct (bool_decide_reflect (ttype cursor_token = PathPart)) as [Hk|Hk].
  - rewrite typed_segments_pop by assumption. now rewrite path_part_outer.
  - rewrite path_part_outer. unfold typed_segments. rewrite decide_False by assumption.
    reflexivity.
Qed.

(** The URL sub-lexer on a path without a query part: the values of its
    tokens that are not slashes are the non-empty segments of the path. *)
Lemma split_never_empty c s : exists w ws, PyStr.split c s = w :: ws.
Proof.
  induction s as [|a s (w & ws & IH)]; simpl; [eauto |].
  destruct (Ascii.eqb a c); [eauto | rewrite IH; eauto].
Qed.

Lemma append_cons a (s t : string) : String a s +:+ t = String a (s +:+ t).
Proof. reflexivity. Qed.

Lemma append_empty_l (s : string) : EmptyString +:+ s = s.
Proof. reflexivity. Qed.

Lemma append_empty_r (s : string) : s +:+ EmptyString = s.
Proof.
  induction s as [|a s IH]; [reflexivity |]. rewrite append_cons. f_equal. exact IH.
Qed.

Lemma append_assoc_char (run : string) c s :
  (run +:+ String c EmptyString) +:+ s = run +:+ String c s.
Proof.
  induction run as [|a run IH]; [reflexivity |]. rewrite !append_cons. f_equal. exact IH.
Qed.

Lemma contains_char_snoc c run a :
  PyStr.contains_char c (run +:+ String a EmptyString)
  = PyStr.contains_char c run || Ascii.eqb a c.
Proof.
  induction run as [|b run IH].
  - rewrite append_empty_l. simpl. now rewrite orb_false_r.
  - rewrite append_cons. simpl. now rewrite IH, orb_assoc.
Qed.

Lemma split_after_run c run s :
  PyStr.contains_char c run = false ->
  PyStr.split c (run +:+ s) =
  match PyStr.split c s with
  | w :: ws => (run +:+ w) :: ws
  | [] => [run]
  end.
Proof.
  induction run as [|a run IH]; intros Hrun.
  - rewrite append_empty_l.
    destruct (split_never_empty c s) as (w & ws & H). rewrite H. reflexivity.
  - simpl in Hrun. apply orb_false_iff in Hrun as [Ha Hrun].
    rewrite append_cons. simpl. rewrite Ha, (IH Hrun).
    destruct (PyStr.split c s); reflexivity.
Qed.

Lemma flush_values run start :
  map value (filter (fun t => ttype t ≠ Slash) (UrlPathLexer.flush UrlPathLexer.InPath start run))
  = filter (fun s => Is_true (PyStr.truthy s)) [run].
Proof. destruct run; reflexivity. Qed.

Lemma url_scan_segments s : forall run start pos,
  PyStr.contains_char "/" run = false ->
  PyStr.contains_char "?" s = false ->
  map value (filter (fun t => ttype t ≠ Slash)
               (UrlPathLexer.scan UrlPathLexer.InPath start run pos s))
  = path_segments (run +:+ s).
Proof.
  induction s as [|c s IH]; intros run start pos Hrun Hs; cbn [UrlPathLexer.scan].
  - rewrite flush_values, append_empty_r. unfold path_segments.
    pose proof (split_after_run "/" run EmptyString Hrun) as H.
    rewrite append_empty_r in H. simpl in H. rewrite append_empty_r in H. now rewrite H.
  - simpl in Hs. apply orb_false_iff in Hs as [Hc Hs]. rewrite Hc.
    destruct (Ascii.eqb c "/") eqn:Hslash.
    + apply Ascii.eqb_eq in Hslash as ->.
      rewrite filter_app, map_app, flush_values.
      rewrite (filter_cons_False (fun t : Token => ttype t ≠ Slash))
        by (simpl; intros H; now apply H).
      rewrite (IH EmptyString (S pos) (S pos) eq_refl Hs), append_empty_l.
      unfold path_segments. rewrite (split_after_run "/" run _ Hrun). simpl.
      rewrite append_empty_r.
      destruct run; reflexivity.
    + rewrite IH; [now rewrite append_assoc_char | | exact Hs].
      rewrite contains_char_snoc, Hrun, Hslash. reflexivity.
Qed.

(** C2. Path-part completion takes as [T] the values of the path tokens that
    are not slashes, without the last one when the cursor token is a path
    segment: the non-empty segments of the typed path, without the one under
    the cursor.  It returns, through the fuzzy filter, exactly the candidates
    [join "/" P[len T:]] with start position 0 of the templates [P] whose
    method set holds the method, with [len T < len P] and [can_match T P].
    With method GET and the one template [/{index}/_search], the inputs
    [GET /prod/] and [GET /prod/_sear] give the candidate [_search]. *)
Theorem complete_path_part_spec :
  (forall self method pre cursor_token,
     let T := typed_segments (pre ++ [cursor_token]) cursor_token in
     exists candidates,
       _complete_path_part self method (pre ++ [cursor_token])
         = Return (FuzzyConstant candidates) /\
       forall c, c ∈ candidates <->
         exists name api_spec ap,
           (name, api_spec) ∈ specs self /\ ap ∈ url_paths api_spec /\
           method ∈ methods ap /\
           length T < length (path_segments (path ap)) /\
           can_match T (path_segments (path ap)) = true /\
           c = mkCompletion (PyStr.join "/" (drop (length T) (path_segments (path ap)))) 0) /\
  (forall pre i v,
     typed_segments (pre ++ [mkToken i PathPart v]) (mkToken i PathPart v) =
     map value (filter (fun t => ttype t ≠ Slash) pre) /\
     typed_segments (pre ++ [mkToken i Slash v]) (mkToken i Slash v) =
     map value (filter (fun t => ttype t ≠ Slash) pre)) /\
  (forall typed_path,
     PyStr.contains_char "?" typed_path = false ->
     map value (filter (fun t => ttype t ≠ Slash)
                  (UrlPathLexer.get_tokens_unprocessed typed_path))
     = path_segments typed_path) /\
  _complete_path (source_completer (search_specs None))
     [mkToken 0 HttpMethod "GET"; mkToken 4 Literal "/prod/"] 10
  = Return (FuzzyConstant [mkCompletion "_search" 0]) /\
  _complete_path (source_completer (search_specs None))
     [mkToken 0 HttpMethod "GET"; mkToken 4 Literal "/prod/_sear"] 15
  = Return (FuzzyConstant [mkCompletion "_search" 0]).
Proof.
  split; [| split; [| split; [| split]]].
  - intros self method pre cursor_token T.
    eexists. split; [apply _complete_path_part_eq |].
    fold T. intros c. rewrite list_elem_of_In, in_flat_map. split.
    + intros ([name api_spec] & Hin & Hc). simpl in Hc.
      apply in_flat_map in Hc as (ap & Hap & Hc).
      unfold template_candidates in Hc.
      destruct (decide _) as [(Hm & Hl & Hcm)|]; [| destruct Hc].
      destruct Hc as [<-|[]].
      exists name, api_spec, ap.
      rewrite <- list_elem_of_In in Hin. rewrite <- list_elem_of_In in Hap. auto 10.
    + intros (name & api_spec & ap & Hin & Hap & Hm & Hl & Hcm & ->).
      exists (name, api_spec). rewrite <- list_elem_of_In. split; [assumption |].
      simpl. apply in_flat_map. exists ap. rewrite <- list_elem_of_In.
      split; [assumption |].
      unfold template_candidates. rewrite decide_True by auto. now left.
  - intros pre i v. unfold typed_segments. cbn [ttype]. split.
    + rewrite decide_True by reflexivity.
      rewrite filter_app, map_app. simpl. apply removelast_last.
    + rewrite decide_False by discriminate.
      rewrite filter_app, map_app. simpl. now rewrite app_nil_r.
  - intros typed_path Hq. unfold UrlPathLexer.get_tokens_unprocessed.
    now rewrite url_scan_segments.
  - vm_compute. reflexivity.
  - vm_compute. reflexivity.
Qed.

(** The typed path [/prod/] has the one segment [prod]. *)
Lemma complete_path_part_witness :
  map value (filter (fun t => ttype t ≠ Slash) (UrlPathLexer.get_tokens_unprocessed "/prod/"))
  = path_segments "/prod/".
Proof.
  exact (proj1 (proj2 (proj2 complete_path_part_spec)) "/prod/" eq_refl).
Defined.

(** ** Query-parameter-name completion *)

Lemma query_param_step_spec method ts api_spec candidates ap x :
  x ∈ query_param_step method ts api_spec candidates ap <->
  x ∈ candidates \/
  (offers_params method ts api_spec ap /\ x ∈ default [] (params api_spec)).
Proof.
  unfold query_param_step, offers_params.
  destruct (bool_decide_reflect (method ∈ methods ap)) as [Hm|Hm]; simpl;
    [| intuition].
  destruct (has_params api_spec); simpl; [| intuition congruence].
  destruct (Nat.eqb_spec (length ts) (length (path_segments (path ap)))) as [Hl|Hl]; simpl;
    [| intuition].
  destruct (can_match ts (path_segments (path ap))); simpl; [| intuition congruence].
  rewrite elem_of_union, elem_of_list_to_set. intuition.
Qed.

Lemma query_param_inner method ts api_spec paths candidates x :
  x ∈ fold_left (query_param_step method ts api_spec) paths candidates <->
  x ∈ candidates \/
  exists ap, ap ∈ paths /\ offers_params method ts api_spec ap /\
             x ∈ default [] (params api_spec).
Proof.
  revert candidates. induction paths as [|ap paths IH]; intros candidates; simpl.
  - split; [auto | intros [H | (ap & Hin & _)]; [exact H | inversion Hin]].
  - rewrite IH, query_param_step_spec. split.
    + intros [[H | H] | (ap' & Hin & H)]; [now left | right; exists ap | right; exists ap'].
      * split; [left | exact H].
      * split; [now right | exact H].
    + intros [H | (ap' & Hin & H)]; [now left; left |].
      apply elem_of_cons in Hin as [-> | Hin]; [left; right; exact H |].
      right. exists ap'. auto.
Qed.

Lemma query_param_outer method ts (sp : Specs) candidates x :
  x ∈ fold_left (fun candidates '(api_name, api_spec) =>
                   fold_left (query_param_step method ts api_spec) (url_paths api_spec) candidates)
                sp candidates <->
  x ∈ candidates \/
  exists name api_spec ap,
    (name, api_spec) ∈ sp /\ ap ∈ url_paths api_spec /\
    offers_params method ts api_spec ap /\ x ∈ default [] (params api_spec).
Proof.
  revert candidates. induction sp as [|[n a] sp IH]; intros candidates; simpl.
  - split; [auto | intros [H | (? & ? & ? & Hin & _)]; [exact H | inversion Hin]].
  - rewrite IH, query_param_inner. split.
    + intros [[H | (ap & Hin & H)] | (n' & a' & ap & Hin & H)].
      * now left.
      * right. exists n, a, ap. split; [left | auto].
      * right. exists n', a', ap. split; [now right | auto].
    + intros [H | (n' & a' & ap & Hin & Hap & H)]; [now left; left |].
      apply elem_of_cons in Hin as [Heq | Hin].
      * injection Heq as -> ->. left. right. exists ap. auto.
      * right. exists n', a', ap. auto.
Qed.

(** C3. Query-parameter-name completion takes as [T] the values of the
    PathPart tokens only; it returns, through the fuzzy filter, one candidate
    with start position 0 for each name of a set without duplicates: the
    union of the declared parameter names of the endpoints with a template
    whose method set holds the method, whose parameter set is not empty, and
    for which [len T = len P] and [can_match T P].  With the parameters [q]
    and [size] declared for [/{index}/_search], the input
    [GET /prod/_search?] gives both. *)
Theorem complete_query_param_name_spec :
  (forall self method path_tokens,
     let T := map value (filter (fun t => ttype t = PathPart) path_tokens) in
     exists names : list string,
       _complete_query_param_name self method path_tokens
         = Return (FuzzyConstant (map (fun c => mkCompletion c 0) names)) /\
       NoDup names /\
       forall x, x ∈ names <->
         exists name api_spec ap declared,
           (name, api_spec) ∈ specs self /\ ap ∈ url_paths api_spec /\
           method ∈ methods ap /\
           params api_spec = Some declared /\ declared <> [] /\
           length T = length (path_segments (path ap)) /\
           can_match T (path_segments (path ap)) = true /\
           x ∈ declared) /\
  (exists names,
     _complete_path (source_completer (search_specs (Some ["q"; "size"])))
        [mkToken 0 HttpMethod "GET"; mkToken 4 Literal "/prod/_search?"] 18
     = Return (FuzzyConstant (map (fun c => mkCompletion c 0) names)) /\
     "q" ∈ names /\ "size" ∈ names /\ forall x, x ∈ names -> x = "q" \/ x = "size").
Proof.
  assert (General : forall self method path_tokens,
     let T := map value (filter (fun t => ttype t = PathPart) path_tokens) in
     exists names : list string,
       _complete_query_param_name self method path_tokens
         = Return (FuzzyConstant (map (fun c => mkCompletion c 0) names)) /\
       NoDup names /\
       forall x, x ∈ names <->
         exists name api_spec ap declared,
           (name, api_spec) ∈ specs self /\ ap ∈ url_paths api_spec /\
           method ∈ methods ap /\
           params api_spec = Some declared /\ declared <> [] /\
           length T = length (path_segments (path ap)) /\
           can_match T (path_segments (path ap)) = true /\
           x ∈ declared).
  { intros self method path_tokens T. unfold _complete_query_param_name. fold T.
    eexists. split; [reflexivity |]. split; [apply NoDup_elements |].
    intros x. rewrite elem_of_elements, query_param_outer. split.
    - intros [H | (name & api_spec & ap & Hin & Hap & (Hm & Hp & Hl & Hc) & Hx)];
        [now apply not_elem_of_empty in H |].
      unfold has_params in Hp. destruct (params api_spec) as [[|d ds]|] eqn:E; try discriminate.
      exists name, api_spec, ap, (d :: ds). simpl in Hx. auto 10.
    - intros (name & api_spec & ap & declared & Hin & Hap & Hm & Hp & Hne & Hl & Hc & Hx).
      right. exists name, api_spec, ap. split; [assumption |]. split; [assumption |].
      unfold offers_params, has_params. rewrite Hp. simpl.
      destruct declared; [congruence | auto]. }
  split; [exact General |].
  destruct (General (source_completer (search_specs (Some ["q"; "size"]))) "GET"
              (UrlPathLexer.get_tokens_unprocessed "/prod/_search?"))
    as (names & Heq & _ & Hnames).
  exists names. split; [exact Heq |].
  assert (Hchar : forall x, x ∈ names <-> x = "q" \/ x = "size").
  { intros x. rewrite Hnames. split.
    - intros (name & api_spec & ap & declared & Hin & Hap & _ & Hp & _ & _ & _ & Hx).
      apply list_elem_of_singleton in Hin. injection Hin as -> ->.
      simpl in Hp. injection Hp as <-.
      apply elem_of_cons in Hx as [-> | Hx]; [now left |].
      apply list_elem_of_singleton in Hx. now right.
    - intros Hx. exists "search", (mkApiSpec [mkApiPath "/{index}/_search" ["GET"; "POST"]]
                                      (Some ["q"; "size"])),
        (mkApiPath "/{index}/_search" ["GET"; "POST"]), ["q"; "size"].
      split; [apply list_elem_of_singleton; reflexivity |].
      split; [apply list_elem_of_singleton; reflexivity |].
      split; [left |]. split; [reflexivity |]. split; [discriminate |].
      split; [vm_compute; reflexivity |]. split; [vm_compute; reflexivity |].
      destruct Hx as [-> | ->]; [left | right; left]. }
  split; [apply Hchar; now left |]. split; [apply Hchar; now right |].
  intros x. apply Hchar.
Qed.

(** ** What a match consumes *)

Module ReFacts.
Import Re.

(** [cur'] is [cur] moved forward over [w]. *)
Definition moved (cur cur' : cursor) (w : list ascii) : Prop :=
  rest cur = w ++ rest cur' /\ pos cur' = pos cur + length w.

(** What every successful run of a pattern guarantees of the continuation it
    ends in. *)
Definition run_ok {R} (r : regex) (cur : cursor) (g : groups) (k : cont (R := R)) (x : R) : Prop :=
  exists cur' g' w,
    k cur' g' = Some x /\ moved cur cur' w /\
    (nullable r = false -> w <> []) /\
    (has_group r = false -> g' = g).

Lemma moved_refl cur : moved cur cur [].
Proof. split; simpl; [reflexivity | lia]. Qed.

Lemma moved_trans a b c w1 w2 : moved a b w1 -> moved b c w2 -> moved a c (w1 ++ w2).
Proof.
  intros [H1 H2] [H3 H4]. split.
  - rewrite H1, H3, app_assoc. reflexivity.
  - rewrite H4, H2, length_app. lia.
Qed.

Lemma moved_after x cur r : rest cur = x :: r -> moved cur (after x cur r) [x].
Proof. intros H. split; simpl; [exact H | lia]. Qed.

Lemma moved_length cur cur' w : moved cur cur' w -> length (rest cur) = length w + length (rest cur').
Proof. intros [H _]. rewrite H, length_app. reflexivity. Qed.

Lemma star_loop_inv {R} (a : regex) :
  (forall cur g (k : cont (R := R)) x, run a cur g k = Some x -> run_ok a cur g k x) ->
  forall n cur g (k : cont (R := R)) x,
    star_loop (run a) n cur g k = Some x -> run_ok (Star a) cur g k x.
Proof.
  intros IHa. induction n as [|n IHn]; intros cur g k x H; simpl in H.
  - exists cur, g, []. split; [exact H |]. split; [apply moved_refl |].
    split; [discriminate | reflexivity].
  - destruct (run a cur g _) as [y|] eqn:E.
    + injection H as ->. apply IHa in E as (cur1 & g1 & w1 & Hk & Hm & _ & Hg).
      destruct (pos cur <? pos cur1); [| discriminate].
      apply IHn in Hk as (cur2 & g2 & w2 & Hk & Hm2 & _ & Hg2).
      exists cur2, g2, (w1 ++ w2). split; [exact Hk |].
      split; [eapply moved_trans; eassumption |].
      split; [discriminate |]. simpl. intros Hh. rewrite Hg2, Hg by assumption. reflexivity.
    + exists cur, g, []. split; [exact H |]. split; [apply moved_refl |].
      split; [discriminate | reflexivity].
Qed.

Lemma run_inv {R} (r : regex) :
  forall cur g (k : cont (R := R)) x, run r cur g k = Some x -> run_ok r cur g k x.
Proof.
  induction r as [|c|p|a IHa b IHb|a IHa b IHb|a IHa|n a IHa| |]; intros cur g k x H; simpl in H.
  - exists cur, g, []. split; [exact H |]. split; [apply moved_refl |].
    split; [discriminate | reflexivity].
  - destruct (rest cur) as [|y r'] eqn:E; [discriminate |].
    destruct (eq_ci c y); [| discriminate].
    exists (after y cur r'), g, [y]. split; [exact H |].
    split; [now apply moved_after |]. split; [discriminate | reflexivity].
  - destruct (rest cur) as [|y r'] eqn:E; [discriminate |].
    destruct (p y); [| discriminate].
    exists (after y cur r'), g, [y]. split; [exact H |].
    split; [now apply moved_after |]. split; [discriminate | reflexivity].
  - apply IHa in H as (cur1 & g1 & w1 & Hk & Hm1 & Hn1 & Hg1).
    apply IHb in Hk as (cur2 & g2 & w2 & Hk & Hm2 & Hn2 & Hg2).
    exists cur2, g2, (w1 ++ w2). split; [exact Hk |].
    split; [eapply moved_trans; eassumption |]. simpl. split.
    + intros Hn Hw. apply app_eq_nil in Hw as [-> ->].
      apply andb_false_iff in Hn as [Hn | Hn]; [now apply Hn1 | now apply Hn2].
    + intros Hh. apply orb_false_iff in Hh as [Ha Hb]. rewrite Hg2, Hg1 by assumption.
      reflexivity.
  - destruct (run a cur g k) as [y|] eqn:E.
    + injection H as ->. apply IHa in E as (cur1 & g1 & w1 & Hk & Hm1 & Hn1 & Hg1).
      exists cur1, g1, w1. split; [exact Hk |]. split; [exact Hm1 |]. simpl. split.
      * intros Hn. apply orb_false_iff in Hn as [Hn _]. now apply Hn1.
      * intros Hh. apply orb_false_iff in Hh as [Hh _]. now apply Hg1.
    + apply IHb in H as (cur1 & g1 & w1 & Hk & Hm1 & Hn1 & Hg1).
      exists cur1, g1, w1. split; [exact Hk |]. split; [exact Hm1 |]. simpl. split.
      * intros Hn. apply orb_false_iff in Hn as [_ Hn]. now apply Hn1.
      * intros Hh. apply orb_false_iff in Hh as [_ Hh]. now apply Hg1.
  - eapply star_loop_inv; eassumption.
  - apply IHa in H as (cur1 & g1 & w1 & Hk & Hm1 & Hn1 & _).
    exists cur1, ((n, (pos cur, pos cur1)) :: g1), w1. split; [exact Hk |].
    split; [exact Hm1 |]. split; [exact Hn1 | discriminate].
  - destruct (pos cur =? 0); [| discriminate].
    exists cur, g, []. split; [exact H |]. split; [apply moved_refl |].
    split; [discriminate | reflexivity].
  - destruct (xorb _ _); [| discriminate].
    exists cur, g, []. split; [exact H |]. split; [apply moved_refl |].
    split; [discriminate | reflexivity].
Qed.

(** A match ends where the cursor has moved over the matched text; a pattern
    that is not nullable matches at least one character. *)
Lemma rexmatch_inv r cur cur' g :
  rexmatch r cur = Some (cur', g) ->
  exists w, moved cur cur' w /\ (nullable r = false -> w <> []).
Proof.
  intros H. apply run_inv in H as (c & g' & w & Hk & Hm & Hn & _).
  injection Hk as -> ->. eauto.
Qed.

(** The groups of a pattern that is one group around a group-free body. *)
Lemma rexmatch_group1 a cur cur' g :
  has_group a = false ->
  rexmatch (Group 1 a) cur = Some (cur', g) ->
  g = [(1, (pos cur, pos cur'))].
Proof.
  intros Ha H. unfold rexmatch in H. simpl in H.
  apply run_inv in H as (c & g' & w & Hk & _ & _ & Hg).
  injection Hk as -> <-. rewrite Hg by assumption. reflexivity.
Qed.

(** The groups of [^(a)(b)] for group-free [a] and [b]: two adjacent spans
    that make up the match. *)
Lemma rexmatch_two_groups a b cur cur' g :
  has_group a = false -> has_group b = false ->
  rexmatch (Seq Bol (Seq (Group 1 a) (Group 2 b))) cur = Some (cur', g) ->
  exists mid w1 w2,
    g = [(2, (pos mid, pos cur')); (1, (pos cur, pos mid))] /\
    moved cur mid w1 /\ moved mid cur' w2.
Proof.
  intros Ha Hb H. unfold rexmatch in H. simpl in H.
  destruct (pos cur =? 0); [| discriminate].
  apply run_inv in H as (mid & g1 & w1 & Hk & Hm1 & _ & Hg1).
  rewrite Hg1 in Hk by assumption.
  apply run_inv in Hk as (c & g2 & w2 & Hk & Hm2 & _ & Hg2).
  injection Hk as -> <-. rewrite Hg2 by assumption.
  exists mid, w1, w2. auto.
Qed.

End ReFacts.

(** ** The engine yields tokens that tile the text, and ends *)

Module EngineFacts.
Import Re Pygments ReFacts.

Lemma tiles_app start w1 w2 toks1 toks2 :
  tiles start w1 toks1 -> tiles (start + length w1) w2 toks2 ->
  tiles start (w1 ++ w2) (toks1 ++ toks2).
Proof.
  induction 1 as [start | start w w' t toks Hi Hv Hw Ht IH]; intros H2; simpl.
  - simpl in H2. replace (start + 0) with start in H2 by lia. exact H2.
  - rewrite <- app_assoc. constructor; try assumption.
    apply IH. rewrite length_app, Nat.add_assoc in H2. exact H2.
Qed.

Lemma tiles_one start k w : w <> [] -> tiles start w [emit start k w].
Proof.
  intros Hw. rewrite <- (app_nil_r w) at 1.
  constructor; [reflexivity | reflexivity | exact Hw | constructor].
Qed.

Lemma tiles_shift a start w toks :
  tiles start w toks -> tiles (a + start) w (map (shift a) toks).
Proof.
  induction 1 as [start | start w w' t toks Hi Hv Hw Ht IH]; simpl; constructor;
    try assumption.
  - simpl. now rewrite Hi.
  - now rewrite <- Nat.add_assoc.
Qed.

Lemma slice_moved cur cur' w : moved cur cur' w -> slice cur (pos cur) (pos cur') = w.
Proof.
  intros [Hr Hp]. unfold slice. rewrite Hp, Nat.sub_diag, Hr, drop_0.
  replace (pos cur + length w - pos cur) with (length w) by lia.
  now rewrite take_app_length.
Qed.

Lemma slice_second cur mid cur' w1 w2 :
  moved cur mid w1 -> moved mid cur' w2 -> slice cur (pos mid) (pos cur') = w2.
Proof.
  intros [Hr1 Hp1] [Hr2 Hp2]. unfold slice. rewrite Hp2, Hp1, Hr1, Hr2.
  replace (pos cur + length w1 + length w2 - (pos cur + length w1)) with (length w2) by lia.
  replace (pos cur + length w1 - pos cur) with (length w1) by lia.
  rewrite drop_app_length. now rewrite take_app_length.
Qed.

Section Engine.
Context {St : Type} (tokendefs : St -> list (Rule (St := St))) (root : St).

(** The tokens of a rule tile its match, whenever it matches. *)
Definition rule_tiles (r : Rule (St := St)) : Prop :=
  forall cur cur' g,
    rexmatch (fst (fst r)) cur = Some (cur', g) ->
    exists toks, run_action (snd (fst r)) cur cur' g = Some toks /\
                 tiles (pos cur) (slice cur (pos cur) (pos cur')) toks.

Lemma token_rule_tiles rx k ops : nullable rx = false -> rule_tiles (rx, AToken k, ops).
Proof.
  intros Hn cur cur' g H. simpl in *. eexists. split; [reflexivity |].
  apply rexmatch_inv in H as (w & Hm & Hw). rewrite (slice_moved _ _ _ Hm).
  apply tiles_one. auto.
Qed.

Lemma first_match_inv (rules : list (Rule (St := St))) cur r cur' g :
  first_match rules cur = Some (r, cur', g) ->
  In r rules /\ rexmatch (fst (fst r)) cur = Some (cur', g).
Proof.
  induction rules as [|r0 rules IH]; simpl; [discriminate |].
  destruct (rexmatch (fst (fst r0)) cur) as [[c g0]|] eqn:E.
  - intros H. injection H as <- <- <-. auto.
  - intros H. apply IH in H as [H1 H2]. auto.
Qed.

Hypothesis all_tile : forall s, Forall rule_tiles (tokendefs s).

(** One round yields tokens that tile what it moves over. *)
Lemma step_tiles cur stack toks cur' stack' :
  step tokendefs root cur stack = Next toks cur' stack' ->
  exists w, moved cur cur' w /\ tiles (pos cur) w toks.
Proof.
  unfold step. destruct (first_match _ cur) as [[[[[rx act] ops] c] g]|] eqn:E.
  - apply first_match_inv in E as [Hin Hm]. simpl in Hm.
    pose proof (all_tile (top root stack)) as Hall. rewrite List.Forall_forall in Hall.
    destruct (Hall _ Hin cur c g Hm) as (toks0 & Hact & Ht). simpl in Hact.
    rewrite Hact. intros H. injection H as <- <- <-.
    apply rexmatch_inv in Hm as (w & Hmv & _). exists w. split; [exact Hmv |].
    now rewrite (slice_moved _ _ _ Hmv) in Ht.
  - destruct (rest cur) as [|c r] eqn:Er; [discriminate |].
    destruct (is_newline c); intros H; injection H as <- <- <-;
      (exists [c]; split; [now apply moved_after | now apply tiles_one]).
Qed.

(** Whatever the scan returns tiles the text from the cursor on. *)
Lemma loop_tiles fuel : forall cur stack toks,
  loop tokendefs root fuel cur stack = Some toks -> tiles (pos cur) (rest cur) toks.
Proof.
  induction fuel as [|fuel IH]; intros cur stack toks H; simpl in H; [discriminate |].
  destruct (step tokendefs root cur stack) as [|toks0 cur' stack'|] eqn:E; [| | discriminate].
  - injection H as <-. unfold step in E.
    destruct (first_match _ cur) as [[[[[rx act] ops] c] g]|]; [destruct (run_action _ _ _ _); discriminate |].
    destruct (rest cur) as [|c r]; [constructor |].
    destruct (is_newline c); discriminate.
  - destruct (loop tokendefs root fuel cur' stack') as [more|] eqn:El; [| discriminate].
    simpl in H. injection H as <-.
    apply step_tiles in E as (w & [Hr Hp] & Ht). rewrite Hr.
    apply tiles_app; [exact Ht |]. rewrite <- Hp. eapply IH; eassumption.
Qed.

(** The scan ends: every round either consumes, or lowers the weight of the
    state on top, which is at most one. *)
Variable Inv : list St -> Prop.
Variable weight : St -> nat.
Hypothesis weight_le : forall s, weight s <= 1.
Hypothesis Inv_root : Inv [root].
Hypothesis rules_progress : forall stack rx act ops,
  Inv stack -> In (rx, act, ops) (tokendefs (top root stack)) ->
  Inv (new_stack stack ops) /\
  (nullable rx = false \/ weight (top root (new_stack stack ops)) < weight (top root stack)).

Lemma loop_total fuel : forall cur stack,
  Inv stack ->
  2 * length (rest cur) + weight (top root stack) < fuel ->
  exists toks, loop tokendefs root fuel cur stack = Some toks.
Proof.
  induction fuel as [|fuel IH]; intros cur stack HI Hf; [lia |]. simpl.
  unfold step. destruct (first_match _ cur) as [[[[[rx act] ops] c] g]|] eqn:E.
  - apply first_match_inv in E as [Hin Hm]. simpl in Hm.
    pose proof (all_tile (top root stack)) as Hall. rewrite List.Forall_forall in Hall.
    destruct (Hall _ Hin cur c g Hm) as (toks0 & Hact & _). simpl in Hact. rewrite Hact.
    destruct (rules_progress stack rx act ops HI Hin) as [HI' Hprog].
    apply rexmatch_inv in Hm as (w & Hmv & Hw).
    pose proof (moved_length _ _ _ Hmv) as Hlen.
    destruct (IH c (new_stack stack ops) HI') as [more Hmore].
    + destruct Hprog as [Hn | Hlt].
      * specialize (Hw Hn). destruct w; [congruence |]. simpl in Hlen.
        pose proof (weight_le (top root (new_stack stack ops))) as Hle.
        clear - Hf Hlen Hle. lia.
      * clear - Hf Hlen Hlt. lia.
    + rewrite Hmore. simpl. eauto.
  - destruct (rest cur) as [|c r] eqn:Er; [eauto |].
    cbn [length] in Hf.
    destruct (is_newline c).
    + destruct (IH (after c cur r) [root] Inv_root) as [more Hmore].
      * cbn [rest after top hd]. pose proof (weight_le root) as Hle.
        clear - Hf Hle. lia.
      * rewrite Hmore. simpl. eauto.
    + destruct (IH (after c cur r) stack HI) as [more Hmore].
      * cbn [rest after]. clear - Hf. lia.
      * rewrite Hmore. simpl. eauto.
Qed.

(** The scan of a whole text returns, and its tokens tile the text. *)
Lemma get_tokens_unprocessed_total text :
  exists toks, get_tokens_unprocessed tokendefs root text = Some toks /\ tiles 0 text toks.
Proof.
  unfold get_tokens_unprocessed.
  destruct (loop_total (2 * length text + 2) (start_of text) [root] Inv_root) as [toks H].
  - simpl. pose proof (weight_le root). lia.
  - exists toks. split; [exact H |]. now apply loop_tiles in H.
Qed.

End Engine.

End EngineFacts.

(** ** The two lexers return, and their tokens tile the text *)

Module LexerFacts.
Import Re Pygments ReFacts EngineFacts.

(** The stacks the main lexer can be in. *)
Definition peek_stacks : list (list PeekLexer.State) :=
  [ [PeekLexer.root]; [PeekLexer.path; PeekLexer.root]; [PeekLexer.payload; PeekLexer.root];
    [PeekLexer.command; PeekLexer.root]; [PeekLexer.args; PeekLexer.root] ].

Definition peek_weight (s : PeekLexer.State) : nat :=
  match s with PeekLexer.payload => 1 | _ => 0 end.

Lemma run_groups_two cur g ga1 ga2 :
  run_groups cur g 0 [ga1; ga2] =
  match run_group cur g 0 ga1, run_group cur g 1 ga2 with
  | Some a, Some b => Some (a ++ b)
  | _, _ => None
  end.
Proof.
  simpl. destruct (run_group cur g 0 ga1), (run_group cur g 1 ga2); try reflexivity.
  now rewrite app_nil_r.
Qed.

(** A rule [^(a)(b)] with [bygroups(k1, k2)]. *)
Lemma two_group_rule_tiles {St} a b k1 k2 (ops : list (option St)) :
  has_group a = false -> has_group b = false ->
  rule_tiles (Seq Bol (Seq (Group 1 a) (Group 2 b)), AByGroups [GToken k1; GToken k2], ops).
Proof.
  intros Ha Hb cur cur' g H. cbn [fst snd] in *.
  pose proof H as Hall. apply rexmatch_inv in Hall as (w & Hw & _).
  apply rexmatch_two_groups in H as (mid & w1 & w2 & -> & Hm1 & Hm2); try assumption.
  cbn [run_action]. rewrite run_groups_two. unfold run_group. cbn [group_span Nat.eqb].
  rewrite (slice_moved _ _ _ Hm1), (slice_second _ _ _ _ _ Hm1 Hm2), (slice_moved _ _ _ Hw).
  assert (w = w1 ++ w2) as ->.
  { pose proof (moved_trans _ _ _ _ _ Hm1 Hm2) as [Hr _]. destruct Hw as [Hr' Hp'].
    destruct Hm1 as [_ Hp1], Hm2 as [_ Hp2].
    rewrite Hr in Hr'. apply (f_equal (take (length (w1 ++ w2)))) in Hr'.
    rewrite take_app_length in Hr'.
    assert (length w = length (w1 ++ w2)) as Hl by (rewrite length_app; lia).
    rewrite <- Hl, take_app_length in Hr'. now symmetry. }
  destruct Hm1 as [_ Hp1].
  destruct w1 as [|x1 w1], w2 as [|x2 w2]; eexists; (split; [reflexivity |]);
    rewrite ?Hp1; simpl; rewrite ?Nat.add_0_r.
  - constructor.
  - apply tiles_one. discriminate.
  - rewrite app_nil_r. apply tiles_one. discriminate.
  - change (x1 :: w1 ++ x2 :: w2) with ((x1 :: w1) ++ (x2 :: w2)).
    apply (tiles_app _ _ _ [_] [_]); [apply tiles_one; discriminate |].
    apply tiles_one. discriminate.
Qed.

(** A rule [(a)] with [bygroups(using(lx))] for a lexer [lx] that tiles. *)
Lemma using_rule_tiles {St} a lx (ops : list (option St)) :
  has_group a = false ->
  (forall text, exists toks, lx text = Some toks /\ tiles 0 text toks) ->
  rule_tiles (Group 1 a, AByGroups [GUsing lx], ops).
Proof.
  intros Ha Hlx cur cur' g H. cbn [fst snd] in *.
  pose proof H as Hall. apply rexmatch_inv in Hall as (w & Hw & _).
  apply rexmatch_group1 in H as ->; [| assumption].
  cbn [run_action run_groups run_group group_span Nat.eqb].
  rewrite (slice_moved _ _ _ Hw).
  destruct (Hlx w) as (toks & -> & Ht). simpl. eexists. split; [reflexivity |].
  rewrite app_nil_r. apply (tiles_shift (pos cur)) in Ht.
  now rewrite Nat.add_0_r in Ht.
Qed.

Lemma payload_rules_tile s : Forall rule_tiles (PayloadLexer.tokens s).
Proof.
  destruct s; cbn;
    repeat (apply Forall_cons; split; [apply token_rule_tiles; reflexivity |]);
    apply Forall_nil_2.
Qed.

Lemma payload_rules_consume s rx act ops :
  In (rx, act, ops) (PayloadLexer.tokens s) -> nullable rx = false.
Proof.
  assert (forallb (fun r => negb (nullable (fst (fst r)))) (PayloadLexer.tokens s) = true) as H
    by (destruct s; reflexivity).
  rewrite forallb_forall in H. intros Hin. apply H in Hin. simpl in Hin.
  now destruct (nullable rx).
Qed.

(** The nested lexer returns on every text, with tokens that tile it. *)
Lemma payload_total text :
  exists toks, PayloadLexer.get_tokens_unprocessed text = Some toks /\ tiles 0 text toks.
Proof.
  apply (get_tokens_unprocessed_total PayloadLexer.tokens PayloadLexer.root
           payload_rules_tile (fun _ => True) (fun _ => 0)); auto.
  intros stack rx act ops _ Hin. split; [exact I |]. left.
  eapply payload_rules_consume; eassumption.
Qed.

Lemma peek_rules_tile s : Forall rule_tiles (PeekLexer.tokens s).
Proof.
  destruct s; cbn;
    repeat (apply Forall_cons; split;
            [first [ apply token_rule_tiles; reflexivity
                   | apply two_group_rule_tiles; reflexivity
                   | apply using_rule_tiles; [reflexivity | exact payload_total] ] |]);
    apply Forall_nil_2.
Qed.

Ltac each_member H :=
  cbn in H;
  repeat match type of H with
         | _ \/ _ => destruct H as [H | H]
         | False => destruct H
         end.

Lemma peek_rules_progress stack rx act ops :
  In stack peek_stacks ->
  In (rx, act, ops) (PeekLexer.tokens (top PeekLexer.root stack)) ->
  In (new_stack stack ops) peek_stacks /\
  (nullable rx = false \/
   peek_weight (top PeekLexer.root (new_stack stack ops)) < peek_weight (top PeekLexer.root stack)).
Proof.
  intros Hs Hin. each_member Hs; subst stack; each_member Hin;
    injection Hin as <- <- <-;
    (split; [cbn; auto 10 | cbn; first [left; reflexivity | right; lia]]).
Qed.

(** The main lexer returns on every text, with tokens that tile it. *)
Lemma peek_total text :
  exists toks, PeekLexer.get_tokens_unprocessed text = Some toks /\ tiles 0 text toks.
Proof.
  apply (get_tokens_unprocessed_total PeekLexer.tokens PeekLexer.root
           peek_rules_tile (fun stack => In stack peek_stacks) peek_weight).
  - intros []; simpl; lia.
  - now left.
  - intros stack rx act ops. apply peek_rules_progress.
Qed.

End LexerFacts.

(** ** What tiling gives: order, no overlap, full cover *)

Module TilesFacts.

Lemma length_string_of_list w : String.length (string_of_list_ascii w) = length w.
Proof. induction w as [|c w IH]; simpl; [reflexivity | now rewrite IH]. Qed.

Lemma tiles_bounds start w toks :
  tiles start w toks ->
  forall i t, toks !! i = Some t ->
    start <= index t /\ index t < token_end t /\ token_end t <= start + length w.
Proof.
  induction 1 as [start | start w w' t toks Hi Hv Hw Ht IH]; intros i u Hu.
  - destruct i; discriminate.
  - assert (0 < length w) by (destruct w; [congruence | simpl; lia]).
    rewrite length_app. destruct i as [|i]; simpl in Hu.
    + injection Hu as <-. unfold token_end. rewrite Hv, length_string_of_list. lia.
    + apply IH in Hu. lia.
Qed.

Lemma tiles_ordered start w toks :
  tiles start w toks ->
  forall i j ti tj, i < j -> toks !! i = Some ti -> toks !! j = Some tj ->
    token_end ti <= index tj.
Proof.
  induction 1 as [start | start w w' t toks Hi Hv Hw Ht IH]; intros i j ti tj Hij Hti Htj.
  - destruct i; discriminate.
  - destruct j as [|j]; [lia |]. simpl in Htj. destruct i as [|i]; simpl in Hti.
    + injection Hti as <-. apply (tiles_bounds _ _ _ Ht) in Htj.
      unfold token_end. rewrite Hv, length_string_of_list. lia.
    + apply (IH i j); [lia | assumption | assumption].
Qed.

Lemma tiles_cover start w toks :
  tiles start w toks ->
  forall p, start <= p < start + length w ->
    exists i t, toks !! i = Some t /\ covers t p.
Proof.
  induction 1 as [start | start w w' t toks Hi Hv Hw Ht IH]; intros p Hp.
  - simpl in Hp. lia.
  - rewrite length_app in Hp. destruct (Nat.lt_ge_cases p (start + length w)) as [Hlt | Hge].
    + exists 0, t. split; [reflexivity |]. unfold covers, token_end.
      rewrite Hv, length_string_of_list. lia.
    + destruct (IH p) as (i & u & Hu & Hc); [lia |]. exists (S i), u. auto.
Qed.

Lemma tiles_spell start w toks :
  tiles start w toks -> w = flat_map (fun t => list_ascii_of_string (value t)) toks.
Proof.
  induction 1 as [start | start w w' t toks Hi Hv Hw Ht IH]; simpl; [reflexivity |].
  now rewrite Hv, list_ascii_of_string_of_list_ascii, <- IH.
Qed.

Lemma tiles_empty start toks : tiles start [] toks -> toks = [].
Proof.
  intros H. remember [] as w eqn:E in H.
  destruct H as [start | start w w' t toks Hi Hv Hw Ht]; [reflexivity |].
  apply app_eq_nil in E as [-> _]. congruence.
Qed.

Lemma tiles_partitions w toks : tiles 0 w toks -> partitions w toks.
Proof.
  intros Ht. repeat split.
  - pose proof (tiles_bounds _ _ _ Ht _ _ H0). pose proof (tiles_ordered _ _ _ Ht _ _ _ _ H H0 H1).
    lia.
  - eapply tiles_ordered; eassumption.
  - apply (tiles_bounds _ _ _ Ht) in H. lia.
  - apply (tiles_bounds _ _ _ Ht) in H. simpl in H. lia.
  - intros p Hp. destruct (tiles_cover _ _ _ Ht p) as (i & t & Hi & Hc); [simpl; lia |].
    exists i, t. split; [exact Hi |]. split; [exact Hc |].
    intros j u Hj Hu. unfold covers in *.
    pose proof (tiles_bounds _ _ _ Ht _ _ Hi). pose proof (tiles_bounds _ _ _ Ht _ _ Hj).
    destruct (Nat.lt_trichotomy j i) as [Hlt | [Heq | Hgt]]; [| exact Heq |].
    + pose proof (tiles_ordered _ _ _ Ht _ _ _ _ Hlt Hj Hi). lia.
    + pose proof (tiles_ordered _ _ _ Ht _ _ _ _ Hgt Hi Hj). lia.
  - now apply tiles_spell in Ht.
Qed.

End TilesFacts.

(** ** The rounds of the main lexer *)

Module PeekLexerFacts.
Import Re Pygments ReFacts EngineFacts LexerFacts TilesFacts.

(** The cursor at the end of the text. *)
Fixpoint to_end (p : option ascii) (n : nat) (l : list ascii) : cursor :=
  match l with
  | [] => mkCursor p n []
  | x :: r => to_end (Some x) (S n) r
  end.

Lemma rest_to_end l : forall p n, rest (to_end p n l) = [].
Proof. induction l as [|x l IH]; intros p n; simpl; auto. Qed.

(** Greedy [.*] under DOTALL runs to the end of the text when what follows
    it accepts that. *)
Lemma star_dot_all {R} l : forall p n g (k : cont (R := R)) y,
  k (to_end p n l) g = Some y ->
  star_loop (run (Cls dot_all)) (length l) (mkCursor p n l) g k = Some y.
Proof.
  induction l as [|x l IH]; intros p n g k y Hk; simpl; [exact Hk |].
  unfold after. simpl. rewrite (proj2 (Nat.ltb_lt n (S n))) by lia.
  pose proof (IH (Some x) (S n) g k y Hk) as H. simpl in H. unfold after in H.
  now rewrite H.
Qed.

Lemma payload_rule_match cur :
  rexmatch (Group 1 (Star (Cls dot_all))) cur =
  Some (to_end (prev cur) (pos cur) (rest cur),
        [(1, (pos cur, pos (to_end (prev cur) (pos cur) (rest cur))))]).
Proof.
  destruct cur as [p n l]. unfold rexmatch. simpl. now apply star_dot_all.
Qed.

(** A total continuation makes greedy repetition total. *)
Lemma star_loop_some {R} body n : forall cur g (k : cont (R := R)),
  (forall c g', is_Some (k c g')) -> is_Some (star_loop body n cur g k).
Proof.
  destruct n as [|n]; intros cur g k Hk; simpl; [apply Hk |].
  destruct (body cur g _); [eauto | apply Hk].
Qed.

Lemma plus_cls_match p cur c r :
  rest cur = c :: r -> p c = true -> is_Some (rexmatch (Plus (Cls p)) cur).
Proof.
  intros Hr Hp. unfold rexmatch, Plus. simpl. rewrite Hr, Hp.
  apply star_loop_some. eauto.
Qed.

Lemma first_match_some {St} (rules : list (Rule (St := St))) cur r :
  In r rules -> is_Some (rexmatch (fst (fst r)) cur) -> is_Some (first_match rules cur).
Proof.
  induction rules as [|r0 rules IH]; intros Hin Hm; [destruct Hin |]. simpl.
  destruct (rexmatch (fst (fst r0)) cur) as [[c g]|] eqn:E; [eauto |].
  destruct Hin as [-> | Hin]; [rewrite E in Hm; now destruct Hm | auto].
Qed.

(** Whitespace is matched in every state of the main lexer. *)
Lemma peek_space_matches stack cur c r :
  In stack peek_stacks -> rest cur = c :: r -> is_space c = true ->
  is_Some (first_match (PeekLexer.tokens (top PeekLexer.root stack)) cur).
Proof.
  intros Hs Hr Hc. each_member Hs; subst stack; cbn [top hd PeekLexer.tokens].
  - eapply (first_match_some _ _ (PeekLexer.rule (Plus (Cls is_space)) Whitespace));
      [right; left; reflexivity | eapply plus_cls_match; eassumption].
  - eapply (first_match_some _ _ (PeekLexer.rule (Plus (Cls is_space)) Whitespace));
      [left; reflexivity | eapply plus_cls_match; eassumption].
  - eapply first_match_some; [left; reflexivity |]. cbn [fst]. rewrite payload_rule_match. eauto.
  - eapply (first_match_some _ _ (PeekLexer.rule (Plus (Cls is_space)) Whitespace));
      [right; left; reflexivity | eapply plus_cls_match; eassumption].
  - eapply (first_match_some _ _ (PeekLexer.rule (Plus (Cls is_space)) Whitespace));
      [right; right; left; reflexivity | eapply plus_cls_match; eassumption].
Qed.

Lemma newline_is_space c : is_newline c = true -> is_space c = true.
Proof.
  unfold is_newline, is_space, between. intros H. apply Nat.eqb_eq in H. now rewrite H.
Qed.

(** When no rule matches, the round is one Error token for one character. *)
Lemma peek_no_match cur stack c r :
  In stack peek_stacks -> rest cur = c :: r ->
  first_match (PeekLexer.tokens (top PeekLexer.root stack)) cur = None ->
  step PeekLexer.tokens PeekLexer.root cur stack
  = Next [mkToken (pos cur) Error (String c EmptyString)] (after c cur r) stack.
Proof.
  intros Hs Hr Hn. unfold step. rewrite Hn, Hr.
  destruct (is_newline c) eqn:Hc; [| reflexivity].
  apply newline_is_space in Hc.
  destruct (peek_space_matches stack cur c r Hs Hr Hc) as [x Hx]. congruence.
Qed.

(** A round consumes, but for the payload rule at the end of the text. *)
Lemma peek_step_advances cur stack toks cur' stack' :
  In stack peek_stacks ->
  step PeekLexer.tokens PeekLexer.root cur stack = Next toks cur' stack' ->
  pos cur < pos cur' \/
  (top PeekLexer.root stack = PeekLexer.payload /\ rest cur = [] /\
   pos cur' = pos cur /\ toks = [] /\ stack' = [PeekLexer.root]).
Proof.
  intros Hs Hstep.
  destruct (step_tiles _ _ peek_rules_tile _ _ _ _ _ Hstep) as (w & Hmv & Ht).
  destruct w as [|x w]; [| left; destruct Hmv as [_ Hp]; simpl in Hp; lia].
  right. unfold step in Hstep.
  destruct (first_match _ cur) as [[[[[rx act] ops] c] g]|] eqn:E.
  - apply first_match_inv in E as [Hin Hm]. cbn [fst] in Hm.
    destruct (peek_rules_progress _ _ _ _ Hs Hin) as [_ [Hnn | Hlt]].
    + apply rexmatch_inv in Hm as (w & Hmv' & Hw). specialize (Hw Hnn).
      destruct (run_action act cur c g); [| discriminate]. injection Hstep as <- <- <-.
      destruct Hmv as [_ Hp], Hmv' as [_ Hp'].
      destruct w; [congruence | simpl in Hp, Hp'; exfalso; lia].
    + each_member Hs; subst stack; cbn in Hlt; try lia.
      each_member Hin. injection Hin as <- <- <-.
      rewrite payload_rule_match in Hm. injection Hm as <- <-.
      destruct (run_action _ cur _ _); [| discriminate]. injection Hstep as <- <- <-.
      destruct Hmv as [Hr Hp]. rewrite rest_to_end in Hr. simpl in Hr, Hp.
      apply tiles_empty in Ht.
      repeat split; [exact Hr | lia | exact Ht].
  - destruct (rest cur) as [|c r] eqn:Er; [discriminate |].
    destruct (is_newline c); injection Hstep as <- <- <-;
      destruct Hmv as [_ Hp]; simpl in Hp; lia.
Qed.

(** The stacks met during a scan are the five of [peek_stacks]. *)
Lemma peek_step_stack cur stack toks cur' stack' :
  In stack peek_stacks ->
  step PeekLexer.tokens PeekLexer.root cur stack = Next toks cur' stack' ->
  In stack' peek_stacks.
Proof.
  intros Hs Hstep. unfold step in Hstep.
  destruct (first_match _ cur) as [[[[[rx act] ops] c] g]|] eqn:E.
  - apply first_match_inv in E as [Hin _].
    destruct (peek_rules_progress _ _ _ _ Hs Hin) as [Hs' _].
    destruct (run_action act cur c g); [| discriminate]. now injection Hstep as <- <- <-.
  - destruct (rest cur) as [|c r]; [discriminate |].
    destruct (is_newline c); injection Hstep as <- <- <-; [now left | exact Hs].
Qed.

Lemma peek_reachable_stack n : forall cur stack cur' stack',
  In stack peek_stacks ->
  state_after PeekLexer.tokens PeekLexer.root n cur stack = Some (cur', stack') ->
  In stack' peek_stacks.
Proof.
  induction n as [|n IH]; intros cur stack cur' stack' Hs H; simpl in H.
  - now injection H as <- <-.
  - destruct (step PeekLexer.tokens PeekLexer.root cur stack) as [|toks c s|] eqn:E;
      try discriminate.
    eapply IH; [eapply peek_step_stack; eassumption | eassumption].
Qed.

End PeekLexerFacts.

(** ** The main lexer: termination and partition *)

(** C4, as the code has it.  On every text the scan of the main lexer
    returns, and its tokens are strictly ordered by start offset, do not
    overlap, and cover every character of the text exactly once (whitespace
    and comments are tokens too).  Every round of the scan consumes at least
    one character, with one exception: the payload rule, reached at the end
    of the text, matches the empty rest, yields nothing and returns to the
    root state, where the scan ends.  When no rule of the main lexer
    matches, the round yields one Error token of length 1 and moves one
    character on. *)
Theorem peek_lexer_scan_spec :
  (forall text, exists toks,
     PeekLexer.get_tokens_unprocessed text = Some toks /\
     partitions text toks) /\
  (forall text n cur stack toks cur' stack',
     Pygments.state_after PeekLexer.tokens PeekLexer.root n
       (Re.start_of text) [PeekLexer.root] = Some (cur, stack) ->
     Pygments.step PeekLexer.tokens PeekLexer.root cur stack
       = Pygments.Next toks cur' stack' ->
     Re.pos cur < Re.pos cur' \/
     (Pygments.top PeekLexer.root stack = PeekLexer.payload /\ Re.rest cur = [] /\
      Re.pos cur' = Re.pos cur /\ toks = [] /\ stack' = [PeekLexer.root])) /\
  (forall text n cur stack c r,
     Pygments.state_after PeekLexer.tokens PeekLexer.root n
       (Re.start_of text) [PeekLexer.root] = Some (cur, stack) ->
     Re.rest cur = c :: r ->
     Pygments.first_match (PeekLexer.tokens (Pygments.top PeekLexer.root stack)) cur = None ->
     Pygments.step PeekLexer.tokens PeekLexer.root cur stack
       = Pygments.Next [mkToken (Re.pos cur) Error (String c EmptyString)]
                       (Re.after c cur r) stack).
Proof.
  split; [| split].
  - intros text. destruct (LexerFacts.peek_total text) as (toks & H & Ht).
    exists toks. split; [exact H | now apply TilesFacts.tiles_partitions].
  - intros text n cur stack toks cur' stack' Hreach Hstep.
    eapply PeekLexerFacts.peek_step_advances; [| exact Hstep].
    eapply PeekLexerFacts.peek_reachable_stack; [| exact Hreach]. now left.
  - intros text n cur stack c r Hreach Hr Hn.
    apply PeekLexerFacts.peek_no_match; [| assumption | assumption].
    eapply PeekLexerFacts.peek_reachable_stack; [| exact Hreach]. now left.
Qed.

(** The round after the keyword of [GET /x] consumes three characters. *)
Lemma peek_lexer_scan_witness :
  0 < 3 \/
  (PeekLexer.root = PeekLexer.payload /\ list_ascii_of_string "GET /x" = [] /\
   3 = 0 /\ [mkToken 0 Keyword "GET"] = [] /\ [PeekLexer.path; PeekLexer.root] = [PeekLexer.root]).
Proof.
  exact (proj1 (proj2 peek_lexer_scan_spec) (list_ascii_of_string "GET /x") 0
           (Re.start_of (list_ascii_of_string "GET /x")) [PeekLexer.root]
           [mkToken 0 Keyword "GET"]
           (Re.mkCursor (Some "T"%char) 3 (list_ascii_of_string " /x"))
           [PeekLexer.path; PeekLexer.root] eq_refl eq_refl).
Defined.

(** On [GET /x] the fourth round is the payload rule at the end of the text:
    it matches, and the scan stands where it stood.  And inside the payload
    an unmatched newline, here in the key of [GET /x {'a] before a line
    break, is no Error token: it is a token of the newline kind, and the
    payload lexer is reset to its root state. *)
Lemma peek_lexer_round_without_advance :
  let text := list_ascii_of_string "GET /x" in
  let at_end := Re.mkCursor (Some "x"%char) 6 [] in
  (Pygments.state_after PeekLexer.tokens PeekLexer.root 3 (Re.start_of text) [PeekLexer.root]
     = Some (at_end, [PeekLexer.payload; PeekLexer.root]) /\
   Pygments.step PeekLexer.tokens PeekLexer.root at_end [PeekLexer.payload; PeekLexer.root]
     = Pygments.Next [] at_end [PeekLexer.root] /\
   ~ Re.pos at_end < Re.pos at_end) /\
  PeekLexer.tokenize ("GET /x {'a" +:+ String "010" EmptyString)
  = [ mkToken 0 Keyword "GET"; mkToken 3 Whitespace " "; mkToken 4 Literal "/x";
      mkToken 6 Whitespace " "; mkToken 7 CurlyLeft "{"; mkToken 8 String_Symbol "'";
      mkToken 9 String_Symbol "a";
      mkToken 10 Pygments.newline_kind (String "010" EmptyString) ] /\
  Pygments.newline_kind <> Error.
Proof.
  split; [split; [vm_compute; reflexivity | split; [vm_compute; reflexivity | simpl; lia]] |].
  split; [vm_compute; reflexivity | discriminate].
Qed.

(** ** The payload lexer: the two quote styles *)

(** C5 on the code.  A double-quoted value ends at its closing quote: the
    brace after it is a CurlyRight.  A single-quoted value does not: the
    state [sqs] is built from the rules of [dqs], the closing single quote
    does not pop it, and the brace after it is lexed as part of the string. *)
Theorem payload_quote_styles :
  PayloadLexer.get_tokens_unprocessed
    (list_ascii_of_string ("{'k':" +:+ dq +:+ "v" +:+ dq +:+ "}"))
  = Some [ mkToken 0 CurlyLeft "{"; mkToken 1 String_Symbol "'"; mkToken 2 String_Symbol "k";
           mkToken 3 String_Symbol "'"; mkToken 4 Colon ":";
           mkToken 5 String_Double dq; mkToken 6 String_Double "v"; mkToken 7 String_Double dq;
           mkToken 8 CurlyRight "}" ] /\
  PayloadLexer.get_tokens_unprocessed (list_ascii_of_string "{'k':'v'}")
  = Some [ mkToken 0 CurlyLeft "{"; mkToken 1 String_Symbol "'"; mkToken 2 String_Symbol "k";
           mkToken 3 String_Symbol "'"; mkToken 4 Colon ":";
           mkToken 5 String_Single "'"; mkToken 6 String_Single "v"; mkToken 7 String_Single "'";
           mkToken 8 String_Single "}" ] /\
  (* after the closing quote: back in the value state, or still in the string *)
  snd <$> Pygments.state_after PayloadLexer.tokens PayloadLexer.root 8
            (Re.start_of (list_ascii_of_string ("{'k':" +:+ dq +:+ "v" +:+ dq +:+ "}")))
            [PayloadLexer.root]
  = Some [PayloadLexer.dict_value; PayloadLexer.root] /\
  snd <$> Pygments.state_after PayloadLexer.tokens PayloadLexer.root 8
            (Re.start_of (list_ascii_of_string "{'k':'v'}")) [PayloadLexer.root]
  = Some [PayloadLexer.sqs_; PayloadLexer.dict_value; PayloadLexer.root].
Proof. repeat split; vm_compute; reflexivity. Qed.

(** ** Locating the token under the cursor *)

Lemma located_test t c :
  (index t <? c) && (c <=? index t + String.length (value t)) = true <-> located t c.
Proof.
  unfold located, token_end. rewrite andb_true_iff, Nat.ltb_lt, Nat.leb_le. tauto.
Qed.

Lemma find_token_some tokens cursor : forall i0 i t,
  find_token i0 tokens cursor = Some (i, t) <->
  exists k, i = i0 + k /\ tokens !! k = Some t /\ located t cursor /\
            forall j u, j < k -> tokens !! j = Some u -> ~ located u cursor.
Proof.
  induction tokens as [|t0 tokens IH]; intros i0 i t; simpl.
  - split; [discriminate | intros (k & _ & H & _); destruct k; discriminate].
  - destruct ((index t0 <? cursor) && (cursor <=? index t0 + String.length (value t0)))
      eqn:E.
    + apply located_test in E. split.
      * intros H. injection H as <- <-. exists 0. rewrite Nat.add_0_r.
        repeat split; try apply E. intros j u Hj. lia.
      * intros (k & -> & Hk & Hl & Hfirst). destruct k as [|k].
        -- injection Hk as <-. now rewrite Nat.add_0_r.
        -- exfalso. apply (Hfirst 0 t0); [lia | reflexivity | exact E].
    + assert (~ located t0 cursor) as Hn by (rewrite <- located_test; congruence).
      rewrite IH. split.
      * intros (k & -> & Hk & Hl & Hfirst). exists (S k).
        split; [lia |]. split; [exact Hk |]. split; [exact Hl |].
        intros [|j] u Hj Hu; [injection Hu as <-; exact Hn |].
        apply (Hfirst j); [lia | exact Hu].
      * intros (k & -> & Hk & Hl & Hfirst). destruct k as [|k].
        -- injection Hk as <-. contradiction.
        -- exists k. split; [lia |]. split; [exact Hk |]. split; [exact Hl |].
           intros j u Hj Hu. apply (Hfirst (S j)); [lia | exact Hu].
Qed.

Lemma find_token_none tokens cursor : forall i0,
  find_token i0 tokens cursor = None <->
  forall j u, tokens !! j = Some u -> ~ located u cursor.
Proof.
  induction tokens as [|t0 tokens IH]; intros i0; simpl.
  - split; [intros _ j u H; destruct j; discriminate | reflexivity].
  - destruct ((index t0 <? cursor) && (cursor <=? index t0 + String.length (value t0)))
      eqn:E.
    + apply located_test in E. split; [discriminate |].
      intros H. exfalso. apply (H 0 t0); [reflexivity | exact E].
    + assert (~ located t0 cursor) as Hn by (rewrite <- located_test; congruence).
      rewrite IH. split.
      * intros H [|j] u Hu; [injection Hu as <-; exact Hn | now apply (H j)].
      * intros H j u Hu. now apply (H (S j)).
Qed.

Lemma last_Some_length {A} (l : list A) x : last l = Some x -> (length l =? 0) = false.
Proof. destruct l; [discriminate | reflexivity]. Qed.

(** On a token of the text before the cursor, the test of line 47 is the
    test of the span with both ends. *)
Lemma within_located t cursor : within cursor t -> (located t cursor <-> in_span t cursor).
Proof. unfold within, located, in_span. lia. Qed.

Lemma string_of_list_app (a b : list ascii) :
  string_of_list_ascii (a ++ b) = string_of_list_ascii a +:+ string_of_list_ascii b.
Proof.
  induction a as [|c a IH]; [reflexivity |]. simpl. rewrite append_cons. now rewrite IH.
Qed.

(** The merge of adjacent Error tokens keeps a tiling. *)
Lemma process_tokens_tiles start w toks :
  tiles start w toks -> tiles start w (process_tokens toks).
Proof.
  induction 1 as [start | start w w' t toks Hi Hv Hw Ht IH]; [constructor |].
  cbn [process_tokens]. destruct (process_tokens toks) as [|u rest'].
  - now constructor.
  - destruct (kind_is (ttype t) Error && kind_is (ttype u) Error); [| now constructor].
    inversion IH as [| s0 wu w'' u0 r0 Hiu Hvu Hwu Hrest]; subst.
    rewrite app_assoc. constructor.
    + reflexivity.
    + cbn [value]. now rewrite Hv, Hvu, string_of_list_app.
    + destruct w; [congruence | discriminate].
    + rewrite length_app, Nat.add_assoc. exact Hrest.
Qed.

Lemma tiles_within w toks : tiles 0 w toks -> Forall (within (length w)) toks.
Proof.
  intros Ht. apply Forall_lookup. intros i t Hi.
  apply (TilesFacts.tiles_bounds _ _ _ Ht) in Hi. unfold within. simpl in Hi. lia.
Qed.

Lemma length_take_le n s : length (list_ascii_of_string (PyStr.take n s)) <= n.
Proof.
  revert s. induction n as [|n IH]; intros [|c s]; simpl; try lia.
  specialize (IH s). lia.
Qed.

Lemma find_token_tiles start w toks :
  tiles start w toks -> w <> [] ->
  forall i0, exists pre t,
    toks = pre ++ [t] /\
    find_token i0 toks (start + length w) = Some (i0 + length pre, t) /\
    token_end t = start + length w.
Proof.
  induction 1 as [start | start w w' t toks Hi Hv Hw Ht IH]; intros Hne i0; [congruence |].
  assert (0 < length w) as Hpos by (destruct w; [congruence | simpl; lia]).
  assert (token_end t = start + length w) as Hend
    by (unfold token_end; rewrite Hi, Hv, TilesFacts.length_string_of_list; reflexivity).
  destruct w' as [|x w'].
  - apply TilesFacts.tiles_empty in Ht. subst toks. exists [], t.
    rewrite app_nil_r, Nat.add_0_r. split; [reflexivity |]. split; [| exact Hend].
    simpl. unfold token_end in Hend. rewrite Hend, Hi.
    rewrite (proj2 (Nat.ltb_lt _ _)) by lia. now rewrite Nat.leb_refl.
  - destruct (IH ltac:(discriminate) (S i0)) as (pre & u & -> & Hfind & Hu).
    exists (t :: pre), u. rewrite length_app. split; [reflexivity |].
    replace (start + (length w + length (x :: w'))) with (start + length w + length (x :: w'))
      by lia.
    split; [| exact Hu]. cbn [find_token app].
    unfold token_end in Hend. rewrite Hend.
    rewrite (proj2 (Nat.leb_gt _ _)) by (simpl; lia). rewrite andb_false_r.
    rewrite Hfind. f_equal. f_equal. simpl. lia.
Qed.

Lemma length_take_string n s :
  n <= String.length s -> length (list_ascii_of_string (PyStr.take n s)) = n.
Proof.
  revert s. induction n as [|n IH]; intros [|c s] H; simpl in *; try reflexivity; try lia.
  rewrite IH by lia. reflexivity.
Qed.

(** The tokens that [get_completions] sees, on the lexer of these
    sources. *)
Lemma source_tokens_tile document_text cursor :
  tiles 0 (list_ascii_of_string (PyStr.take cursor document_text))
        (process_tokens (PeekLexer.tokenize (PyStr.take cursor document_text))).
Proof.
  unfold PeekLexer.tokenize.
  destruct (LexerFacts.peek_total (list_ascii_of_string (PyStr.take cursor document_text)))
    as (toks & -> & Ht).
  now apply process_tokens_tiles.
Qed.



(** ** Option completion *)

Lemma scan_options_skip NAMES post rest :
  Forall (fun u => is_head u = false) post ->
  scan_options NAMES (post ++ rest) = scan_options NAMES rest.
Proof.
  induction 1 as [|u post Hu _ IH]; simpl; [reflexivity |].
  unfold is_head in Hu. apply orb_false_iff in Hu as [Hu Hb].
  apply orb_false_iff in Hu as [Hm Hf]. now rewrite Hm, Hf, Hb.
Qed.

Lemma scan_options_head NAMES t rest :
  is_head t = true -> scan_options NAMES (t :: rest) = head_options NAMES t.
Proof.
  unfold is_head, head_options, kind_is. simpl. intros H.
  destruct (ttype t); try discriminate H; simpl; try reflexivity.
  destruct (dict_get NAMES (value t)) as [[[[|n ns]|]]|]; reflexivity.
Qed.

Lemma last_cons_Some {A} (u : A) l : exists y, last (u :: l) = Some y.
Proof. revert u. induction l as [|v l IH]; intros u; simpl; eauto. Qed.

Lemma last_app_cons {A} (pre : list A) t post :
  last (pre ++ t :: post) = match last post with Some u => Some u | None => Some t end.
Proof.
  induction pre as [|x pre IH]; simpl.
  - destruct post as [|u post]; [reflexivity |].
    destruct (last_cons_Some u post) as [y Hy].
    change (last (t :: u :: post)) with (last (u :: post)). now rewrite Hy.
  - destruct (pre ++ t :: post) eqn:E; [destruct pre; discriminate | exact IH].
Qed.

(** C8, as the code has it.  Option completion over a token list that ends
    in an assignment marker offers nothing; otherwise it scans backward for
    the nearest HttpMethod, FuncName or BlankLine token: an HttpMethod
    offers exactly [conn=] and [runas=], a FuncName offers the declared
    option names of that function with [=] appended, or nothing when the
    function is unknown or declares none, and a BlankLine offers nothing.
    When the located token is an Error, KeyName or Name and the token before
    it is not an HttpMethod, completion drops the trailing token and
    completes options over the rest.  After [myfunc ], with [myfunc] a
    FuncName token of a function with option names [a] and [b], it offers
    [a=] and [b=]; immediately after [myfunc a=] it offers nothing. *)
Theorem complete_options_spec :
  (forall NAMES pre t,
     ttype t = Assign -> _complete_options NAMES (pre ++ [t]) = Return Nothing) /\
  (forall NAMES pre t post,
     is_head t = true ->
     Forall (fun u => is_head u = false) post ->
     (forall u, last post = Some u -> ttype u <> Assign) ->
     _complete_options NAMES (pre ++ t :: post) = head_options NAMES t) /\
  (forall normalize NAMES self document_text cursor i t,
     let tokens := normalize (lexer self (PyStr.take cursor document_text)) in
     find_token 0 tokens cursor = Some (i, t) ->
     ttype t = Error \/ ttype t = KeyName \/ ttype t = Name ->
     (forall prev, 0 < i -> tokens !! (i - 1) = Some prev -> ttype prev <> HttpMethod) ->
     get_completions normalize NAMES self document_text cursor
     = _complete_options NAMES (removelast tokens)) /\
  get_completions process_tokens example_names
    (completer_on [mkToken 0 FuncName "myfunc"] []) "myfunc " 7
  = Return (WordCompleter false ["a="; "b="]) /\
  get_completions process_tokens example_names
    (completer_on [mkToken 0 FuncName "myfunc"; mkToken 7 KeyName "a"; mkToken 8 Assign "="] [])
    "myfunc a=" 9
  = Return Nothing.
Proof.
  split; [| split; [| split; [| split; reflexivity]]].
  - intros NAMES pre t Ht. unfold _complete_options, last_token.
    rewrite last_snoc. unfold kind_is. now rewrite Ht.
  - intros NAMES pre t post Ht Hpost Hlast.
    assert (scan_options NAMES (rev (pre ++ t :: post)) = head_options NAMES t) as Hscan.
    { rewrite rev_app_distr. simpl. rewrite <- !app_assoc. simpl.
      rewrite scan_options_skip; [now apply scan_options_head |].
      rewrite List.Forall_forall in *. intros u Hu. apply Hpost. now apply in_rev. }
    unfold _complete_options, last_token. rewrite last_app_cons.
    destruct (last post) as [u|] eqn:El.
    + unfold kind_is. rewrite bool_decide_eq_false_2 by (now apply Hlast). exact Hscan.
    + unfold kind_is. rewrite bool_decide_eq_false_2; [exact Hscan |].
      intros Ha. unfold is_head, kind_is in Ht. rewrite Ha in Ht. discriminate.
  - intros normalize NAMES self document_text cursor i t tokens Hfind Hkind Hprev.
    pose proof Hfind as Hloc. apply find_token_some in Hloc as (k & Hk & Hlook & _).
    simpl in Hk. subst k.
    unfold get_completions. fold tokens. rewrite Hfind.
    assert ((length tokens =? 0) = false) as ->
      by (destruct tokens; [destruct i; discriminate | reflexivity]).
    assert (kind_is (ttype t) HttpMethod || kind_is (ttype t) FuncName = false) as ->
      by (unfold kind_is; destruct Hkind as [-> | [-> | ->]]; reflexivity).
    assert ((0 <? i) && match tokens !! (i - 1) with
                        | Some prev => kind_is (ttype prev) HttpMethod
                        | None => false
                        end = false) as ->.
    { destruct (Nat.ltb_spec 0 i) as [Hi | Hi]; [| reflexivity]. simpl.
      destruct (tokens !! (i - 1)) as [prev|] eqn:Ep; [| reflexivity].
      unfold kind_is. apply bool_decide_eq_false_2. now apply Hprev. }
    assert (kind_is (ttype t) Error || kind_is (ttype t) KeyName || kind_is (ttype t) Name
            = true) as ->
      by (unfold kind_is; destruct Hkind as [-> | [-> | ->]]; reflexivity).
    reflexivity.
Qed.

(** The three general statements at work on [GET /x conn], with [conn] a
    KeyName after the path. *)
Lemma complete_options_witness :
  _complete_options example_names [mkToken 0 FuncName "myfunc"; mkToken 7 Assign "="]
    = Return Nothing /\
  _complete_options example_names [mkToken 0 HttpMethod "GET"; mkToken 4 Literal "/x"]
    = Return (WordCompleter false ["conn="; "runas="]) /\
  get_completions process_tokens example_names
    (completer_on [mkToken 0 HttpMethod "GET"; mkToken 4 Literal "/x"; mkToken 7 KeyName "conn"] [])
    "GET /x conn" 11
  = _complete_options example_names [mkToken 0 HttpMethod "GET"; mkToken 4 Literal "/x"].
Proof.
  split; [| split].
  - exact (proj1 complete_options_spec example_names
             [mkToken 0 FuncName "myfunc"] (mkToken 7 Assign "=") eq_refl).
  - refine (proj1 (proj2 complete_options_spec) example_names
              [] (mkToken 0 HttpMethod "GET") [mkToken 4 Literal "/x"] eq_refl _ _).
    + repeat constructor.
    + intros u Hu. injection Hu as <-. discriminate.
  - refine (proj1 (proj2 (proj2 complete_options_spec)) process_tokens example_names
              (completer_on [mkToken 0 HttpMethod "GET"; mkToken 4 Literal "/x";
                             mkToken 7 KeyName "conn"] [])
              "GET /x conn" 11 2 (mkToken 7 KeyName "conn") eq_refl _ _).
    + right; left; reflexivity.
    + intros prev _ Hp. injection Hp as <-. discriminate.
Defined.

(** [POST myfunc ] does not offer [a=] and [b=]: on the lexer of these
    sources the cursor is on a whitespace token after the path and nothing is
    offered; on a token stream with the HttpMethod kind and no whitespace
    tokens, the nearest head is the method and its two keys are offered. *)
Lemma post_myfunc_options :
  get_completions process_tokens example_names (source_completer []) "POST myfunc " 12
    = Return Nothing /\
  get_completions process_tokens example_names
    (completer_on [mkToken 0 HttpMethod "POST"; mkToken 5 Literal "myfunc"] []) "POST myfunc " 12
    = Return (WordCompleter false ["conn="; "runas="]) /\
  get_completions process_tokens example_names
    (completer_on [mkToken 0 HttpMethod "POST"; mkToken 4 Whitespace " ";
                   mkToken 5 Literal "myfunc"; mkToken 11 Whitespace " "] []) "POST myfunc " 12
    = Return Nothing.
Proof. repeat split; vm_compute; reflexivity. Qed.

(** ** Results that are no iterable *)

Lemma scan_options_no_head NAMES tokens :
  Forall (fun u => is_head u = false) tokens -> scan_options NAMES tokens = PyNone.
Proof.
  intros H. rewrite <- (app_nil_r tokens). now rewrite scan_options_skip.
Qed.

(** C6 on the code.  For the lone word [foo] the lexer yields three Error
    tokens, merged into one; the token is dropped, the backward scan of
    [_complete_options] runs over no token at all, and the function ends
    without a [return]: [get_completions] returns [None], with or without
    the merge of the Error tokens.  So does option completion over any
    tokens that hold no HttpMethod, FuncName or BlankLine and do not end in
    an assignment marker. *)
Theorem get_completions_lone_word :
  process_tokens (PeekLexer.tokenize "foo") = [mkToken 0 Error "foo"] /\
  (forall NAMES sp,
     get_completions process_tokens NAMES (source_completer sp) "foo" 3 = PyNone) /\
  (forall NAMES sp,
     get_completions (fun tokens => tokens) NAMES (source_completer sp) "foo" 3 = PyNone) /\
  (forall NAMES tokens,
     Forall (fun u => is_head u = false) tokens ->
     (forall u, last tokens = Some u -> ttype u <> Assign) ->
     _complete_options NAMES tokens = PyNone).
Proof.
  split; [vm_compute; reflexivity |].
  split; [intros NAMES sp; vm_compute; reflexivity |].
  split; [intros NAMES sp; vm_compute; reflexivity |].
  intros NAMES tokens Hno Hlast.
  assert (scan_options NAMES (rev tokens) = PyNone) as Hscan.
  { apply scan_options_no_head. rewrite List.Forall_forall in *.
    intros u Hu. apply Hno. now apply in_rev. }
  unfold _complete_options, last_token. destruct (last tokens) as [u|]; [| exact Hscan].
  unfold kind_is. rewrite bool_decide_eq_false_2 by (now apply Hlast). exact Hscan.
Qed.

(** ** No tokens before the cursor *)

(** C10. When the normalized token stream of the text before the cursor is
    empty, [get_completions] returns the empty list, whatever the specs and
    the registry hold. *)
Theorem get_completions_no_tokens :
  forall normalize NAMES self document_text cursor,
    normalize (lexer self (PyStr.take cursor document_text)) = [] ->
    get_completions normalize NAMES self document_text cursor = Return Nothing.
Proof.
  intros normalize NAMES self document_text cursor H. unfold get_completions.
  now rewrite H.
Qed.

(** At offset 0 of [GET /prod/] the text before the cursor is empty. *)
Lemma get_completions_no_tokens_witness :
  get_completions process_tokens example_names
    (source_completer (search_specs (Some ["q"; "size"]))) "GET /prod/" 0
  = Return Nothing.
Proof.
  exact (get_completions_no_tokens process_tokens example_names
           (source_completer (search_specs (Some ["q"; "size"]))) "GET /prod/" 0 eq_refl).
Defined.

(** ** Loading the specs *)

Module SpecLoaderFacts.
Import SpecLoader.

Lemma dict_get_set {V} (d : list (string * V)) k v k' :
  dict_get (dict_set d k v) k' = if String.eqb k k' then Some v else dict_get d k'.
Proof.
  induction d as [|[k0 v0] d IH]; simpl.
  - reflexivity.
  - destruct (String.eqb_spec k0 k) as [-> | Hne]; simpl.
    + destruct (String.eqb k k'); reflexivity.
    + rewrite IH. destruct (String.eqb_spec k0 k') as [-> | Hne'].
      * destruct (String.eqb_spec k k') as [-> | _]; [congruence | reflexivity].
      * reflexivity.
Qed.

Lemma dict_get_app {V} (a b : list (string * V)) k :
  dict_get (a ++ b) k = match dict_get a k with Some v => Some v | None => dict_get b k end.
Proof.
  induction a as [|[k0 v0] a IH]; simpl; [reflexivity |].
  destruct (String.eqb k0 k); [reflexivity | exact IH].
Qed.

(** After an update, a key holds its last value in [other], or what it held. *)
Lemma dict_get_update {V} (other : list (string * V)) : forall d k,
  dict_get (dict_update d other) k =
  match dict_get (rev other) k with Some v => Some v | None => dict_get d k end.
Proof.
  induction other as [|[k0 v0] other IH]; intros d k; simpl; [reflexivity |].
  unfold dict_update in *. simpl. rewrite IH, dict_get_app, dict_get_set. simpl.
  destruct (dict_get (rev other) k); [reflexivity |].
  destruct (String.eqb k0 k); reflexivity.
Qed.

Lemma dict_set_keys {V} (d : list (string * V)) k v :
  NoDup (map fst d) -> NoDup (map fst (dict_set d k v)) /\
  forall x, x ∈ map fst (dict_set d k v) <-> x = k \/ x ∈ map fst d.
Proof.
  induction d as [|[k0 v0] d IH]; simpl; intros Hnd.
  - split; [repeat constructor; apply not_elem_of_nil |].
    intros x. rewrite list_elem_of_singleton. split; [auto | intros [H | H]; [exact H | inversion H]].
  - apply NoDup_cons in Hnd as [Hk0 Hnd]. destruct (IH Hnd) as [IH1 IH2].
    destruct (String.eqb_spec k0 k) as [-> | Hne]; simpl.
    + split; [now apply NoDup_cons |]. intros x. rewrite elem_of_cons. tauto.
    + split.
      * apply NoDup_cons. split; [| exact IH1]. rewrite IH2. intros [H | H]; congruence.
      * intros x. rewrite !elem_of_cons, IH2. tauto.
Qed.

Lemma dict_update_keys {V} (other : list (string * V)) : forall d,
  NoDup (map fst d) -> NoDup (map fst (dict_update d other)).
Proof.
  induction other as [|[k0 v0] other IH]; intros d Hnd; simpl; [exact Hnd |].
  apply IH. now apply dict_set_keys.
Qed.

Lemma load_files_spec files : forall specs,
  NoDup (map fst specs) ->
  (forall f c, In (f, c) files -> String.eqb f "_common.json" = false -> c <> None) ->
  exists merged,
    load_files files specs = Loaded_ok merged /\ NoDup (map fst merged) /\
    forall name,
      dict_get merged name =
      match dict_get (rev (all_entries
               (filter (fun f => Is_true (negb (String.eqb (fst f) "_common.json"))) files))) name with
      | Some v => Some v
      | None => dict_get specs name
      end.
Proof.
  induction files as [|[f c] files IH]; intros specs Hnd Hok; simpl.
  - exists specs. auto.
  - destruct (String.eqb f "_common.json") eqn:Ef.
    + rewrite filter_cons_False by (simpl; rewrite Ef; auto).
      apply IH; [exact Hnd |]. intros f' c' Hin. apply Hok. now right.
    + rewrite filter_cons_True by (simpl; rewrite Ef; exact I).
      destruct c as [mapping|];
        [| exfalso; apply (Hok f None); [now left | exact Ef | reflexivity]].
      destruct (IH (dict_update specs mapping)) as (merged & Hl & Hn & Hget).
      * now apply dict_update_keys.
      * intros f' c' Hin. apply Hok. now right.
      * exists merged. split; [exact Hl |]. split; [exact Hn |].
        intros name. rewrite Hget. unfold all_entries. simpl.
        rewrite rev_app_distr, dict_get_app, dict_get_update.
        fold (all_entries (filter (fun f => Is_true (negb (String.eqb (fst f) "_common.json"))) files)).
        destruct (dict_get (rev (all_entries _)) name); reflexivity.
Qed.

Lemma merged_files_filter (listing : Listing) :
  filter (fun f => Is_true (negb (String.eqb (fst f) "_common.json")))
         (filter (fun f => Is_true (PyStr.endswith ".json" (fst f))) listing)
  = merged_files listing.
Proof.
  unfold merged_files. rewrite list_filter_filter. apply list_filter_iff.
  intros [f c]. simpl. rewrite andb_True. tauto.
Qed.

End SpecLoaderFacts.


(** C9. When the spec directory does not exist, loading logs one warning and
    returns the empty mapping without raising.  When it exists and the spec
    files read, loading returns one flat mapping with one entry per endpoint
    name, merged from every [.json] file but [_common.json]: a name holds
    the value of its last entry among the entries of those files, taken in
    listing order, so the entry of a later file overwrites that of an
    earlier one. *)
Theorem load_rest_api_spec_spec :
  (forall package_root fs,
     fs (SpecLoader.spec_dir_of package_root) = None ->
     SpecLoader.load_rest_api_spec package_root fs
     = (["spec directory does not exist: " +:+ SpecLoader.spec_dir_of package_root],
        SpecLoader.Loaded_ok [])) /\
  (forall package_root fs listing,
     fs (SpecLoader.spec_dir_of package_root) = Some listing ->
     (forall f c, In (f, c) (SpecLoader.merged_files listing) -> c <> None) ->
     exists merged,
       SpecLoader.load_rest_api_spec package_root fs = ([], SpecLoader.Loaded_ok merged) /\
       NoDup (map fst merged) /\
       forall name,
         dict_get merged name =
         dict_get (rev (SpecLoader.all_entries (SpecLoader.merged_files listing))) name) /\
  (forall package_root s1 s2 s3 s4,
     SpecLoader.load_rest_api_spec package_root
       (fun _ => Some [ ("a.json", Some [("search", s1); ("count", s2)]);
                        ("_common.json", Some [("search", s3)]);
                        ("notes.txt", None);
                        ("b.json", Some [("search", s4)]) ])
     = ([], SpecLoader.Loaded_ok [("search", s4); ("count", s2)])).
Proof.
  split; [| split].
  - intros package_root fs H. unfold SpecLoader.load_rest_api_spec. now rewrite H.
  - intros package_root fs listing H Hok. unfold SpecLoader.load_rest_api_spec. rewrite H.
    destruct (SpecLoaderFacts.load_files_spec
                (filter (fun f => Is_true (PyStr.endswith ".json" (fst f))) listing) [])
      as (merged & Hl & Hn & Hget).
    + constructor.
    + intros f c Hin Hc. apply (Hok f c). unfold SpecLoader.merged_files.
      apply list_elem_of_In, list_elem_of_filter in Hin as [Hj Hin].
      apply list_elem_of_In, list_elem_of_filter. split; [| exact Hin].
      simpl in *. rewrite Hc. destruct (PyStr.endswith ".json" f); [exact I | destruct Hj].
    + exists merged. split; [now rewrite Hl |]. split; [exact Hn |].
      intros name. rewrite Hget, SpecLoaderFacts.merged_files_filter.
      destruct (dict_get _ name); reflexivity.
  - intros package_root s1 s2 s3 s4. reflexivity.
Qed.

(** Two files, both with an entry for [search]: the later one wins. *)
Lemma load_rest_api_spec_witness :
  exists merged,
    SpecLoader.load_rest_api_spec "peek"
      (fun _ => Some [ ("a.json", Some (search_specs None));
                       ("b.json", Some (search_specs (Some ["q"; "size"]))) ])
    = ([], SpecLoader.Loaded_ok merged) /\
    NoDup (map fst merged) /\
    forall name,
      dict_get merged name =
      dict_get (rev (SpecLoader.all_entries (SpecLoader.merged_files
                  [ ("a.json", Some (search_specs None));
                    ("b.json", Some (search_specs (Some ["q"; "size"]))) ]))) name.
Proof.
  refine (proj1 (proj2 load_rest_api_spec_spec) "peek"
            (fun _ => Some [ ("a.json", Some (search_specs None));
                             ("b.json", Some (search_specs (Some ["q"; "size"]))) ])
            _ eq_refl _).
  intros f c Hin. vm_compute in Hin. destruct Hin as [H | [H | []]]; injection H as <- <-; discriminate.
Defined.

(** * Part IV: further properties of the code *)

(** ** [get_completions] and [_complete_path] never raise *)

Lemma _complete_options_no_raise NAMES tokens exn :
  _complete_options NAMES tokens <> Raises exn.
Proof.
  assert (forall l, scan_options NAMES l <> Raises exn) as Hscan.
  { induction l as [|t l IH]; simpl; [discriminate |].
    destruct (kind_is (ttype t) HttpMethod); [discriminate |].
    destruct (kind_is (ttype t) FuncName).
    - destruct (dict_get NAMES (value t)) as [[[[|n ns]|]]|]; discriminate.
    - destruct (kind_is (ttype t) BlankLine); [discriminate | exact IH]. }
  unfold _complete_options. destruct (last_token tokens) as [t|]; [| apply Hscan].
  destruct (kind_is (ttype t) Assign); [discriminate | apply Hscan].
Qed.

Lemma _complete_path_no_raise self tokens cursor exn :
  2 <= length tokens -> _complete_path self tokens cursor <> Raises exn.
Proof.
  intros Hlen. unfold _complete_path.
  destruct (rev tokens) as [|path_token [|method_token rest]] eqn:E.
  - apply (f_equal (@length Token)) in E. rewrite length_rev in E. simpl in E. lia.
  - apply (f_equal (@length Token)) in E. rewrite length_rev in E. simpl in E. lia.
  - destruct (last_token _) as [cursor_token|] eqn:El; [| discriminate].
    unfold last_token in El. apply last_Some in El as [pre Hpre].
    destruct (kind_is (ttype cursor_token) PathPart || kind_is (ttype cursor_token) Slash).
    + rewrite Hpre, _complete_path_part_eq. discriminate.
    + destruct (_ || _); discriminate.
Qed.

(** X1. [get_completions] never raises: the reads of [tokens[-1]],
    [tokens[-2]] and [path_tokens[-1]] and the [ts.pop()] of path completion
    are all within bounds, for every lexer, normalizer, registry, text and
    cursor, and every mapping of spec entries of the shape the loops read. *)
Theorem get_completions_never_raises :
  forall normalize NAMES self document_text cursor exn,
    get_completions normalize NAMES self document_text cursor <> Raises exn.
Proof.
  intros normalize NAMES self document_text cursor exn. unfold get_completions.
  set (tokens := normalize (lexer self (PyStr.take cursor document_text))).
  destruct (length tokens =? 0) eqn:Hlen; [discriminate |].
  destruct (find_token 0 tokens cursor) as [[i t]|] eqn:Hfind.
  - destruct (kind_is (ttype t) HttpMethod || kind_is (ttype t) FuncName); [discriminate |].
    destruct ((0 <? i) && _) eqn:Hprev.
    + apply _complete_path_no_raise.
      apply andb_true_iff in Hprev as [Hi _]. apply Nat.ltb_lt in Hi.
      apply find_token_some in Hfind as (k & Hk & Hlook & _). simpl in Hk. subst k.
      apply lookup_lt_Some in Hlook. lia.
    + destruct (_ || _); [apply _complete_options_no_raise | discriminate].
  - destruct (last_token tokens) as [tl|] eqn:El.
    + destruct (PyStr.contains_char _ _); [discriminate | apply _complete_options_no_raise].
    + destruct tokens as [|t0 tokens0]; [discriminate |].
      unfold last_token in El. destruct (last_cons_Some t0 tokens0) as [y Hy]. congruence.
Qed.

(** ** [can_match] as a relation *)

Lemma can_match_refl T : can_match T T = true.
Proof.
  induction T as [|t T IH]; simpl; [reflexivity |]. now rewrite String.eqb_refl.
Qed.

Lemma can_match_app T1 : forall T2 P1 P2,
  length T1 = length P1 ->
  can_match (T1 ++ T2) (P1 ++ P2) = can_match T1 P1 && can_match T2 P2.
Proof.
  induction T1 as [|t T1 IH]; intros T2 [|p P1] P2 Hl; simpl in Hl; try discriminate.
  - reflexivity.
  - injection Hl as Hl. simpl. rewrite (IH _ _ _ Hl).
    destruct (negb (String.eqb t p)); [| reflexivity].
    destruct (PyStr.startswith "_" t); [reflexivity |].
    destruct (negb _); reflexivity.
Qed.

Lemma can_match_prefix T : forall T' P,
  can_match (T ++ T') P = true -> can_match T P = true.
Proof.
  induction T as [|t T IH]; intros T' [|p P] H; try reflexivity.
  change ((t :: T) ++ T') with (t :: (T ++ T')) in H.
  apply can_match_cons in H as [H0 H]. apply can_match_cons. eauto.
Qed.

(** X3. [can_match] accepts every template against itself; a typed path that
    matches a template still matches it when segments are taken off its end;
    over two lists cut at the same length it is the conjunction of the two
    halves; and a typed segment that starts with an underscore matches no
    template segment but its own text. *)
Theorem can_match_algebra :
  (forall T, can_match T T = true) /\
  (forall T T' P, can_match (T ++ T') P = true -> can_match T P = true) /\
  (forall T1 T2 P1 P2,
     length T1 = length P1 ->
     can_match (T1 ++ T2) (P1 ++ P2) = can_match T1 P1 && can_match T2 P2) /\
  (forall t T p P,
     PyStr.startswith "_" t = true -> can_match (t :: T) (p :: P) = true -> t = p).
Proof.
  split; [exact can_match_refl |]. split; [exact can_match_prefix |].
  split; [intros; now apply can_match_app |].
  intros t T p P Hu H. apply can_match_cons in H as [[Heq | (Hf & _)] _]; congruence.
Qed.

(** The typed path [prod/_search] against the template [/{index}/_search]. *)
Lemma can_match_algebra_witness :
  can_match ["prod"] ["{index}"; "_search"] = true /\
  can_match (["prod"] ++ ["_search"]) (["{index}"] ++ ["_search"])
    = can_match ["prod"] ["{index}"] && can_match ["_search"] ["_search"] /\
  "_search" = "_search".
Proof.
  split; [| split].
  - exact (proj1 (proj2 can_match_algebra) ["prod"] ["_search"] ["{index}"; "_search"] eq_refl).
  - exact (proj1 (proj2 (proj2 can_match_algebra)) ["prod"] ["_search"] ["{index}"] ["_search"]
             eq_refl).
  - exact (proj2 (proj2 (proj2 can_match_algebra)) "_search" [] "_search" [] eq_refl eq_refl).
Defined.

(** ** A path candidate, once accepted *)

Lemma split_pieces c s :
  Forall (fun w => PyStr.contains_char c w = false) (PyStr.split c s).
Proof.
  induction s as [|a s IH]; simpl.
  - repeat constructor.
  - destruct (Ascii.eqb a c) eqn:E.
    + constructor; [reflexivity | exact IH].
    + destruct (PyStr.split c s) as [|w ws].
      * repeat constructor. simpl. now rewrite E.
      * apply Forall_cons in IH as [Hw Hws]. constructor; [| exact Hws].
        simpl. now rewrite E.
Qed.

Lemma split_no_sep c s : PyStr.contains_char c s = false -> PyStr.split c s = [s].
Proof.
  intros H. pose proof (split_after_run c s EmptyString H) as E.
  rewrite append_empty_r in E. simpl in E. now rewrite append_empty_r in E.
Qed.

(** Splitting what was joined gives the pieces back. *)
Lemma split_join c l :
  l <> [] -> Forall (fun w => PyStr.contains_char c w = false) l ->
  PyStr.split c (PyStr.join (String c EmptyString) l) = l.
Proof.
  induction l as [|x l IH]; intros Hne Hl; [congruence |].
  apply Forall_cons in Hl as [Hx Hl]. destruct l as [|y l].
  - simpl. now apply split_no_sep.
  - change (PyStr.join (String c EmptyString) (x :: y :: l))
      with (x +:+ String c EmptyString +:+ PyStr.join (String c EmptyString) (y :: l)).
    rewrite (split_after_run c x _ Hx), append_cons, append_empty_l.
    cbn [PyStr.split]. rewrite Ascii.eqb_refl, append_empty_r.
    f_equal. apply IH; [discriminate | exact Hl].
Qed.

Lemma path_segments_pieces p :
  Forall (fun w => PyStr.contains_char "/" w = false /\ w <> EmptyString) (path_segments p).
Proof.
  apply List.Forall_forall. intros w Hw. unfold path_segments in Hw.
  apply list_elem_of_In, list_elem_of_filter in Hw as [Ht Hw]. split.
  - pose proof (split_pieces "/" p) as H. rewrite List.Forall_forall in H.
    apply H. now apply list_elem_of_In.
  - intros ->. exact Ht.
Qed.

Lemma path_segments_join l :
  l <> [] ->
  Forall (fun w => PyStr.contains_char "/" w = false /\ w <> EmptyString) l ->
  path_segments (PyStr.join "/" l) = l.
Proof.
  intros Hne Hl. unfold path_segments. rewrite split_join; [| exact Hne |].
  - clear Hne. induction Hl as [|w l [_ Hw] _ IH]; [reflexivity |].
    rewrite filter_cons_True by (destruct w; [congruence | exact I]). now rewrite IH.
  - eapply Forall_impl; [exact Hl |]. now intros w [H _].
Qed.

Lemma join_not_empty sep w l : w <> EmptyString -> PyStr.join sep (w :: l) <> EmptyString.
Proof.
  intros Hw. destruct w as [|a w]; [congruence |]. destruct l; simpl; [discriminate |].
  rewrite append_cons. discriminate.
Qed.

(** X4. Every candidate offered by path-part completion is a non-empty text
    with start position 0 whose segments are exactly the segments that a
    template of a loaded endpoint, for the method, has beyond the typed ones.
    Appended to the typed segments they give a path of the length of the
    template that matches the template: the condition under which
    parameter-name completion takes the template. *)
Theorem path_candidate_round_trip :
  forall self method pre cursor_token candidates c,
    _complete_path_part self method (pre ++ [cursor_token])
      = Return (FuzzyConstant candidates) ->
    c ∈ candidates ->
    let T := typed_segments (pre ++ [cursor_token]) cursor_token in
    text c <> EmptyString /\ start_position c = 0%Z /\
    exists name api_spec ap,
      (name, api_spec) ∈ specs self /\ ap ∈ url_paths api_spec /\
      method ∈ methods ap /\
      path_segments (text c) = drop (length T) (path_segments (path ap)) /\
      length (T ++ path_segments (text c)) = length (path_segments (path ap)) /\
      can_match (T ++ path_segments (text c)) (path_segments (path ap)) = true.
Proof.
  intros self method pre cursor_token candidates c Heq Hc T.
  rewrite _complete_path_part_eq in Heq. injection Heq as <-. fold T in Hc.
  apply list_elem_of_In, in_flat_map in Hc as ([name api_spec] & Hin & Hc). simpl in Hc.
  apply in_flat_map in Hc as (ap & Hap & Hc). unfold template_candidates in Hc.
  destruct (decide _) as [(Hm & Hl & Hcm)|]; [| destruct Hc]. destruct Hc as [<-|[]].
  set (P := path_segments (path ap)) in *. cbn [text start_position].
  assert (drop (length T) P <> []) as Hne.
  { intros E. apply (f_equal (@length string)) in E. rewrite length_drop in E.
    simpl in E. lia. }
  assert (Forall (fun w => PyStr.contains_char "/" w = false /\ w <> EmptyString)
                 (drop (length T) P)) as Hpieces
    by (apply Forall_drop, path_segments_pieces).
  assert (path_segments (PyStr.join "/" (drop (length T) P)) = drop (length T) P) as Hround
    by (now apply path_segments_join).
  split; [| split; [reflexivity |]].
  - destruct (drop (length T) P) as [|w l]; [congruence |].
    apply Forall_cons in Hpieces as [[_ Hw] _]. now apply join_not_empty.
  - exists name, api_spec, ap. fold P. rewrite Hround.
    apply list_elem_of_In in Hin. apply list_elem_of_In in Hap.
    split; [exact Hin |]. split; [exact Hap |]. split; [exact Hm |]. split; [reflexivity |].
    split; [rewrite length_app, length_drop; lia |].
    rewrite <- (take_drop (length T) P) at 2.
    rewrite can_match_app by (rewrite length_take; lia).
    rewrite can_match_refl, andb_true_r.
    rewrite can_match_take in Hcm.
    rewrite Nat.min_l in Hcm by lia. now rewrite firstn_all in Hcm.
Qed.

(** After [/prod/] against the template [/{index}/_search]: the candidate
    [_search] completes the template. *)
Lemma path_candidate_round_trip_witness :
  let self := completer_on [] (search_specs None) in
  let pre := [mkToken 0 Slash "/"; mkToken 1 PathPart "prod"] in
  let cursor_token := mkToken 5 Slash "/" in
  let c := mkCompletion "_search" 0 in
  let T := typed_segments (pre ++ [cursor_token]) cursor_token in
  text c <> EmptyString /\ start_position c = 0%Z /\
  exists name api_spec ap,
    (name, api_spec) ∈ specs self /\ ap ∈ url_paths api_spec /\
    "GET" ∈ methods ap /\
    path_segments (text c) = drop (length T) (path_segments (path ap)) /\
    length (T ++ path_segments (text c)) = length (path_segments (path ap)) /\
    can_match (T ++ path_segments (text c)) (path_segments (path ap)) = true.
Proof.
  exact (path_candidate_round_trip (completer_on [] (search_specs None)) "GET"
           [mkToken 0 Slash "/"; mkToken 1 PathPart "prod"] (mkToken 5 Slash "/")
           [mkCompletion "_search" 0] (mkCompletion "_search" 0)
           eq_refl (list_elem_of_here _ _)).
Defined.

(** ** When option completion returns no iterable *)

Lemma scan_options_none NAMES l :
  scan_options NAMES l = PyNone -> Forall (fun u => is_head u = false) l.
Proof.
  induction l as [|t l IH]; simpl; intros H; [constructor |].
  destruct (kind_is (ttype t) HttpMethod) eqn:Hm; [discriminate |].
  destruct (kind_is (ttype t) FuncName) eqn:Hf.
  - destruct (dict_get NAMES (value t)) as [[[[|n ns]|]]|]; discriminate.
  - destruct (kind_is (ttype t) BlankLine) eqn:Hb; [discriminate |].
    constructor; [| auto]. unfold is_head. now rewrite Hm, Hf, Hb.
Qed.

(** X5. [_complete_options] returns [None] exactly when the tokens hold no
    HttpMethod, FuncName or BlankLine token and do not end in an assignment
    marker; with any such token present, or after an assignment marker, it
    returns an iterable. *)
Theorem complete_options_none_iff :
  forall NAMES tokens,
    _complete_options NAMES tokens = PyNone <->
    Forall (fun u => is_head u = false) tokens /\
    (forall u, last tokens = Some u -> ttype u <> Assign).
Proof.
  intros NAMES tokens. split.
  - unfold _complete_options, last_token. intros H.
    assert (scan_options NAMES (rev tokens) = PyNone /\
            forall u, last tokens = Some u -> ttype u <> Assign) as [Hscan Hlast].
    { destruct (last tokens) as [t|]; [| split; [exact H | discriminate]].
      unfold kind_is in H. destruct (bool_decide_reflect (ttype t = Assign)) as [Ha|Ha];
        [discriminate |].
      split; [exact H |]. intros u Hu. now injection Hu as <-. }
    split; [| exact Hlast]. apply scan_options_none in Hscan.
    rewrite List.Forall_forall in *. intros u Hu. apply Hscan. now apply in_rev in Hu.
  - intros [Hno Hlast].
    assert (scan_options NAMES (rev tokens) = PyNone) as Hscan.
    { apply scan_options_no_head. rewrite List.Forall_forall in *.
      intros u Hu. apply Hno. now apply in_rev. }
    unfold _complete_options, last_token. destruct (last tokens) as [u|]; [| exact Hscan].
    unfold kind_is. rewrite bool_decide_eq_false_2 by (now apply Hlast). exact Hscan.
Qed.

(** ** A spec file that cannot be read *)

Lemma load_files_raises files : forall specs,
  (exists exn, SpecLoader.load_files files specs = SpecLoader.Load_raises exn) <->
  exists f, In (f, None) files /\ String.eqb f "_common.json" = false.
Proof.
  induction files as [|[f c] files IH]; intros specs; simpl.
  - split; [intros [exn H]; discriminate | intros (f & [] & _)].
  - destruct (String.eqb f "_common.json") eqn:Ef.
    + rewrite IH. split.
      * intros (f' & Hin & Hf). exists f'. auto.
      * intros (f' & [Heq | Hin] & Hf); [| exists f'; auto].
        injection Heq as -> ->. congruence.
    + destruct c as [mapping|].
      * rewrite IH. split.
        -- intros (f' & Hin & Hf). exists f'. auto.
        -- intros (f' & [Heq | Hin] & Hf); [discriminate | exists f'; auto].
      * split; [intros _; exists f; auto | eauto].
Qed.



(** ** A completer built without its spec directory *)

(** X7. When the spec directory does not exist, the constructor of
    [PeekCompleter] logs the warning and builds a completer with no specs; on
    it, path completion never raises and offers no candidate: neither a path
    segment nor a parameter name, whatever the method and the typed path. *)
Theorem completer_without_spec_dir :
  forall package_root fs,
    fs (SpecLoader.spec_dir_of package_root) = None ->
    exists self,
      PeekCompleter_init package_root fs
      = (["spec directory does not exist: " +:+ SpecLoader.spec_dir_of package_root],
         Constructed_ok self) /\
      specs self = [] /\
      (forall method path_tokens,
         _complete_query_param_name self method path_tokens = Return (FuzzyConstant [])) /\
      (forall method path_tokens,
         path_tokens <> [] ->
         _complete_path_part self method path_tokens = Return (FuzzyConstant [])) /\
      (forall tokens cursor,
         2 <= length tokens ->
         exists r, _complete_path self tokens cursor = Return r /\ offered r = []).
Proof.
  intros package_root fs H.
  exists (mkPeekCompleter PeekLexer.tokenize UrlPathLexer.get_tokens_unprocessed []).
  assert (Hq : forall method path_tokens,
             _complete_query_param_name
               (mkPeekCompleter PeekLexer.tokenize UrlPathLexer.get_tokens_unprocessed [])
               method path_tokens = Return (FuzzyConstant [])).
  { intros method path_tokens. unfold _complete_query_param_name. cbn [specs fold_left].
    now rewrite elements_empty. }
  assert (Hp : forall method path_tokens,
             path_tokens <> [] ->
             _complete_path_part
               (mkPeekCompleter PeekLexer.tokenize UrlPathLexer.get_tokens_unprocessed [])
               method path_tokens = Return (FuzzyConstant [])).
  { intros method path_tokens Hne.
    destruct (last path_tokens) as [t|] eqn:El;
      [| destruct path_tokens as [|t0 l]; [congruence |];
         destruct (last_cons_Some t0 l) as [y Hy]; congruence].
    apply last_Some in El as [pre ->]. now rewrite _complete_path_part_eq. }
  split; [| split; [reflexivity | split; [exact Hq | split; [exact Hp |]]]].
  - unfold PeekCompleter_init, SpecLoader.load_rest_api_spec. now rewrite H.
  - intros tokens cursor Hlen. unfold _complete_path.
    destruct (rev tokens) as [|path_token [|method_token rest]] eqn:E.
    + apply (f_equal (@length Token)) in E. rewrite length_rev in E. simpl in E. lia.
    + apply (f_equal (@length Token)) in E. rewrite length_rev in E. simpl in E. lia.
    + cbv zeta. destruct (last_token _) as [cursor_token|] eqn:El; [| now exists Nothing].
      destruct (kind_is (ttype cursor_token) PathPart || kind_is (ttype cursor_token) Slash).
      * rewrite Hp; [now eexists | intros E']. rewrite E' in El. discriminate.
      * destruct (_ || _); [rewrite Hq; now eexists | now exists Nothing].
Qed.

(** A file system without the directory. *)
Lemma completer_without_spec_dir_witness :
  exists self,
    PeekCompleter_init "peek" (fun _ => None)
    = (["spec directory does not exist: " +:+ SpecLoader.spec_dir_of "peek"],
       Constructed_ok self) /\
    specs self = [] /\
    (forall method path_tokens,
       _complete_query_param_name self method path_tokens = Return (FuzzyConstant [])) /\
    (forall method path_tokens,
       path_tokens <> [] ->
       _complete_path_part self method path_tokens = Return (FuzzyConstant [])) /\
    (forall tokens cursor,
       2 <= length tokens ->
       exists r, _complete_path self tokens cursor = Return r /\ offered r = []).
Proof.
  exact (completer_without_spec_dir "peek" (fun _ => None) eq_refl).
Defined.

(** ** The payload lexer on its own *)

Module PayloadLexerFacts.
Import Re Pygments ReFacts EngineFacts LexerFacts.

(** Every round of the payload lexer consumes: none of its patterns matches
    the empty string. *)
Lemma payload_step_advances cur stack toks cur' stack' :
  step PayloadLexer.tokens PayloadLexer.root cur stack = Next toks cur' stack' ->
  pos cur < pos cur'.
Proof.
  unfold step. destruct (first_match _ cur) as [[[[[rx act] ops] c] g]|] eqn:E.
  - apply first_match_inv in E as [Hin Hm]. cbn [fst] in Hm.
    apply payload_rules_consume in Hin.
    apply rexmatch_inv in Hm as (w & [_ Hp] & Hw). specialize (Hw Hin).
    destruct (run_action act cur c g); [| discriminate]. intros H. injection H as <- <- <-.
    destruct w; [congruence | simpl in Hp; lia].
  - destruct (rest cur) as [|c r]; [discriminate |].
    destruct (is_newline c); intros H; injection H as <- <- <-; simpl; lia.
Qed.

End PayloadLexerFacts.

(** X8. On every text the scan of the payload lexer returns, and its tokens
    are strictly ordered, do not overlap and cover every character of the
    text exactly once.  Every round of the scan, from any stack of states,
    consumes at least one character: unlike the main lexer, the payload lexer
    has no rule that matches the empty string. *)
Theorem payload_lexer_scan :
  (forall text, exists toks,
     PayloadLexer.get_tokens_unprocessed text = Some toks /\ partitions text toks) /\
  (forall cur stack toks cur' stack',
     Pygments.step PayloadLexer.tokens PayloadLexer.root cur stack
       = Pygments.Next toks cur' stack' ->
     Re.pos cur < Re.pos cur').
Proof.
  split.
  - intros text. destruct (LexerFacts.payload_total text) as (toks & H & Ht).
    exists toks. split; [exact H | now apply TilesFacts.tiles_partitions].
  - exact PayloadLexerFacts.payload_step_advances.
Qed.

(** The round on the opening brace of [{}] consumes one character. *)
Lemma payload_lexer_scan_witness :
  Re.pos (Re.start_of (list_ascii_of_string "{}"))
  < Re.pos (Re.mkCursor (Some "{"%char) 1 ["}"%char]).
Proof.
  exact (proj2 payload_lexer_scan (Re.start_of (list_ascii_of_string "{}")) [PayloadLexer.root]
           [mkToken 0 CurlyLeft "{"] (Re.mkCursor (Some "{"%char) 1 ["}"%char])
           [PayloadLexer.dict_key; PayloadLexer.root] eq_refl).
Defined.

(** X9. Inside a string of the payload, a key or a value in either quote
    style, a percent sign is never part of the string: the inner-string
    pattern leaves it out and no other rule of the string states takes it, so
    it is lexed as an Error token of one character and the string goes on.
    In a dictionary whose double-quoted value is [5%], the percent sign is an
    Error token between two String.Double tokens. *)
Theorem percent_in_string_is_error :
  (forall cur r stack,
     Re.rest cur = "%"%char :: r ->
     in_string (Pygments.top PayloadLexer.root stack) = true ->
     Pygments.step PayloadLexer.tokens PayloadLexer.root cur stack
     = Pygments.Next [mkToken (Re.pos cur) Error "%"] (Re.after "%" cur r) stack) /\
  PayloadLexer.get_tokens_unprocessed
    (list_ascii_of_string ("{" +:+ dq +:+ "a" +:+ dq +:+ ":" +:+ dq +:+ "5%" +:+ dq +:+ "}"))
  = Some [ mkToken 0 CurlyLeft "{"; mkToken 1 String_Symbol dq; mkToken 2 String_Symbol "a";
           mkToken 3 String_Symbol dq; mkToken 4 Colon ":";
           mkToken 5 String_Double dq; mkToken 6 String_Double "5"; mkToken 7 Error "%";
           mkToken 8 String_Double dq; mkToken 9 CurlyRight "}" ].
Proof.
  split; [| vm_compute; reflexivity].
  intros [p n l] r stack Hr Hs. simpl in Hr. subst l.
  destruct stack as [|s stack]; [discriminate |].
  destruct s; try discriminate; reflexivity.
Qed.

(** The percent sign of the value [5%], met in the state of a double-quoted
    value. *)
Lemma percent_in_string_is_error_witness :
  let cur := Re.mkCursor (Some "5"%char) 7 ["%"%char; PayloadLexer.dquote; "}"%char] in
  let stack := [PayloadLexer.dqs_; PayloadLexer.dict_value; PayloadLexer.root] in
  Pygments.step PayloadLexer.tokens PayloadLexer.root cur stack
  = Pygments.Next [mkToken 7 Error "%"]
      (Re.after "%" cur [PayloadLexer.dquote; "}"%char]) stack.
Proof.
  exact (proj1 percent_in_string_is_error
           (Re.mkCursor (Some "5"%char) 7 ["%"%char; PayloadLexer.dquote; "}"%char])
           [PayloadLexer.dquote; "}"%char]
           [PayloadLexer.dqs_; PayloadLexer.dict_value; PayloadLexer.root] eq_refl eq_refl).
Defined.

(** ** The token under the cursor, for tokens that tile the text *)

(** X10. When the tokens tile the text before the cursor, as the tokens of
    [PeekLexer] do, the token that [get_completions] locates is always the
    last one, and it ends at the cursor: the token before it, which
    [get_completions] tests for an HTTP method, is the last but one, which
    [_complete_path] reads as the method. *)
Theorem located_token_is_last :
  (forall w tokens,
     tiles 0 w tokens -> w <> [] ->
     exists pre t,
       tokens = pre ++ [t] /\
       find_token 0 tokens (length w) = Some (length pre, t) /\
       token_end t = length w) /\
  (forall document_text cursor,
     0 < cursor <= String.length document_text ->
     let tokens := PeekLexer.tokenize (PyStr.take cursor document_text) in
     exists pre t,
       tokens = pre ++ [t] /\
       find_token 0 tokens cursor = Some (length pre, t) /\
       token_end t = cursor).
Proof.
  split.
  - intros w tokens Ht Hne. exact (find_token_tiles 0 w tokens Ht Hne 0).
  - intros document_text cursor Hc tokens. unfold tokens, PeekLexer.tokenize.
    destruct (LexerFacts.peek_total (list_ascii_of_string (PyStr.take cursor document_text)))
      as (toks & -> & Ht).
    pose proof (length_take_string cursor document_text ltac:(lia)) as Hlen.
    destruct (find_token_tiles 0 _ toks Ht) with (i0 := 0) as (pre & t & -> & Hfind & Hend).
    + intros E. rewrite E in Hlen. simpl in Hlen. lia.
    + rewrite Hlen in Hfind, Hend. exists pre, t. auto.
Qed.

(** The text [GET /x] with the cursor at its end. *)
Lemma located_token_is_last_witness :
  let tokens := PeekLexer.tokenize (PyStr.take 6 "GET /x") in
  exists pre t,
    tokens = pre ++ [t] /\
    find_token 0 tokens 6 = Some (length pre, t) /\
    token_end t = 6.
Proof.
  refine (proj2 located_token_is_last "GET /x" 6 _). simpl. lia.
Defined.

(** ** The shape of what the main lexer yields *)

Module ScanFacts.
Import Re Pygments ReFacts EngineFacts LexerFacts PeekLexerFacts.

(** The cursor moved over [ws], with [r] left. *)
Fixpoint skip (ws : list ascii) (p : option ascii) (n : nat) (r : list ascii) : cursor :=
  match ws with
  | [] => mkCursor p n r
  | x :: ws' => skip ws' (Some x) (S n) r
  end.

Lemma pos_skip ws : forall p n r, pos (skip ws p n r) = n + length ws.
Proof.
  induction ws as [|x ws IH]; intros p n r; simpl; [lia |]. rewrite IH. simpl. lia.
Qed.

Lemma rest_skip ws : forall p n r, rest (skip ws p n r) = r.
Proof. induction ws as [|x ws IH]; intros p n r; simpl; auto. Qed.

Lemma prev_skip ws : forall p n r,
  prev (skip ws p n r) = match last ws with Some c => Some c | None => p end.
Proof.
  induction ws as [|x ws IH]; intros p n r; [reflexivity |].
  cbn [skip]. rewrite IH. destruct ws as [|y ws]; [reflexivity |].
  destruct (last_cons_Some y ws) as [z Hz].
  change (last (x :: y :: ws)) with (last (y :: ws)). now rewrite Hz.
Qed.

Lemma slice_skip ws p n r :
  slice (mkCursor p n (ws ++ r)) n (pos (skip ws p n r)) = ws.
Proof.
  unfold slice. rewrite pos_skip. cbn [pos rest]. rewrite Nat.sub_diag, drop_0.
  replace (n + length ws - n) with (length ws) by lia. now rewrite take_app_length.
Qed.

(** A greedy run of a class takes all the characters of the class. *)
Lemma star_cls_greedy {R} p ws : forall m q n r g (k : cont (R := R)) y,
  Forall (fun c => p c = true) ws -> stops p r -> length ws <= m ->
  k (skip ws q n r) g = Some y ->
  star_loop (run (Cls p)) m (mkCursor q n (ws ++ r)) g k = Some y.
Proof.
  induction ws as [|x ws IH]; intros m q n r g k y Hws Hr Hm Hk.
  - destruct m as [|m]; [exact Hk |]. simpl.
    destruct r as [|c r]; [exact Hk |]. simpl in Hr. rewrite Hr. exact Hk.
  - destruct m as [|m]; [simpl in Hm; lia |].
    apply Forall_cons in Hws as [Hx Hws]. simpl. rewrite Hx.
    rewrite (proj2 (Nat.ltb_lt n (S n))) by lia.
    assert (star_loop (run (Cls p)) m (mkCursor (Some x) (S n) (ws ++ r)) g k = Some y) as H
      by (apply IH; [assumption | assumption | simpl in Hm; lia | exact Hk]).
    match goal with
    | |- match ?X with Some _ => _ | None => _ end = _ =>
        replace X with (Some y) by (symmetry; exact H)
    end.
    reflexivity.
Qed.

Lemma plus_cls_greedy p x ws q n r :
  Forall (fun c => p c = true) (x :: ws) -> stops p r ->
  rexmatch (Plus (Cls p)) (mkCursor q n (x :: ws ++ r)) = Some (skip (x :: ws) q n r, []).
Proof.
  intros Hws Hr. apply Forall_cons in Hws as [Hx Hws].
  unfold rexmatch, Plus. cbn [run rest]. rewrite Hx. unfold after. cbn [pos rest].
  apply star_cls_greedy; [assumption | assumption | | reflexivity].
  rewrite length_app. lia.
Qed.

Lemma plus_cls_fails p cur : stops p (rest cur) -> rexmatch (Plus (Cls p)) cur = None.
Proof.
  unfold rexmatch, Plus. cbn [run]. destruct (rest cur) as [|x r]; [reflexivity |].
  simpl. now intros ->.
Qed.

Lemma lower_space c : is_space (lower c) = is_space c.
Proof. destruct c as [[] [] [] [] [] [] [] []]; reflexivity. Qed.

Lemma lower_word c : is_word (lower c) = is_word c.
Proof. destruct c as [[] [] [] [] [] [] [] []]; reflexivity. Qed.

Lemma space_not_word c : is_space c = true -> is_word c = false.
Proof. destruct c as [[] [] [] [] [] [] [] []]; (discriminate || reflexivity). Qed.

Lemma space_lower c : is_space c = true -> lower c = c.
Proof. destruct c as [[] [] [] [] [] [] [] []]; (discriminate || reflexivity). Qed.

(** More fuel does not change what a scan returns. *)
Lemma loop_more_fuel {St} (tokendefs : St -> list (Rule (St := St))) root fuel :
  forall extra cur stack toks,
    loop tokendefs root fuel cur stack = Some toks ->
    loop tokendefs root (fuel + extra) cur stack = Some toks.
Proof.
  induction fuel as [|fuel IH]; intros extra cur stack toks H; [discriminate |].
  simpl in *. destruct (step tokendefs root cur stack) as [|t c s|]; [exact H | | exact H].
  destruct (loop tokendefs root fuel c s) as [more|] eqn:E; [| discriminate].
  now rewrite (IH extra _ _ _ E).
Qed.

(** A scan that returns, seen after its first round. *)
Lemma loop_first_round {St} (tokendefs : St -> list (Rule (St := St))) root fuel
    cur stack toks t c s :
  loop tokendefs root fuel cur stack = Some toks ->
  step tokendefs root cur stack = Next t c s ->
  exists more, toks = t ++ more /\ loop tokendefs root (pred fuel) c s = Some more.
Proof.
  destruct fuel as [|fuel]; [discriminate |]. simpl. intros H E. rewrite E in H.
  destruct (loop tokendefs root fuel c s) as [more|]; [| discriminate].
  injection H as <-. eauto.
Qed.

(** The tokens of a scan all satisfy what the tokens of each round do. *)
Lemma loop_invariant {St} (tokendefs : St -> list (Rule (St := St))) root
    (Inv : list St -> Prop) (K : Token -> Prop) :
  (forall cur stack toks cur' stack',
     Inv stack -> step tokendefs root cur stack = Next toks cur' stack' ->
     Inv stack' /\ Forall K toks) ->
  forall fuel cur stack toks,
    Inv stack -> loop tokendefs root fuel cur stack = Some toks -> Forall K toks.
Proof.
  intros Hstep. induction fuel as [|fuel IH]; intros cur stack toks HI H; [discriminate |].
  simpl in H. destruct (step tokendefs root cur stack) as [|t c s|] eqn:E; [| | discriminate].
  - injection H as <-. constructor.
  - destruct (loop tokendefs root fuel c s) as [more|] eqn:El; [| discriminate].
    injection H as <-. destruct (Hstep _ _ _ _ _ HI E) as [HI' Ht].
    apply Forall_app. split; [exact Ht | eapply IH; eassumption].
Qed.

End ScanFacts.

(** ** The rounds of the main lexer, one by one *)

Module PeekRounds.
Import Re Pygments ReFacts EngineFacts LexerFacts PeekLexerFacts ScanFacts.

#[local] Arguments eq_ci : simpl never.
#[local] Arguments is_word : simpl never.
#[local] Arguments is_space : simpl never.

Lemma eq_ci_subst w x : eq_ci w x = true -> forall a, eq_ci a x = eq_ci a w.
Proof.
  unfold eq_ci. intros H a. apply Ascii.eqb_eq in H. now rewrite H.
Qed.

Lemma eq_ci_word w x : eq_ci w x = true -> is_word x = is_word w.
Proof.
  unfold eq_ci. intros H. apply Ascii.eqb_eq in H.
  now rewrite <- (lower_word x), <- (lower_word w), H.
Qed.

Lemma eq_ci_space w x : eq_ci w x = true -> is_space x = is_space w.
Proof.
  unfold eq_ci. intros H. apply Ascii.eqb_eq in H.
  now rewrite <- (lower_space x), <- (lower_space w), H.
Qed.

Lemma space_not_slash c : is_space c = true -> eq_ci "/" c = false.
Proof. destruct c as [[] [] [] [] [] [] [] []]; (discriminate || reflexivity). Qed.

Lemma not_space_stops c r : is_space c = true -> stops not_space (c :: r).
Proof. intros H. simpl. unfold not_space. now rewrite H. Qed.

(** The comment pattern needs a slash. *)
Lemma comment_fails cur :
  match rest cur with x :: _ => eq_ci "/" x = false | [] => True end ->
  rexmatch PeekLexer.comment cur = None.
Proof.
  unfold rexmatch, PeekLexer.comment. cbn [Lit run]. destruct (rest cur) as [|x r]; [reflexivity |].
  now intros ->.
Qed.

(** In the root state, a run of whitespace is one Whitespace token. *)
Lemma root_space_round q n x ws r :
  Forall (fun c => is_space c = true) (x :: ws) -> stops is_space r ->
  step PeekLexer.tokens PeekLexer.root (mkCursor q n (x :: ws ++ r)) [PeekLexer.root]
  = Next [emit n Whitespace (x :: ws)] (skip (x :: ws) q n r) [PeekLexer.root].
Proof.
  intros Hws Hr. unfold step. cbn [top hd PeekLexer.tokens first_match PeekLexer.rule fst].
  rewrite comment_fails
    by (cbn [rest]; apply space_not_slash; now apply Forall_cons in Hws as [? _]).
  rewrite (plus_cls_greedy is_space x ws q n r Hws Hr).
  unfold PeekLexer.rule. cbn iota beta. cbn [run_action pos].
  change (x :: ws ++ r) with ((x :: ws) ++ r). now rewrite slice_skip.
Qed.

(** In the root state, a percent sign that is not at offset 0 is an Error
    token. *)
Lemma root_percent_elsewhere cur r :
  0 < pos cur -> rest cur = "%"%char :: r ->
  step PeekLexer.tokens PeekLexer.root cur [PeekLexer.root]
  = Next [mkToken (pos cur) Error "%"] (after "%" cur r) [PeekLexer.root].
Proof.
  destruct cur as [q [|n] l]; simpl; intros Hp Hr; [lia |]. subst l. reflexivity.
Qed.

(** At offset 0 it opens a command. *)
Lemma root_percent_start r :
  step PeekLexer.tokens PeekLexer.root (start_of ("%"%char :: r)) [PeekLexer.root]
  = Next [mkToken 0 Percent "%"] (mkCursor (Some "%"%char) 1 r)
         [PeekLexer.command; PeekLexer.root].
Proof. reflexivity. Qed.

(** At the end of the text the root state ends the scan. *)
Lemma root_at_end q n :
  step PeekLexer.tokens PeekLexer.root (mkCursor q n []) [PeekLexer.root] = Halt.
Proof. destruct n; reflexivity. Qed.

(** In the path state, whitespace and then the path. *)
Lemma path_space_round q n x ws r :
  Forall (fun c => is_space c = true) (x :: ws) -> stops is_space r ->
  step PeekLexer.tokens PeekLexer.root (mkCursor q n (x :: ws ++ r))
       [PeekLexer.path; PeekLexer.root]
  = Next [emit n Whitespace (x :: ws)] (skip (x :: ws) q n r)
         [PeekLexer.path; PeekLexer.root].
Proof.
  intros Hws Hr. unfold step. cbn [top hd PeekLexer.tokens first_match PeekLexer.rule fst].
  rewrite (plus_cls_greedy is_space x ws q n r Hws Hr).
  unfold PeekLexer.rule. cbn iota beta. cbn [run_action pos].
  change (x :: ws ++ r) with ((x :: ws) ++ r). now rewrite slice_skip.
Qed.

Lemma path_literal_round q n x p r :
  Forall (fun c => not_space c = true) (x :: p) -> stops not_space r ->
  step PeekLexer.tokens PeekLexer.root (mkCursor q n (x :: p ++ r))
       [PeekLexer.path; PeekLexer.root]
  = Next [emit n Literal (x :: p)] (skip (x :: p) q n r)
         [PeekLexer.payload; PeekLexer.root].
Proof.
  intros Hp Hr. unfold step.
  cbn [top hd PeekLexer.tokens first_match PeekLexer.rule PeekLexer.rule_to fst].
  rewrite plus_cls_fails
    by (cbn [rest stops]; apply Forall_cons in Hp as [Hx _]; unfold not_space in Hx;
        now destruct (is_space x)).
  rewrite (plus_cls_greedy not_space x p q n r Hp Hr).
  unfold PeekLexer.rule_to. cbn iota beta. cbn [run_action pos].
  change (x :: p ++ r) with ((x :: p) ++ r). now rewrite slice_skip.
Qed.

Lemma to_end_skip l : forall q n, to_end q n l = skip l q n [].
Proof. induction l as [|x l IH]; intros q n; simpl; auto. Qed.

(** In the payload state, all that is left goes to the payload lexer, and
    its tokens are moved to where the payload starts. *)
Lemma payload_round q n l ptoks :
  PayloadLexer.get_tokens_unprocessed l = Some ptoks ->
  step PeekLexer.tokens PeekLexer.root (mkCursor q n l) [PeekLexer.payload; PeekLexer.root]
  = Next (map (shift n) ptoks) (skip l q n []) [PeekLexer.root].
Proof.
  intros Hp. unfold step. cbn [top hd PeekLexer.tokens first_match fst].
  rewrite payload_rule_match. cbn [prev pos rest]. rewrite to_end_skip.
  cbn [run_action run_groups run_group group_span Nat.eqb].
  pose proof (slice_skip l q n []) as Hs. rewrite app_nil_r in Hs. rewrite Hs, Hp.
  cbn. now rewrite app_nil_r.
Qed.

(** In the root state at offset 0, a method in any letter case before a
    whitespace character is a Keyword token. *)
Lemma keyword_round w m c r :
  In w ["GET"; "POST"; "PUT"; "DELETE"] -> spells w m -> is_space c = true ->
  step PeekLexer.tokens PeekLexer.root (start_of (m ++ c :: r)) [PeekLexer.root]
  = Next [emit 0 Keyword m] (skip m None 0 (c :: r)) [PeekLexer.path; PeekLexer.root].
Proof.
  intros Hw Hm Hc. pose proof (space_not_word c Hc) as Hcw.
  unfold spells in Hm. each_member Hw; subst w; cbn in Hm;
    repeat match goal with
           | H : Forall2 _ (_ :: _) _ |- _ =>
               apply Forall2_cons_inv_l in H as (? & ? & ? & H & ->)
           | H : Forall2 _ [] _ |- _ => apply Forall2_nil_inv_l in H as ->
           end;
    unfold step, start_of;
    cbn [top hd PeekLexer.tokens first_match PeekLexer.rule PeekLexer.rule_to fst app];
    (rewrite comment_fails
       by (cbn [rest]; match goal with H : eq_ci _ ?x = true |- eq_ci _ ?x = _ =>
                         rewrite (eq_ci_subst _ _ H); reflexivity end));
    (rewrite plus_cls_fails
       by (cbn [rest stops]; match goal with H : eq_ci _ ?x = true |- is_space ?x = _ =>
                               rewrite (eq_ci_space _ _ H); reflexivity end));
    unfold rexmatch, words; cbn;
    repeat match goal with
           | H : eq_ci _ ?x = true |- context [eq_ci _ ?x] => rewrite !(eq_ci_subst _ _ H)
           | H : eq_ci _ ?x = true |- context [is_word ?x] => rewrite !(eq_ci_word _ _ H)
           end;
    cbn; rewrite ?Hcw; reflexivity.
Qed.

End PeekRounds.

Module PeekScans.
Import Re Pygments ReFacts EngineFacts LexerFacts PeekLexerFacts ScanFacts PeekRounds.

Lemma skip_cursor ws q n r :
  skip ws q n r = mkCursor (match last ws with Some c => Some c | None => q end)
                           (n + length ws) r.
Proof.
  pose proof (prev_skip ws q n r) as Hq. pose proof (pos_skip ws q n r) as Hn.
  pose proof (rest_skip ws q n r) as Hr.
  destruct (skip ws q n r) as [a b c]. simpl in *. now subst.
Qed.

Lemma loop_next {St} (tokendefs : St -> list (Rule (St := St))) root fuel cur stack t c s :
  step tokendefs root cur stack = Next t c s ->
  loop tokendefs root (S fuel) cur stack = (t ++.) <$> loop tokendefs root fuel c s.
Proof. intros E. simpl. now rewrite E. Qed.

Lemma loop_halt {St} (tokendefs : St -> list (Rule (St := St))) root fuel cur stack :
  step tokendefs root cur stack = Halt ->
  loop tokendefs root (S fuel) cur stack = Some [].
Proof. intros E. simpl. now rewrite E. Qed.

(** The stacks of a command, and the kinds of its tokens. *)
Definition in_command (stack : list PeekLexer.State) : Prop :=
  stack = [PeekLexer.command; PeekLexer.root] \/ stack = [PeekLexer.args; PeekLexer.root].

Definition command_kind (t : Token) : Prop :=
  In (ttype t) [Name_Builtin; Literal; Whitespace; Comment_Single].

Lemma space_or_not cur c r (rules : list (Rule (St := PeekLexer.State))) :
  rest cur = c :: r ->
  In (PeekLexer.rule (Plus (Cls is_space)) Whitespace) rules ->
  (exists k ops, In (Plus (Cls not_space), AToken k, ops) rules) ->
  first_match rules cur <> None.
Proof.
  intros Hr Hs (k & ops & Hn) E.
  assert (is_Some (first_match rules cur)) as [x Hx]; [| congruence].
  destruct (is_space c) eqn:Hc.
  - eapply first_match_some; [exact Hs |]. eapply plus_cls_match; eassumption.
  - eapply first_match_some; [exact Hn |]. cbn [fst].
    eapply plus_cls_match; [exact Hr |]. unfold not_space. now rewrite Hc.
Qed.

(** A round inside a command stays inside it, and yields no other kinds. *)
Lemma command_round cur stack toks cur' stack' :
  in_command stack ->
  step PeekLexer.tokens PeekLexer.root cur stack = Next toks cur' stack' ->
  in_command stack' /\ Forall command_kind toks.
Proof.
  intros Hs. unfold step.
  destruct (first_match _ cur) as [[[[[rx act] ops] c] g]|] eqn:E.
  - apply first_match_inv in E as [Hin _].
    destruct Hs as [-> | ->]; each_member Hin; injection Hin as <- <- <-;
      cbn [run_action]; intros H; injection H as <- <- <-;
      (split; [unfold in_command; cbn; auto |
               constructor; [unfold command_kind; cbn; auto 10 | constructor]]).
  - destruct (rest cur) as [|c r] eqn:Er; [discriminate |]. exfalso.
    revert E. destruct Hs as [-> | ->]; cbn [top hd PeekLexer.tokens];
      (eapply space_or_not; [exact Er | cbn; auto | do 2 eexists; cbn; eauto]).
Qed.

End PeekScans.

(** X11. The percent sign opens a command only as the very first character
    of the text.  The pattern of the rule lets whitespace precede it, but the
    whitespace rule stands before it and the start-of-text anchor holds at
    offset 0 only: in the root state a percent sign at any later offset is an
    Error token, and a text that starts with whitespace and then a percent
    sign is lexed as one Whitespace token and an Error token. *)
Theorem percent_only_at_offset_0 :
  (forall cur r,
     0 < Re.pos cur -> Re.rest cur = "%"%char :: r ->
     Pygments.step PeekLexer.tokens PeekLexer.root cur [PeekLexer.root]
     = Pygments.Next [mkToken (Re.pos cur) Error "%"] (Re.after "%" cur r) [PeekLexer.root]) /\
  (forall x ws r,
     Forall (fun c => Re.is_space c = true) (x :: ws) ->
     exists more,
       PeekLexer.get_tokens_unprocessed (x :: ws ++ "%"%char :: r)
       = Some (Pygments.emit 0 Whitespace (x :: ws)
               :: mkToken (S (length ws)) Error "%" :: more)).
Proof.
  split; [exact PeekRounds.root_percent_elsewhere |].
  intros x ws r Hws.
  destruct (LexerFacts.peek_total (x :: ws ++ "%"%char :: r)) as (toks & H & _).
  rewrite H. unfold PeekLexer.get_tokens_unprocessed, Pygments.get_tokens_unprocessed in H.
  eapply ScanFacts.loop_first_round in H as (more1 & -> & H);
    [| apply (PeekRounds.root_space_round None 0 x ws ("%"%char :: r) Hws); reflexivity].
  rewrite PeekScans.skip_cursor in H.
  eapply ScanFacts.loop_first_round in H as (more2 & -> & H);
    [| apply PeekRounds.root_percent_elsewhere; [simpl; lia | reflexivity]].
  exists more2. reflexivity.
Qed.

(** Two blanks before the percent sign of a command. *)
Lemma percent_only_at_offset_0_witness :
  exists more,
    PeekLexer.get_tokens_unprocessed (list_ascii_of_string "  %conn")
    = Some (mkToken 0 Whitespace "  " :: mkToken 2 Error "%" :: more).
Proof.
  refine (proj2 percent_only_at_offset_0 " "%char [" "%char] (list_ascii_of_string "conn") _).
  repeat constructor.
Defined.

(** X12. A text whose first character is a percent sign is lexed as one
    command to its end: after the Percent token come only Name.Builtin,
    Literal, Whitespace and Comment.Single tokens.  No character of it is an
    Error token, and no HTTP method on a later line is a Keyword: the lexer
    never returns to the root state. *)
Theorem command_text_tokens :
  forall r, exists more,
    PeekLexer.get_tokens_unprocessed ("%"%char :: r)
    = Some (mkToken 0 Percent "%" :: more) /\
    Forall (fun t => In (ttype t) [Name_Builtin; Literal; Whitespace; Comment_Single]) more.
Proof.
  intros r. destruct (LexerFacts.peek_total ("%"%char :: r)) as (toks & H & _).
  rewrite H. unfold PeekLexer.get_tokens_unprocessed, Pygments.get_tokens_unprocessed in H.
  eapply ScanFacts.loop_first_round in H as (more & -> & H);
    [| apply PeekRounds.root_percent_start].
  exists more. split; [reflexivity |].
  eapply (ScanFacts.loop_invariant PeekLexer.tokens PeekLexer.root
            PeekScans.in_command PeekScans.command_kind);
    [exact PeekScans.command_round | | exact H].
  now left.
Qed.

(** X13. A text made of an HTTP method in any letter case, whitespace, a
    path of characters that are not whitespace, and a rest that is empty or
    starts with whitespace, is lexed as a Keyword, a Whitespace and a Literal
    token followed by the tokens that the payload lexer yields for the whole
    rest, each moved by the offset at which the rest starts. *)
Theorem api_call_tokens :
  forall w m x ws y p rest ptoks,
    In w ["GET"; "POST"; "PUT"; "DELETE"] ->
    spells w m ->
    Forall (fun c => Re.is_space c = true) (x :: ws) ->
    Forall (fun c => Re.not_space c = true) (y :: p) ->
    stops Re.not_space rest ->
    PayloadLexer.get_tokens_unprocessed rest = Some ptoks ->
    PeekLexer.get_tokens_unprocessed (m ++ (x :: ws) ++ (y :: p) ++ rest)
    = Some (Pygments.emit 0 Keyword m
            :: Pygments.emit (length m) Whitespace (x :: ws)
            :: Pygments.emit (length m + length (x :: ws)) Literal (y :: p)
            :: map (Pygments.shift (length m + length (x :: ws) + length (y :: p))) ptoks).
Proof.
  intros w m x ws y p rest ptoks Hw Hm Hws Hp Hrest Hpay.
  unfold PeekLexer.get_tokens_unprocessed, Pygments.get_tokens_unprocessed.
  set (text := m ++ (x :: ws) ++ (y :: p) ++ rest).
  assert (2 * length text + 2 = 5 + (2 * length text - 3)) as ->.
  { unfold text. rewrite !length_app. simpl. lia. }
  apply ScanFacts.loop_more_fuel. unfold text.
  assert (Hx : Re.is_space x = true) by (now apply Forall_cons in Hws as [? _]).
  assert (Hy : stops Re.is_space ((y :: p) ++ rest)).
  { apply Forall_cons in Hp as [Hy _]. simpl. unfold Re.not_space in Hy.
    now destruct (Re.is_space y). }
  change (m ++ (x :: ws) ++ (y :: p) ++ rest) with (m ++ x :: (ws ++ (y :: p) ++ rest)).
  rewrite (PeekScans.loop_next _ _ _ _ _ _ _ _
             (PeekRounds.keyword_round w m x _ Hw Hm Hx)).
  rewrite PeekScans.skip_cursor.
  rewrite (PeekScans.loop_next _ _ _ _ _ _ _ _
             (PeekRounds.path_space_round _ _ x ws _ Hws Hy)).
  rewrite PeekScans.skip_cursor.
  change ((y :: p) ++ rest) with (y :: p ++ rest).
  rewrite (PeekScans.loop_next _ _ _ _ _ _ _ _
             (PeekRounds.path_literal_round _ _ y p rest Hp Hrest)).
  rewrite PeekScans.skip_cursor.
  rewrite (PeekScans.loop_next _ _ _ _ _ _ _ _
             (PeekRounds.payload_round _ _ rest ptoks Hpay)).
  rewrite PeekScans.skip_cursor.
  rewrite (PeekScans.loop_halt _ _ _ _ _ (PeekRounds.root_at_end _ _)).
  cbn [fmap option_fmap option_map app]. rewrite app_nil_r. reflexivity.
Qed.

(** The statement [get /x {}], the method in lower case. *)
Lemma api_call_tokens_witness :
  PeekLexer.get_tokens_unprocessed (list_ascii_of_string "get /x {}")
  = Some [ mkToken 0 Keyword "get"; mkToken 3 Whitespace " "; mkToken 4 Literal "/x";
           mkToken 6 Whitespace " "; mkToken 7 CurlyLeft "{"; mkToken 8 CurlyRight "}" ].
Proof.
  refine (api_call_tokens "GET" (list_ascii_of_string "get") " "%char [] "/"%char ["x"%char]
            (list_ascii_of_string " {}")
            [mkToken 0 Whitespace " "; mkToken 1 CurlyLeft "{"; mkToken 2 CurlyRight "}"]
            _ _ _ _ _ _).
  - now left.
  - repeat constructor.
  - repeat constructor.
  - repeat constructor.
  - reflexivity.
  - vm_compute. reflexivity.
Defined.

(** ** When the enter key submits the buffer *)

Module KeyBindingsFacts.
Import KeyBindings.

Lemma blank_app a b : blank (a +:+ b) <-> blank a /\ blank b.
Proof.
  unfold blank. induction a as [|c a IH].
  - rewrite append_empty_l. simpl. split; [intros H; split; [constructor | exact H] | tauto].
  - rewrite append_cons. simpl. rewrite !Forall_cons, IH. tauto.
Qed.

Lemma blank_rev s : blank (PyStr.rev_string s) <-> blank s.
Proof.
  induction s as [|c s IH]; simpl; [tauto |].
  rewrite blank_app, IH. unfold blank at 2 3. simpl. rewrite !Forall_cons.
  split; [intros [H [H' _]]; auto | intros [H H']; repeat split; auto; constructor].
Qed.

Lemma rev_string_empty s : PyStr.rev_string s = EmptyString -> s = EmptyString.
Proof.
  destruct s as [|c s]; [reflexivity |]. simpl.
  destruct (PyStr.rev_string s); rewrite ?append_empty_l, ?append_cons; discriminate.
Qed.

Lemma lstrip_empty s : lstrip s = EmptyString <-> blank s.
Proof.
  unfold blank. induction s as [|c s IH]; simpl.
  - split; [constructor | reflexivity].
  - rewrite Forall_cons. destruct (Re.is_space c).
    + rewrite IH. tauto.
    + split; [discriminate | intros [H _]; discriminate].
Qed.

Lemma strip_empty s : strip s = EmptyString <-> blank s.
Proof.
  unfold strip, rstrip. split.
  - intros H. apply rev_string_empty, lstrip_empty in H. apply (proj1 (blank_rev _)) in H.
    apply lstrip_empty. revert H. clear. unfold blank.
    induction s as [|c s IH]; simpl; [reflexivity |].
    destruct (Re.is_space c) eqn:E; [exact IH |].
    intros H. apply Forall_cons in H as [H _]. congruence.
  - intros H. apply lstrip_empty in H. now rewrite H.
Qed.

Lemma strip_test s : String.eqb (strip s) EmptyString = true <-> blank s.
Proof. rewrite String.eqb_eq. apply strip_empty. Qed.

(** What is left of a text after its leading whitespace starts with [c]. *)
Lemma lstrip_starts c s :
  Re.is_space c = false ->
  (PyStr.startswith (String c EmptyString) (lstrip s) = true <->
   exists ws rest, blank ws /\ s = ws +:+ String c rest).
Proof.
  intros Hc. unfold PyStr.startswith. induction s as [|a s IH]; simpl.
  - split; [discriminate |]. intros (ws & rest & _ & H).
    destruct ws; rewrite ?append_empty_l, ?append_cons in H; discriminate.
  - destruct (Re.is_space a) eqn:Ha.
    + rewrite IH. split.
      * intros (ws & rest & Hws & ->). exists (String a ws), rest.
        split; [| now rewrite append_cons]. unfold blank. simpl. now constructor.
      * intros (ws & rest & Hws & H). destruct ws as [|b ws].
        -- rewrite append_empty_l in H. injection H as -> _. congruence.
        -- rewrite append_cons in H. injection H as -> ->. exists ws, rest.
           split; [| reflexivity]. unfold blank in Hws. simpl in Hws.
           now apply Forall_cons in Hws as [_ ?].
    + simpl. destruct (Ascii.ascii_dec c a) as [<- | Hne].
      * split; [intros _ | intros _; now destruct s].
        exists EmptyString, s. split; [constructor | reflexivity].
      * split; [discriminate |]. intros (ws & rest & Hws & H). destruct ws as [|b ws].
        -- rewrite append_empty_l in H. injection H as -> _. congruence.
        -- rewrite append_cons in H. injection H as -> _.
           unfold blank in Hws. simpl in Hws. apply Forall_cons in Hws as [? _]. congruence.
Qed.

Lemma prefix_app sub s : String.prefix sub s = true <-> exists t, s = sub +:+ t.
Proof.
  revert s. induction sub as [|c sub IH]; intros s.
  - split; [intros _; exists s; reflexivity | intros _; now destruct s].
  - destruct s as [|a s]; simpl.
    + split; [discriminate | intros [t H]; rewrite append_cons in H; discriminate].
    + destruct (Ascii.ascii_dec c a) as [-> | Hne].
      * rewrite IH. split; intros [t H]; exists t.
        -- now rewrite append_cons, H.
        -- rewrite append_cons in H. now injection H.
      * split; [discriminate | intros [t H]; rewrite append_cons in H; congruence].
Qed.

Lemma drop_app_length_string a b : PyStr.drop (String.length a) (a +:+ b) = b.
Proof. induction a as [|c a IH]; [now destruct b | exact IH]. Qed.

(** Where [rfind] finds it, the text goes on with [sub]. *)
Lemma rfind_Some sub s i :
  rfind sub s = Some i ->
  exists pre tail, s = pre +:+ sub +:+ tail /\ PyStr.drop i s = sub +:+ tail.
Proof.
  revert i. induction s as [|a s IH]; intros i; cbn [rfind].
  - destruct (String.prefix sub EmptyString) eqn:E; [| discriminate].
    intros H. injection H as <-. apply prefix_app in E as [t E].
    exists EmptyString, t. now rewrite append_empty_l.
  - destruct (rfind sub s) as [j|].
    + intros H. injection H as <-. destruct (IH j eq_refl) as (pre & tail & -> & Hd).
      exists (String a pre), tail. now rewrite append_cons.
    + destruct (String.prefix sub (String a s)) eqn:E; [| discriminate].
      intros H. injection H as <-. apply prefix_app in E as [t E].
      exists EmptyString, t. now rewrite append_empty_l.
Qed.

(** [rfind] finds an occurrence, and none lies after the one it finds. *)
Lemma rfind_last sub pre tail :
  exists j, rfind sub (pre +:+ sub +:+ tail) = Some j /\ String.length pre <= j.
Proof.
  induction pre as [|a pre (j & IH & Hj)].
  - rewrite append_empty_l.
    assert (String.prefix sub (sub +:+ tail) = true) as Hp by (apply prefix_app; eauto).
    destruct (sub +:+ tail) as [|a s] eqn:E; cbn [rfind].
    + rewrite Hp. exists 0. auto.
    + destruct (rfind sub s) as [i|]; [exists (S i); split; [reflexivity | simpl; lia] |].
      rewrite Hp. exists 0. auto.
  - rewrite append_cons. cbn [rfind String.length]. rewrite IH. exists (S j).
    split; [reflexivity | lia].
Qed.

Lemma blank_drop n s : blank s -> blank (PyStr.drop n s).
Proof.
  revert s. induction n as [|n IH]; intros [|c s] H; simpl; try assumption.
  apply IH. unfold blank in H. simpl in H. now apply Forall_cons in H as [_ ?].
Qed.

Lemma drop_app_ge n a b :
  String.length a <= n -> PyStr.drop n (a +:+ b) = PyStr.drop (n - String.length a) b.
Proof.
  revert n. induction a as [|c a IH]; intros n H.
  - rewrite append_empty_l. simpl. now rewrite Nat.sub_0_r.
  - destruct n as [|n]; simpl in H; [lia |]. rewrite append_cons. simpl. apply IH. lia.
Qed.

End KeyBindingsFacts.

(** X14. The condition of [buffer_should_be_handled], under which the enter
    key submits the buffer, holds exactly in three cases: the text is blank;
    or its first character that is not whitespace is a percent sign; or the
    text holds the line separator at some offset from which on it is blank,
    separator included: the last line is blank.  So a statement with a
    payload is submitted by an empty line. *)
Theorem buffer_should_be_handled_iff :
  forall linesep text,
    KeyBindings.buffer_should_be_handled linesep text = true <->
    blank text \/
    (exists ws rest, blank ws /\ text = ws +:+ String "%" rest) \/
    (exists pre tail,
       text = pre +:+ linesep +:+ tail /\ blank (linesep +:+ tail)).
Proof.
  intros linesep text. unfold KeyBindings.buffer_should_be_handled.
  pose proof (KeyBindingsFacts.strip_test text) as Hblank.
  pose proof (KeyBindingsFacts.lstrip_starts "%" text eq_refl) as Hpercent.
  unfold KeyBindings.SPECIAL_LEADING_CHAR.
  destruct (String.eqb (KeyBindings.strip text) EmptyString); [tauto |].
  destruct (PyStr.startswith "%" (KeyBindings.lstrip text)); [tauto |].
  assert (~ blank text) as Hnb by (intros H; apply Hblank in H; discriminate).
  assert (~ exists ws rest, blank ws /\ text = ws +:+ String "%" rest) as Hnp
    by (intros H; apply Hpercent in H; discriminate).
  destruct (KeyBindings.rfind linesep text) as [i|] eqn:Ef.
  - rewrite KeyBindingsFacts.strip_test.
    apply KeyBindingsFacts.rfind_Some in Ef as Hocc. destruct Hocc as (pre & tail & Ht & Hd).
    split.
    + intros H. right; right. rewrite Hd in H.
      exists (PyStr.take i text), tail. split; [| exact H].
      rewrite <- Hd. clear. revert text. induction i as [|i IH]; intros [|c s]; simpl;
        rewrite ?append_empty_l, ?append_cons; try reflexivity. f_equal. apply IH.
    + intros [H | [H | (pre' & tail' & Ht' & Hb)]]; [contradiction | contradiction |].
      destruct (KeyBindingsFacts.rfind_last linesep pre' tail') as (j & Hj & Hle).
      rewrite <- Ht', Ef in Hj. injection Hj as <-.
      rewrite Ht', KeyBindingsFacts.drop_app_ge by exact Hle.
      now apply KeyBindingsFacts.blank_drop.
  - split; [discriminate |].
    intros [H | [H | (pre' & tail' & Ht' & Hb)]]; [contradiction | contradiction |].
    destruct (KeyBindingsFacts.rfind_last linesep pre' tail') as (j & Hj & _).
    rewrite <- Ht' in Hj. congruence.
Qed.

(** ** The extra options of the configuration *)

Module ConfigFacts.
Import Config SpecLoader SpecLoaderFacts.

Lemma dict_set_same {V} (d : list (string * V)) k v :
  dict_get d k = Some v -> dict_set d k v = d.
Proof.
  induction d as [|[k0 v0] d IH]; simpl; [discriminate |].
  destruct (String.eqb k0 k); [intros H; now injection H as -> | intros H; now rewrite IH].
Qed.

Lemma dict_get_set_same {V} (d : list (string * V)) k v : dict_get (dict_set d k v) k = Some v.
Proof. now rewrite dict_get_set, String.eqb_refl. Qed.

Lemma dict_get_set_other {V} (d : list (string * V)) k v k' :
  k <> k' -> dict_get (dict_set d k v) k' = dict_get d k'.
Proof.
  intros H. rewrite dict_get_set. destruct (String.eqb_spec k k'); [contradiction | reflexivity].
Qed.

Lemma set_option_cons k k2 cs value parent :
  set_option (k :: k2 :: cs) value parent =
  match dict_get parent k with
  | None =>
      let '(child, warned) := set_option (k2 :: cs) value [] in
      (dict_set parent k (Dict child), warned)
  | Some (Dict child) =>
      let '(child', warned) := set_option (k2 :: cs) value child in
      (dict_set parent k (Dict child'), warned)
  | Some (Str _) => (parent, true)
  end.
Proof. reflexivity. Qed.

Lemma get_path_cons k k2 cs d :
  get_path (k :: k2 :: cs) d =
  match dict_get d k with
  | Some (Dict child) => get_path (k2 :: cs) child
  | _ => None
  end.
Proof. reflexivity. Qed.

(** A walk through a dictionary that was just created meets no conflict. *)
Lemma set_option_fresh cs value : snd (set_option cs value []) = false.
Proof.
  induction cs as [|k [|k2 cs] IH]; try reflexivity.
  rewrite set_option_cons. cbn [dict_get].
  destruct (set_option (k2 :: cs) value []) as [child warned]. exact IH.
Qed.

Lemma set_option_spec cs : forall value parent,
  cs <> [] ->
  (snd (set_option cs value parent) = false ->
   get_path cs (fst (set_option cs value parent)) = Some (Str value)) /\
  (snd (set_option cs value parent) = true -> fst (set_option cs value parent) = parent) /\
  (forall k', hd_error cs <> Some k' ->
     dict_get (fst (set_option cs value parent)) k' = dict_get parent k').
Proof.
  induction cs as [|k [|k2 cs] IH]; intros value parent Hne; [congruence | |].
  - cbn [set_option get_path fst snd hd_error]. split; [| split].
    + intros _. apply dict_get_set_same.
    + discriminate.
    + intros k' Hk. apply dict_get_set_other. congruence.
  - rewrite set_option_cons. cbn [hd_error].
    destruct (dict_get parent k) as [[s | child]|] eqn:Eg.
    + cbn [fst snd]. split; [discriminate | split; [reflexivity | reflexivity]].
    + destruct (IH value child ltac:(discriminate)) as (IH1 & IH2 & _).
      destruct (set_option (k2 :: cs) value child) as [child' warned]. cbn [fst snd] in *.
      split; [| split].
      * intros Hw. rewrite get_path_cons, dict_get_set_same. auto.
      * intros Hw. rewrite (IH2 Hw). now apply dict_set_same.
      * intros k' Hk. apply dict_get_set_other. congruence.
    + destruct (IH value [] ltac:(discriminate)) as (IH1 & _ & _).
      pose proof (set_option_fresh (k2 :: cs) value) as Hfresh.
      destruct (set_option (k2 :: cs) value []) as [child warned]. cbn [fst snd] in *.
      split; [| split].
      * intros Hw. rewrite get_path_cons, dict_get_set_same. auto.
      * congruence.
      * intros k' Hk. apply dict_get_set_other. congruence.
Qed.

Lemma split_once_app c key value :
  PyStr.contains_char c key = false ->
  split_once c (key +:+ String c value) = Some (key, value).
Proof.
  induction key as [|a key IH]; intros H.
  - rewrite append_empty_l. simpl. now rewrite Ascii.eqb_refl.
  - simpl in H. apply orb_false_iff in H as [Ha H]. rewrite append_cons. simpl.
    now rewrite Ha, (IH H).
Qed.

Lemma split_once_None c s : split_once c s = None <-> PyStr.contains_char c s = false.
Proof.
  induction s as [|a s IH]; simpl; [tauto |].
  destruct (Ascii.eqb a c); simpl; [split; discriminate |].
  destruct (split_once c s) as [[k v]|]; [| tauto].
  split; [discriminate | intros H; apply IH in H; discriminate].
Qed.

Lemma extra_config_loop_raises options : forall d log,
  snd (extra_config_loop options d log) = None <->
  exists o, In o options /\ PyStr.contains_char "=" o = false.
Proof.
  induction options as [|o options IH]; intros d log; cbn [extra_config_loop].
  - split; [discriminate | intros (o & [] & _)].
  - destruct (split_once "=" o) as [[key value]|] eqn:E.
    + destruct (set_option (PyStr.split "." key) value d) as [d' warned].
      rewrite IH. split.
      * intros (o' & Hin & Ho). exists o'. split; [now right | exact Ho].
      * intros (o' & [<- | Hin] & Ho); [| eauto].
        apply split_once_None in Ho. congruence.
    + split; [intros _ | reflexivity]. exists o. split; [now left |].
      now apply split_once_None.
Qed.

(** One round of the loop, for an option with an equals sign. *)
Lemma extra_config_loop_step key value rest d log d' warned :
  PyStr.contains_char "=" key = false ->
  set_option (PyStr.split "." key) value d = (d', warned) ->
  extra_config_loop ((key +:+ String "=" value) :: rest) d log =
  extra_config_loop rest d' (if warned then log ++ [key] else log).
Proof.
  intros Hk Hs. cbn [extra_config_loop]. now rewrite split_once_app, Hs.
Qed.

End ConfigFacts.

(** X15. An option [key=value] is cut at its first equals sign, so the value
    may hold equals signs.  The walk that stores a dotted key either meets a
    value that is no dictionary on its way, logs the conflict and leaves the
    dictionary as it was, or it stores the value where the dotted key reads
    it back; either way the entries under the other top-level keys stay as
    they were. *)
Theorem config_option_round_trip :
  (forall key value,
     PyStr.contains_char "=" key = false ->
     Config.split_once "=" (key +:+ String "=" value) = Some (key, value)) /\
  (forall key_components value parent,
     key_components <> [] ->
     let after := Config.set_option key_components value parent in
     (snd after = false ->
      get_path key_components (fst after) = Some (Config.Str value)) /\
     (snd after = true -> fst after = parent) /\
     (forall k', hd_error key_components <> Some k' ->
        dict_get (fst after) k' = dict_get parent k')).
Proof.
  split; [exact (ConfigFacts.split_once_app "=") |].
  intros key_components value parent Hne. now apply ConfigFacts.set_option_spec.
Qed.

(** The option [es.hosts=a=b] stored beside an entry [es.port]. *)
Lemma config_option_round_trip_witness :
  Config.split_once "=" ("es.hosts" +:+ String "=" "a=b") = Some ("es.hosts", "a=b") /\
  let parent := [("es", Config.Dict [("port", Config.Str "9200")])] in
  let after := Config.set_option ["es"; "hosts"] "a=b" parent in
  (snd after = false ->
   get_path ["es"; "hosts"] (fst after) = Some (Config.Str "a=b")) /\
  (snd after = true -> fst after = parent) /\
  (forall k', hd_error ["es"; "hosts"] <> Some k' ->
     dict_get (fst after) k' = dict_get parent k').
Proof.
  split.
  - exact (proj1 config_option_round_trip "es.hosts" "a=b" eq_refl).
  - refine (proj2 config_option_round_trip ["es"; "hosts"] "a=b"
              [("es", Config.Dict [("port", Config.Str "9200")])] _).
    discriminate.
Defined.

(** X16. The loop over the extra options raises a ValueError exactly when
    one of the options holds no equals sign, whatever the other options are;
    a conflict of keys never raises. *)
Theorem extra_config_raises_iff :
  forall extra_config_options,
    snd (Config.extra_config extra_config_options) = None <->
    exists o, In o extra_config_options /\ PyStr.contains_char "=" o = false.
Proof.
  intros extra_config_options. apply ConfigFacts.extra_config_loop_raises.
Qed.

(** X17. A plain key and a dotted key under it conflict, and the plain value
    is what is kept in either order: given after the plain key, the dotted
    option is dropped and its key is logged; given before it, the section
    that the dotted option created is overwritten by the plain value, and
    nothing is logged. *)
Theorem config_key_conflict :
  forall k sub v v',
    PyStr.contains_char "=" k = false -> PyStr.contains_char "." k = false ->
    PyStr.contains_char "=" sub = false ->
    Config.extra_config [k +:+ String "=" v; (k +:+ String "." sub) +:+ String "=" v']
    = ([k +:+ String "." sub], Some [(k, Config.Str v)]) /\
    Config.extra_config [(k +:+ String "." sub) +:+ String "=" v'; k +:+ String "=" v]
    = ([], Some [(k, Config.Str v)]).
Proof.
  intros k sub v v' Hk Hdot Hsub.
  assert (PyStr.contains_char "=" (k +:+ String "." sub) = false) as Hks.
  { clear - Hk Hsub. induction k as [|a k IH].
    - rewrite append_empty_l. simpl. exact Hsub.
    - simpl in Hk. apply orb_false_iff in Hk as [Ha Hk]. rewrite append_cons. simpl.
      now rewrite Ha, IH. }
  assert (PyStr.split "." k = [k]) as Hsplit by (now apply split_no_sep).
  assert (exists c cs, PyStr.split "." (k +:+ String "." sub) = k :: c :: cs) as (c & cs & Hsplit2).
  { rewrite (split_after_run "." k _ Hdot). cbn [PyStr.split]. rewrite Ascii.eqb_refl.
    rewrite append_empty_r. destruct (split_never_empty "." sub) as (w & ws & ->). eauto. }
  unfold Config.extra_config. split.
  - rewrite (ConfigFacts.extra_config_loop_step k v _ [] [] [(k, Config.Str v)] false Hk)
      by (now rewrite Hsplit).
    rewrite (ConfigFacts.extra_config_loop_step (k +:+ String "." sub) v' _ _ _
               [(k, Config.Str v)] true Hks); [reflexivity |].
    rewrite Hsplit2, ConfigFacts.set_option_cons. cbn [dict_get].
    now rewrite String.eqb_refl.
  - pose proof (ConfigFacts.set_option_fresh (c :: cs) v') as Hfresh.
    destruct (Config.set_option (c :: cs) v' []) as [child warned] eqn:Ec.
    cbn [snd] in Hfresh. subst warned.
    rewrite (ConfigFacts.extra_config_loop_step (k +:+ String "." sub) v' _ [] []
               [(k, Config.Dict child)] false Hks)
      by (now rewrite Hsplit2, ConfigFacts.set_option_cons, Ec).
    rewrite (ConfigFacts.extra_config_loop_step k v _ _ _ [(k, Config.Str v)] false Hk);
      [reflexivity |].
    rewrite Hsplit. cbn [Config.set_option SpecLoader.dict_set].
    now rewrite String.eqb_refl.
Qed.

(** The options [a=1] and [a.b=2]. *)
Lemma config_key_conflict_witness :
  Config.extra_config ["a" +:+ String "=" "1"; ("a" +:+ String "." "b") +:+ String "=" "2"]
  = (["a" +:+ String "." "b"], Some [("a", Config.Str "1")]) /\
  Config.extra_config [("a" +:+ String "." "b") +:+ String "=" "2"; "a" +:+ String "=" "1"]
  = ([], Some [("a", Config.Str "1")]).
Proof.
  exact (config_key_conflict "a" "b" "1" "2" eq_refl eq_refl eq_refl).
Defined.

(** ** Quoted values of the payload, in general *)

Module PayloadRounds.
Import Re Pygments ReFacts EngineFacts LexerFacts PeekLexerFacts ScanFacts PeekScans.

#[local] Arguments slice : simpl never.

(** The opening quote of a value, in the state of a dictionary value or of
    the values of an array. *)
Lemma open_quote_round s q n c r stack :
  s = PayloadLexer.dict_value \/ s = PayloadLexer.array_values ->
  (c = PayloadLexer.dquote \/ c = PayloadLexer.squote) ->
  step PayloadLexer.tokens PayloadLexer.root (mkCursor q n (c :: r)) (s :: stack)
  = Next [emit n (if Ascii.eqb c PayloadLexer.dquote then String_Double else String_Single) [c]]
         (mkCursor (Some c) (S n) r)
         ((if Ascii.eqb c PayloadLexer.dquote then PayloadLexer.dqs_ else PayloadLexer.sqs_)
            :: s :: stack).
Proof.
  intros Hs Hc.
  assert (slice (mkCursor q n (c :: r)) n (S n) = [c]) as Hslice
    by exact (slice_skip [c] q n r).
  destruct Hs as [-> | ->], Hc as [-> | ->];
    cbv -[slice] in Hslice |- *; now rewrite Hslice.
Qed.

#[local] Arguments eq_ci : simpl never.

Lemma inner_not_special x :
  PayloadLexer.inner_char x = true ->
  eq_ci PayloadLexer.dquote x = false /\ eq_ci PayloadLexer.squote x = false /\
  eq_ci PayloadLexer.backslash x = false.
Proof. destruct x as [[] [] [] [] [] [] [] []]; (discriminate || (repeat split; reflexivity)). Qed.

(** The text of a string, in the states built by [dqs]: the states of a
    double-quoted key or value, and the state of a single-quoted value. *)
Lemma string_text_round s k q n x body y r stack :
  PayloadLexer.tokens s = PayloadLexer.dqs k ->
  Forall (fun c => PayloadLexer.inner_char c = true) (x :: body) ->
  PayloadLexer.inner_char y = false ->
  step PayloadLexer.tokens PayloadLexer.root (mkCursor q n (x :: body ++ y :: r)) (s :: stack)
  = Next [emit n k (x :: body)] (skip (x :: body) q n (y :: r)) (s :: stack).
Proof.
  intros Hs Hbody Hy. pose proof Hbody as Hx. apply Forall_cons in Hx as [Hx _].
  destruct (inner_not_special x Hx) as (Hd & Hq & Hb).
  unfold step. cbn [top hd]. rewrite Hs.
  cbn [PayloadLexer.dqs PayloadLexer.innerstring_rules app first_match
       PayloadLexer.rule PayloadLexer.rule_to fst].
  assert (rexmatch (Chr PayloadLexer.dquote) (mkCursor q n (x :: body ++ y :: r)) = None) as ->
    by (unfold rexmatch; cbn [run rest]; now rewrite Hd).
  assert (rexmatch (PayloadLexer.escapes PayloadLexer.dquote)
            (mkCursor q n (x :: body ++ y :: r)) = None) as ->
    by (unfold rexmatch, PayloadLexer.escapes; cbn [run rest]; now rewrite Hb).
  rewrite (plus_cls_greedy PayloadLexer.inner_char x body q n (y :: r) Hbody Hy).
  unfold PayloadLexer.rule. cbn iota beta. cbn [run_action pos].
  change (x :: body ++ y :: r) with ((x :: body) ++ y :: r). now rewrite slice_skip.
Qed.

End PayloadRounds.

(** X18. A quoted value whose text holds no backslash, quote, percent sign
    or newline takes three rounds: the opening quote, the text, the closing
    quote.  After a double-quoted value the lexer is back in the state in
    which the value began.  After a single-quoted value it is still inside
    the string, whatever the text: the state of a single-quoted value is
    built by [dqs], and only a double quote leaves it. *)
Theorem quoted_value_rounds :
  forall s q n x body r stack,
    s = PayloadLexer.dict_value \/ s = PayloadLexer.array_values ->
    Forall (fun c => PayloadLexer.inner_char c = true) (x :: body) ->
    Pygments.state_after PayloadLexer.tokens PayloadLexer.root 3
      (Re.mkCursor q n (PayloadLexer.dquote :: (x :: body) ++ PayloadLexer.dquote :: r))
      (s :: stack)
    = Some (Re.mkCursor (Some PayloadLexer.dquote) (S (S n + length (x :: body))) r,
            s :: stack) /\
    Pygments.state_after PayloadLexer.tokens PayloadLexer.root 3
      (Re.mkCursor q n (PayloadLexer.squote :: (x :: body) ++ PayloadLexer.squote :: r))
      (s :: stack)
    = Some (Re.mkCursor (Some PayloadLexer.squote) (S (S n + length (x :: body))) r,
            PayloadLexer.sqs_ :: s :: stack).
Proof.
  intros s q n x body r stack Hs Hbody. split.
  - cbn [Pygments.state_after].
    rewrite (PayloadRounds.open_quote_round s q n PayloadLexer.dquote _ stack Hs)
      by (now left).
    cbn [Ascii.eqb Bool.eqb PayloadLexer.dquote]. cbn iota.
    change ((x :: body) ++ PayloadLexer.dquote :: r) with (x :: body ++ PayloadLexer.dquote :: r).
    rewrite (PayloadRounds.string_text_round PayloadLexer.dqs_ String_Double _ _ x body
               PayloadLexer.dquote r _ eq_refl Hbody eq_refl).
    rewrite PeekScans.skip_cursor. reflexivity.
  - cbn [Pygments.state_after].
    rewrite (PayloadRounds.open_quote_round s q n PayloadLexer.squote _ stack Hs)
      by (now right).
    cbn [Ascii.eqb Bool.eqb PayloadLexer.dquote PayloadLexer.squote]. cbn iota.
    change ((x :: body) ++ PayloadLexer.squote :: r) with (x :: body ++ PayloadLexer.squote :: r).
    rewrite (PayloadRounds.string_text_round PayloadLexer.sqs_ String_Single _ _ x body
               PayloadLexer.squote r _ eq_refl Hbody eq_refl).
    rewrite PeekScans.skip_cursor. reflexivity.
Qed.

(** The values of [{'k':'v'}] and of its double-quoted form, met after the
    colon. *)
Lemma quoted_value_rounds_witness :
  let stack := [PayloadLexer.root] in
  Pygments.state_after PayloadLexer.tokens PayloadLexer.root 3
    (Re.mkCursor (Some ":"%char) 5
       (PayloadLexer.dquote :: ["v"%char] ++ PayloadLexer.dquote :: ["}"%char]))
    (PayloadLexer.dict_value :: stack)
  = Some (Re.mkCursor (Some PayloadLexer.dquote) (S (S 5 + length ["v"%char])) ["}"%char],
          PayloadLexer.dict_value :: stack) /\
  Pygments.state_after PayloadLexer.tokens PayloadLexer.root 3
    (Re.mkCursor (Some ":"%char) 5
       (PayloadLexer.squote :: ["v"%char] ++ PayloadLexer.squote :: ["}"%char]))
    (PayloadLexer.dict_value :: stack)
  = Some (Re.mkCursor (Some PayloadLexer.squote) (S (S 5 + length ["v"%char])) ["}"%char],
          PayloadLexer.sqs_ :: PayloadLexer.dict_value :: stack).
Proof.
  refine (quoted_value_rounds PayloadLexer.dict_value (Some ":"%char) 5 "v"%char [] ["}"%char]
            [PayloadLexer.root] _ _).
  - now left.
  - repeat constructor.
Defined.

(** ** What the completer is given by the lexer of these sources *)

Module SourceKinds.
Import Re Pygments ReFacts EngineFacts ScanFacts.

(** A kind that is none of the four that [completer.py] dispatches on and
    that [lexers.py] does not define. *)
Definition plain_kind (k : TokenKind) : Prop :=
  k <> HttpMethod /\ k <> FuncName /\ k <> BlankLine /\ k <> Assign.

Definition plain (t : Token) : Prop := plain_kind (ttype t).

Definition group_plain (ga : GroupAction) : Prop :=
  match ga with
  | GToken k => plain_kind k
  | GUsing lx => forall text toks, lx text = Some toks -> Forall plain toks
  end.

Definition action_plain (act : Action) : Prop :=
  match act with
  | AToken k => plain_kind k
  | AByGroups gs => Forall group_plain gs
  end.

Lemma run_groups_plain cur g gs : forall i toks,
  Forall group_plain gs -> run_groups cur g i gs = Some toks -> Forall plain toks.
Proof.
  induction gs as [|ga gs IH]; intros i toks Hgs H; simpl in H.
  - injection H as <-. constructor.
  - apply Forall_cons in Hgs as [Hga Hgs].
    destruct (run_group cur g i ga) as [a|] eqn:Ea; [| discriminate].
    destruct (run_groups cur g (S i) gs) as [b|] eqn:Eb; [| discriminate].
    injection H as <-. apply Forall_app. split; [| eapply IH; eassumption].
    unfold run_group in Ea. destruct (group_span g (S i)) as [[x y]|].
    + destruct ga as [k | lx].
      * destruct (slice cur x y); injection Ea as <-;
          [constructor | constructor; [exact Hga | constructor]].
      * destruct (lx (slice cur x y)) as [toks|] eqn:El; [| discriminate].
        injection Ea as <-. apply Forall_fmap. eapply Forall_impl; [exact (Hga _ _ El) |].
        now intros t.
    + injection Ea as <-. constructor.
Qed.

Section Engine.
Context {St : Type} (tokendefs : St -> list (Rule (St := St))) (root : St).
Hypothesis rules_plain : forall s, Forall (fun r => action_plain (snd (fst r))) (tokendefs s).

Lemma step_plain cur stack toks cur' stack' :
  step tokendefs root cur stack = Next toks cur' stack' -> Forall plain toks.
Proof.
  unfold step. destruct (first_match _ cur) as [[[[[rx act] ops] c] g]|] eqn:E.
  - apply first_match_inv in E as [Hin _].
    pose proof (rules_plain (top root stack)) as Hall. rewrite List.Forall_forall in Hall.
    apply Hall in Hin. cbn [fst snd] in Hin.
    destruct (run_action act cur c g) as [toks0|] eqn:Ea; [| discriminate].
    intros H. injection H as <- <- <-. destruct act as [k | gs]; simpl in Ea.
    + injection Ea as <-. constructor; [exact Hin | constructor].
    + eapply run_groups_plain; eassumption.
  - destruct (rest cur) as [|c r]; [discriminate |].
    destruct (is_newline c); intros H; injection H as <- <- <-;
      (constructor; [unfold plain, plain_kind; cbn; repeat split; discriminate | constructor]).
Qed.

Lemma scan_plain text toks :
  get_tokens_unprocessed tokendefs root text = Some toks -> Forall plain toks.
Proof.
  unfold get_tokens_unprocessed.
  apply (loop_invariant tokendefs root (fun _ => True) plain); [| exact I].
  intros cur stack t c s _ H. split; [exact I | eapply step_plain; eassumption].
Qed.

End Engine.

Ltac plain_rules :=
  repeat (apply Forall_cons; split;
          [cbn [fst snd action_plain]; unfold plain_kind; repeat split; discriminate |]);
  try apply Forall_nil_2.

Lemma payload_plain text toks :
  PayloadLexer.get_tokens_unprocessed text = Some toks -> Forall plain toks.
Proof.
  apply scan_plain. intros s. destruct s; cbn; plain_rules.
Qed.

Lemma peek_plain text toks :
  PeekLexer.get_tokens_unprocessed text = Some toks -> Forall plain toks.
Proof.
  apply scan_plain. intros s. destruct s; cbn; plain_rules.
  - apply Forall_cons. split; [| apply Forall_nil_2]. cbn [fst snd action_plain].
    repeat (apply Forall_cons; split;
            [cbn [group_plain]; unfold plain_kind; repeat split; discriminate |]).
    apply Forall_nil_2.
  - apply Forall_cons. split; [| apply Forall_nil_2]. cbn [fst snd action_plain].
    apply Forall_cons. split; [exact payload_plain | apply Forall_nil_2].
Qed.

Lemma tokenize_plain text : Forall plain (PeekLexer.tokenize text).
Proof.
  unfold PeekLexer.tokenize.
  destruct (PeekLexer.get_tokens_unprocessed (list_ascii_of_string text)) as [toks|] eqn:E;
    [eapply peek_plain; eassumption | constructor].
Qed.

Lemma process_tokens_plain toks : Forall plain toks -> Forall plain (process_tokens toks).
Proof.
  induction 1 as [|t toks Ht _ IH]; [constructor |]. cbn [process_tokens].
  destruct (process_tokens toks) as [|u rest']; [constructor; [exact Ht | constructor] |].
  apply Forall_cons in IH as [Hu Hrest].
  destruct (kind_is (ttype t) Error && kind_is (ttype u) Error).
  - constructor; [| exact Hrest]. unfold plain, plain_kind. cbn. repeat split; discriminate.
  - constructor; [exact Ht |]. constructor; assumption.
Qed.

Lemma removelast_Forall {A} (P : A -> Prop) l : Forall P l -> Forall P (removelast l).
Proof.
  induction 1 as [|x l Hx Hl IH]; [constructor |]. simpl.
  destruct l; [constructor | now constructor].
Qed.

Lemma plain_not_kind t k :
  plain t -> k = HttpMethod \/ k = FuncName \/ k = BlankLine \/ k = Assign ->
  kind_is (ttype t) k = false.
Proof.
  intros (H1 & H2 & H3 & H4) Hk. unfold kind_is. apply bool_decide_eq_false_2.
  destruct Hk as [-> | [-> | [-> | ->]]]; assumption.
Qed.

Lemma complete_options_plain NAMES tokens :
  Forall plain tokens -> _complete_options NAMES tokens = PyNone.
Proof.
  intros Hp.
  assert (scan_options NAMES (rev tokens) = PyNone) as Hscan.
  { apply scan_options_no_head. rewrite List.Forall_forall in *. intros u Hu.
    apply in_rev in Hu. apply Hp in Hu. unfold is_head.
    now rewrite !(plain_not_kind u) by auto. }
  unfold _complete_options, last_token. destruct (last tokens) as [u|] eqn:El; [| exact Hscan].
  rewrite (plain_not_kind u); [exact Hscan | | auto].
  apply last_Some in El as [pre ->]. apply Forall_app in Hp as [_ Hp].
  now apply Forall_cons in Hp as [? _].
Qed.

(** On tokens of plain kinds only, completion has nothing to offer. *)
Lemma get_completions_plain normalize NAMES self document_text cursor :
  Forall plain (normalize (lexer self (PyStr.take cursor document_text))) ->
  get_completions normalize NAMES self document_text cursor = Return Nothing \/
  get_completions normalize NAMES self document_text cursor = PyNone.
Proof.
  intros Hp. unfold get_completions.
  set (tokens := normalize (lexer self (PyStr.take cursor document_text))) in *.
  destruct (length tokens =? 0) eqn:Hlen; [now left |].
  assert (Hlook : forall j u, tokens !! j = Some u -> plain u)
    by (intros j u Hu; rewrite Forall_lookup in Hp; eapply Hp; eassumption).
  destruct (find_token 0 tokens cursor) as [[i t]|] eqn:Hfind.
  - apply find_token_some in Hfind as (k & Hk & Ht & _). simpl in Hk. subst k.
    rewrite !(plain_not_kind t) by eauto. cbn [orb].
    assert ((0 <? i) && match tokens !! (i - 1) with
                        | Some prev => kind_is (ttype prev) HttpMethod
                        | None => false
                        end = false) as ->.
    { destruct (tokens !! (i - 1)) as [prev|] eqn:Ep; [| apply andb_false_r].
      rewrite (plain_not_kind prev) by eauto. apply andb_false_r. }
    destruct (_ || _); [right | now left].
    apply complete_options_plain. now apply removelast_Forall.
  - destruct (last_token tokens) as [tl|] eqn:El.
    + destruct (PyStr.contains_char _ _); [now left | right].
      now apply complete_options_plain.
    + destruct tokens as [|t0 tokens0]; [discriminate |].
      unfold last_token in El. destruct (last_cons_Some t0 tokens0) as [y Hy]. congruence.
Qed.

End SourceKinds.

